(** * The read path of the ext2 driver (drivers/libblockfs/src/ext2fs.cpp)

    A shallow embedding of the loader of the superblock, of the cache of
    the inodes in use, of the inode initializer, of the page-in handlers,
    of the block mapper with read fusion and of the directory reader,
    together with the properties the specification states about them and
    with further properties that the code shows.  Kernel calls and device
    reads are recorded as a trace of actions; assertions and aborts end a
    computation. *)

From Stdlib Require Import ZArith List Lia Bool.
From Stdlib.Strings Require Import Byte.
Import ListNotations.
Local Open Scope Z_scope.

(** * Part I: the driver, as definitions *)

(** ** Machine integers and bytes in memory *)

Module Word.

(** Reduction of a mathematical integer to an unsigned [w]-bit one. *)
Definition wrap (w x : Z) : Z := x mod 2 ^ w.

Definition u32 : Z -> Z := wrap 32.

Definition u64 : Z -> Z := wrap 64.

End Word.

Definition byte_val (b : byte) : Z := Z.of_N (Byte.to_N b).

(** The byte of [m] at address [a].  The model is that of the code for
    [0 <= a < length m] only: outside it gives zero, where the code reads
    what lies beside its mapping.  The theorems on the directory reader
    keep the entries they read inside the window. *)
Definition load8 (m : list byte) (a : Z) : Z :=
  byte_val (nth (Z.to_nat a) m x00).

(** Little-endian loads, as the driver's target reads a [uint16_t] and a
    [uint32_t] through a cast pointer. *)
Definition le16 (m : list byte) (a : Z) : Z :=
  load8 m a + 2 ^ 8 * load8 m (a + 1).

Definition le32 (m : list byte) (a : Z) : Z :=
  load8 m a + 2 ^ 8 * load8 m (a + 1)
  + 2 ^ 16 * load8 m (a + 2) + 2 ^ 24 * load8 m (a + 3).

(** [reinterpret_cast<uint32_t *>(m)[i]] *)
Definition u32_at (m : list byte) (i : Z) : Z := le32 m (4 * i).

(** ** The block device and mapped windows *)

(** [zseq a n] is [a; a+1; ...; a+n-1]. *)
Definition zseq (a : Z) (n : nat) : list Z :=
  map (fun i => a + Z.of_nat i) (seq 0 n).

(** The medium, byte by byte; sectors are 512 bytes. *)
Definition Device := Z -> byte.

(** [device->readSectors(sector, buffer, count)]: the bytes delivered. *)
Definition readSectors (dev : Device) (sector count : Z) : list byte :=
  map dev (zseq (sector * 512) (Z.to_nat (count * 512))).

(** Copying [data] into a mapped window at byte offset [off].  A copy that
    leaves the window has no defined result. *)
Definition store (buf : list byte) (off : Z) (data : list byte)
  : option (list byte) :=
  if (0 <=? off) && (off + Z.of_nat (length data) <=? Z.of_nat (length buf))
  then Some (firstn (Z.to_nat off) buf ++ data
             ++ skipn (Z.to_nat off + length data) buf)
  else None.

(** ** Filesystem geometry *)

Definition pageShift : Z := 12.

Definition pageSize : Z := Z.shiftl 1 pageShift.

(** The superblock fields that [FileSystem::init] reads. *)
Record DiskSuperblock := {
  sb_magic : Z;
  sb_inodeSize : Z;
  sb_logBlockSize : Z;
  sb_blocksCount : Z;
  sb_blocksPerGroup : Z;
  sb_inodesPerGroup : Z
}.

(** The members of [FileSystem] that [init] derives. *)
Record Geometry := {
  inodeSize : Z;
  blockShift : Z;
  blockSize : Z;
  blockPagesShift : Z;
  sectorsPerBlock : Z;
  numBlockGroups : Z;
  inodesPerGroup : Z
}.

(** What ends a task: a failed [assert], an [abort()], or a copy that
    leaves its window.  [Diverged] marks a loop that never exits. *)
Inductive Abort :=
| BadMagic                 (* assert(sb.magic == 0xEF53) *)
| UnexpectedInodeType      (* abort() in initiateInode *)
| ManageOutOfRange         (* assert(offset + length <= cache size) *)
| BlockMisaligned          (* assert(offset % blockSize == 0) *)
| WindowTooSmall           (* assert(num_blocks * blockSize <= length) *)
| UnexpectedOffset         (* assert(!"unexpected offset") *)
| UnexpectedOrder          (* assert(order == 2) *)
| MultiPageBlock           (* the two "multi-page blocks" asserts *)
| TripleIndirect           (* assert(index < d_range) *)
| HoleEncountered          (* assert(issue.first != 0) *)
| NameRejected             (* assert on the name in findEntry *)
| DirectoryOverrun         (* assert(offset == fileSize) after the walk *)
| CursorPastEnd            (* assert(offset <= fileSize) *)
| EntryHeaderPastEnd       (* assert(offset + sizeof(DiskDirEntry) <= size) *)
| RecordPastEnd            (* assert(offset + recordLength <= fileSize) *)
| WindowFault              (* access outside a mapped window *)
| Diverged.

Inductive Result (A : Type) :=
| Done (a : A)
| Aborted (e : Abort).

Arguments Done {A} a.

Arguments Aborted {A} e.

(** The geometry part of [FileSystem::init].  It is that of the code for
    [blocksPerGroup] other than zero: the division of the code is not
    defined at zero, and the theorems on the loader assume
    [0 < blocksPerGroup]. *)
Definition geometry_of (sb : DiskSuperblock) : Result Geometry :=
  if sb_magic sb =? 0xEF53 then
    let shift := 10 + sb_logBlockSize sb in
    let size := Z.shiftl 1024 (sb_logBlockSize sb) in
    Done {| inodeSize := sb_inodeSize sb;
            blockShift := shift;
            blockSize := size;
            blockPagesShift := if shift <? pageShift then pageShift else shift;
            sectorsPerBlock := size / 512;
            numBlockGroups := sb_blocksCount sb / sb_blocksPerGroup sb;
            inodesPerGroup := sb_inodesPerGroup sb |}
  else Aborted BadMagic.

(** Geometries of the block sizes of the format, 1 KiB to 64 KiB.  In this
    range the 32-bit intermediates of the driver are exact. *)
Definition valid_geometry (g : Geometry) : Prop :=
  10 <= blockShift g <= 16 /\
  blockSize g = 2 ^ blockShift g /\
  blockPagesShift g = Z.max (blockShift g) 12 /\
  sectorsPerBlock g = blockSize g / 512.

(** ** Kernel objects, actions and the task monad *)

(** The managed-memory handles of one inode. *)
Inductive MemObject :=
| BackingMemory | FrontalMemory       (* the page cache of the file *)
| BackingOrder1 | IndirectOrder1      (* single/double/triple roots *)
| BackingOrder2 | IndirectOrder2.     (* leaves under the double root *)

Inductive Handler :=
| ManageFileData
| ManageIndirect (order : Z).

(** What a task does to the kernel and to the device, in program order. *)
Inductive Action :=
| AwaitReady                           (* readyJump.async_wait() *)
| CreateManagedMemory (size : Z) (backing frontal : MemObject)
| RaiseReady                           (* inode->isReady = true *)
| TriggerReady                         (* inode->readyJump.trigger() *)
| StoreHandle (obj : MemObject)
| Spawn (h : Handler)
| LockMemory (obj : MemObject) (offset length : Z)
| MapMemory (obj : MemObject) (offset length : Z)
| UnmapMemory (obj : MemObject) (offset length : Z)
| ReadSectors (sector count : Z)
| CompleteLoad (obj : MemObject) (offset length : Z).

(** A task step: the actions performed, and a value or an abort. *)
Definition M (A : Type) : Type := (list Action * Result A)%type.

Definition ret {A} (a : A) : M A := ([], Done a).

Definition bind {A B} (m : M A) (k : A -> M B) : M B :=
  match m with
  | (t, Done a) => let (t', r) := k a in (t ++ t', r)
  | (t, Aborted e) => (t, Aborted e)
  end.

Definition emit (a : Action) : M unit := ([a], Done tt).

Definition abort {A} (e : Abort) : M A := ([], Aborted e).

Definition lift {A} (r : Result A) : M A := ([], r).

(** [assert(b)], aborting with [e]. *)
Definition assertion (b : bool) (e : Abort) : M unit :=
  if b then ret tt else abort e.

Declare Scope task_scope.

Delimit Scope task_scope with task.

Notation "x <- m ;; k" := (bind m (fun x => k))
  (at level 61, m at next level, right associativity) : task_scope.

Notation "m ;; k" := (bind m (fun _ => k))
  (at level 61, right associativity) : task_scope.

Local Open Scope task_scope.

(** ** The loader of the superblock and of the group descriptors *)

Section Loader.

(** [sizeof(DiskGroupDesc)], of ext2fs.hpp, which is not among the
    sources. *)
Variable sizeof_DiskGroupDesc : Z.

(** [(numBlockGroups * sizeof(DiskGroupDesc) + 511) & ~size_t(511)]: the
    size of the buffer of the group descriptors. *)
Definition bgdt_size (g : Geometry) : Z :=
  Z.land (Word.u64 (Word.u64 (numBlockGroups g * sizeof_DiskGroupDesc) + 511))
    (Z.lnot 511).

(** [(2048 + blockSize - 1) & ~size_t(blockSize - 1)]: the byte at which the
    table of the group descriptors starts. *)
Definition bgdt_offset (g : Geometry) : Z :=
  Z.land (2048 + blockSize g - 1) (Z.lnot (blockSize g - 1)).

(** [FileSystem::init()], where [sb] is the superblock as copied out of the
    two sectors read.  The lines written to [std::cout] are left out. *)
Definition init (sb : DiskSuperblock) : M Geometry :=
  emit (ReadSectors 2 2) ;;
  g <- lift (geometry_of sb) ;;
  emit (ReadSectors
          (Word.u64 (Z.shiftr (bgdt_offset g) (blockShift g)
                     * sectorsPerBlock g))
          (bgdt_size g / 512)) ;;
  ret g.

End Loader.

(** ** The inode record *)

Inductive FileType := kTypeNone | kTypeRegular | kTypeDirectory | kTypeSymlink.

(** The fields of [Inode] that the read path uses.  [fileData] is the
    [i_block] area of the on-disk inode. *)
Record Inode := {
  number : Z;
  fileType : FileType;
  fileSize : Z;
  fileData : list byte;
  mode : Z;
  numLinks : Z;
  uid : Z;
  gid : Z;
  accessTime : Z * Z;          (* tv_sec, tv_nsec *)
  dataModifyTime : Z * Z;
  anyChangeTime : Z * Z
}.

(** Modelled from the spec: the union [fileData.blocks] is declared in
    ext2fs.hpp, which is not among the sources; section 3 gives its
    layout, twelve direct pointers followed by the single, double and
    triple indirect pointers, 32 bits each. *)
Definition direct (inode : Inode) : list byte := fileData inode.

Definition singleIndirect (inode : Inode) : Z := u32_at (fileData inode) 12.

Definition doubleIndirect (inode : Inode) : Z := u32_at (fileData inode) 13.

Definition tripleIndirect (inode : Inode) : Z := u32_at (fileData inode) 14.

(** ** Read fusion *)

Module Fusion.

(** The [while] loop of the [fuse] lambda, entered with the current [n].
    [list[index] + n] is a [size_t] sum. *)
Fixpoint scan (fuel : nat) (index remaining : Z) (list : list byte)
    (limit n : Z) : Z :=
  match fuel with
  | O => n
  | S fuel' =>
    if (n <? remaining) && (index + n <? limit) then
      if negb (u32_at list (index + n) =? Word.u64 (u32_at list index + n))
      then n
      else scan fuel' index remaining list limit (n + 1)
    else n
  end.

(** [fuse(index, remaining, list, limit)]: the pair (first block, count). *)
Definition fuse (index remaining : Z) (list : list byte) (limit : Z)
  : Z * Z :=
  (u32_at list index, scan (Z.to_nat remaining) index remaining list limit 1).

(** The entries [index .. index+n-1] of [list] are consecutive blocks. *)
Definition contiguous (list : list byte) (index n : Z) : Prop :=
  forall k, 0 <= k < n -> u32_at list (index + k) = u32_at list index + k.

(** Why the loop stopped at [n]. *)
Definition stopped (index remaining : Z) (list : list byte) (limit n : Z)
  : Prop :=
  remaining <= n \/ limit <= index + n \/
  u32_at list (index + n) <> u32_at list index + n.

End Fusion.

(** ** The page-in handlers of the indirect caches and the block mapper *)

Section Driver.

Variable g : Geometry.

Variable inode : Inode.

Variable dev : Device.

(** The sector at which [block] starts.  In [readData] the product is a
    [size_t] one, as here.  In [manageIndirect] it is the product of a
    [uint32_t] and the member [sectorsPerBlock], whose type is declared in
    ext2fs.hpp, which is not among the sources: the width of that product
    is not known.  Below [2 ^ 32] the product is the same in 32 and in 64
    bits, and the theorems that state which sector a page-in handler of
    the indirect caches reads assume the product below [2 ^ 32]. *)
Definition sector_of (block : Z) : Z :=
  Word.u64 (block * sectorsPerBlock g).

(** A window of [length] fresh (zero) bytes whose head received [data]. *)
Definition fill (length : Z) (data : list byte) : list byte :=
  data ++ repeat x00 (Z.to_nat length - List.length data).

(** Modelled from the spec: managed memory belongs to the kernel, which is
    not among the sources.  By section 3, locking and mapping a range of a
    frontal handle shows what the page-in handler installed through the
    backing handle for the manage event over that range; a handler that
    aborts leaves the lock pending.  [content] is that handler's result. *)
Definition lock_and_map (content : Z -> Z -> Result (list byte))
    (obj : MemObject) (offset length : Z) : M (list byte) :=
  emit (LockMemory obj offset length) ;;
  window <- lift (content offset length) ;;
  emit (MapMemory obj offset length) ;;
  ret window.

(** The [switch] of [manageIndirect] for [order == 1]. *)
Definition order1_block (element : Z) : M Z :=
  if element =? 0 then ret (singleIndirect inode)
  else if element =? 1 then ret (doubleIndirect inode)
  else if element =? 2 then ret (tripleIndirect inode)
  else abort UnexpectedOffset.

(** The part of one iteration of [manageIndirect] that follows the choice
    of [block]; the value is the content of the window when the load is
    completed. *)
Definition load_block (memory : MemObject) (offset length : Z)
    (choose : M Z) : M (list byte) :=
  block <- choose ;;
  assertion (Z.land offset (Z.shiftl 1 (blockPagesShift g) - 1) =? 0)
    MultiPageBlock ;;
  assertion (length =? Z.shiftl 1 (blockPagesShift g)) MultiPageBlock ;;
  emit (MapMemory memory offset length) ;;
  emit (ReadSectors (sector_of block) (sectorsPerBlock g)) ;;
  emit (CompleteLoad memory offset length) ;;
  ret (fill length (readSectors dev (sector_of block) (sectorsPerBlock g))).

(** [uint32_t element = manage.offset() >> blockPagesShift] *)
Definition element_of (offset : Z) : Z :=
  Word.u32 (Z.shiftr offset (blockPagesShift g)).

(** What a lock of [indirectOrder1] observes. *)
Definition indirectOrder1_content (offset length : Z) : Result (list byte) :=
  snd (load_block BackingOrder1 offset length
         (order1_block (element_of offset))).

(** The [else] branch of [manageIndirect], for [order == 2]. *)
Definition order2_block (element : Z) : M Z :=
  let indirect_frame := Z.shiftr element (blockShift g - 2) in
  let indirect_index :=
    Z.land element (Z.shiftl 1 (blockShift g - 2) - 1) in
  window <- lock_and_map indirectOrder1_content IndirectOrder1
              (Word.u32 (Z.shiftl (Word.u32 (1 + indirect_frame))
                           (blockPagesShift g)))
              (Z.shiftl 1 (blockPagesShift g)) ;;
  ret (u32_at window indirect_index).

(** One iteration of [FileSystem::manageIndirect] for the manage event
    [(offset, length)] on [memory]. *)
Definition manageIndirect (order : Z) (memory : MemObject)
    (offset length : Z) : M (list byte) :=
  load_block memory offset length
    (if order =? 1 then order1_block (element_of offset)
     else (assertion (order =? 2) UnexpectedOrder ;;
           order2_block (element_of offset))).

(** What a lock of [indirectOrder2] observes. *)
Definition indirectOrder2_content (offset length : Z) : Result (list byte) :=
  snd (manageIndirect 2 BackingOrder2 offset length).

(** The choice of [issue] in one iteration of the loop of
    [FileSystem::readData], at [index = offset + progress]. *)
Definition issue_at (index remaining : Z) : M (Z * Z) :=
  let per_indirect := blockSize g / 4 in
  let per_single := per_indirect in
  let per_double := per_indirect * per_indirect in
  let i_range := 12 in
  let s_range := i_range + per_single in
  let d_range := s_range + per_double in
  assertion (index <? d_range) TripleIndirect ;;
  if d_range <=? index then abort TripleIndirect
  else if s_range <=? index then
    let indirect_frame := Z.shiftr (index - s_range) (blockShift g - 2) in
    let indirect_index :=
      Z.land (index - s_range) (Z.shiftl 1 (blockShift g - 2) - 1) in
    window <- lock_and_map indirectOrder2_content IndirectOrder2
                (Z.shiftl indirect_frame (blockPagesShift g))
                (Z.shiftl 1 (blockPagesShift g)) ;;
    ret (Fusion.fuse indirect_index remaining window per_indirect)
  else if i_range <=? index then
    window <- lock_and_map indirectOrder1_content IndirectOrder1
                0 (Z.shiftl 1 (blockPagesShift g)) ;;
    ret (Fusion.fuse (index - i_range) remaining window per_indirect)
  else
    ret (Fusion.fuse index remaining (direct inode) 12).

(** The device read of one iteration, into [buffer + progress * blockSize]. *)
Definition read_into (buffer : list byte) (at_byte sector count : Z)
  : M (list byte) :=
  emit (ReadSectors sector count) ;;
  match store buffer at_byte (readSectors dev sector count) with
  | Some buffer' => ret buffer'
  | None => abort WindowFault
  end.

(** The [while (progress < num_blocks)] loop of [readData]. *)
Fixpoint readData_loop (fuel : nat) (offset num_blocks progress : Z)
    (buffer : list byte) : M (list byte) :=
  if progress <? num_blocks then
    match fuel with
    | O => abort Diverged
    | S fuel' =>
      issue <- issue_at (Word.u64 (offset + progress))
                 (num_blocks - progress) ;;
      assertion (negb (fst issue =? 0)) HoleEncountered ;;
      buffer' <- read_into buffer (Word.u64 (progress * blockSize g))
                   (sector_of (fst issue))
                   (Word.u64 (snd issue * sectorsPerBlock g)) ;;
      readData_loop fuel' offset num_blocks (progress + snd issue) buffer'
    end
  else ret buffer.

(** [FileSystem::readData(inode, offset, num_blocks, buffer)]: the value
    is the window behind [buffer] on return. *)
Definition readData (offset num_blocks : Z) (buffer : list byte)
  : M (list byte) :=
  emit AwaitReady ;;
  readData_loop (Z.to_nat num_blocks) offset num_blocks 0 buffer.

(** *** The mapping of section 4.4, in the words of the specification *)

Definition per_indirect : Z := blockSize g / 4.

Definition s_range : Z := 12 + per_indirect.

Definition d_range : Z := s_range + per_indirect * per_indirect.

(** One page-in unit of the indirect caches, the "page" of their slots. *)
Definition page : Z := 2 ^ blockPagesShift g.

(** Slot [slot] of a frontal handle, locked and mapped over one page. *)
Definition slot_of (content : Z -> Z -> Result (list byte)) (slot : Z)
  : Result (list byte) :=
  content (slot * page) page.

(** The range bucket of a logical block: direct, single or double
    indirect, or beyond. *)
Inductive Bucket := DirectBlocks | SingleIndirect | DoubleIndirect | Beyond.

Definition bucket_of (L : Z) : Bucket :=
  if L <? 12 then DirectBlocks
  else if L <? s_range then SingleIndirect
  else if L <? d_range then DoubleIndirect
  else Beyond.

(** The table that backs [L]: the direct array, the single-indirect page,
    or the leaf page [(L - s_range) / per_indirect] under the double
    indirect block. *)
Definition table_of (L : Z) : Result (list byte) :=
  match bucket_of L with
  | DirectBlocks => Done (direct inode)
  | SingleIndirect => slot_of indirectOrder1_content 0
  | DoubleIndirect =>
      slot_of indirectOrder2_content ((L - s_range) / per_indirect)
  | Beyond => Aborted TripleIndirect
  end.

(** The index of [L] in its table, and the number of entries of it. *)
Definition position_of (L : Z) : Z :=
  match bucket_of L with
  | DirectBlocks => L
  | SingleIndirect => L - 12
  | _ => (L - s_range) mod per_indirect
  end.

Definition limit_of (L : Z) : Z :=
  match bucket_of L with
  | DirectBlocks => 12
  | _ => per_indirect
  end.

(** The lock and the mapping that give access to the table of [L]. *)
Definition access_of (L : Z) : list Action :=
  match bucket_of L with
  | DirectBlocks | Beyond => []
  | SingleIndirect =>
      [LockMemory IndirectOrder1 0 page; MapMemory IndirectOrder1 0 page]
  | DoubleIndirect =>
      let first := (L - s_range) / per_indirect in
      [LockMemory IndirectOrder2 (first * page) page;
       MapMemory IndirectOrder2 (first * page) page]
  end.

(** The physical block of [L]: the entry of its table. *)
Definition physical_of (L : Z) : Result Z :=
  match table_of L with
  | Done table => Done (u32_at table (position_of L))
  | Aborted e => Aborted e
  end.

(** The device blocks that a trace reads, in order. *)
Definition blocks_read (a : Action) : list Z :=
  match a with
  | ReadSectors sector count =>
      zseq (sector / sectorsPerBlock g)
        (Z.to_nat (count / sectorsPerBlock g))
  | _ => []
  end.

Definition fetched (trace : list Action) : list Z :=
  flat_map blocks_read trace.

(** Section 4.4 for one block: its access path, its table entry, and the
    refusal of blocks beyond the double-indirect range and of holes. *)
Definition map_block (L : Z) : M Z :=
  (access_of L,
   match physical_of L with
   | Done P => if P =? 0 then Aborted HoleEncountered else Done P
   | Aborted e => Aborted e
   end).

(** The reader that property 5 of section 8 compares the mapper with: no
    fusion, one device read of one block for each of the blocks
    [offset + k], [k] taken from [blocks] in order, delivered at byte
    [k * blockSize] of the buffer. *)
Fixpoint blockwise (offset : Z) (blocks : list Z) (buffer : list byte)
  : M (list byte) :=
  match blocks with
  | [] => ret buffer
  | k :: rest =>
    P <- map_block (offset + k) ;;
    buffer' <- read_into buffer (k * blockSize g)
                 (P * sectorsPerBlock g) (sectorsPerBlock g) ;;
    blockwise offset rest buffer'
  end.

Definition readData_blockwise (offset num_blocks : Z) (buffer : list byte)
  : M (list byte) :=
  blockwise offset (zseq 0 (Z.to_nat num_blocks)) buffer.

(** The block pointer that slot [slot] of [indirectOrder1] caches. *)
Definition root_of (slot : Z) : Z :=
  if slot =? 0 then singleIndirect inode
  else if slot =? 1 then doubleIndirect inode
  else tripleIndirect inode.

(** The page of a cache slot after the load of [block]. *)
Definition cached (block : Z) : list byte :=
  fill page (readSectors dev (sector_of block) (sectorsPerBlock g)).

End Driver.

(** ** Runs, and the constraints of section 4.4 on them *)

(** A run [(first, n)] chosen at [index]: what the mapper issues there, and
    what the mapping of section 4.4 says of the blocks it covers. *)
Definition is_run (g : Geometry) (inode : Inode) (dev : Device)
    (index remaining first n : Z) : Prop :=
  issue_at g inode dev index remaining = (access_of g index, Done (first, n)) /\
  0 <= first < 2 ^ 32 /\
  1 <= n /\ (1 < n -> n <= remaining) /\
  index + n <= d_range g /\ n <= limit_of g index /\
  forall k, 0 <= k < n ->
    physical_of g inode dev (index + k) = Done (first + k) /\
    access_of g (index + k) = access_of g index.

(** The constraints of section 4.4 on a run of [n] blocks from [L]: each
    block of the run is in the range bucket of [L], the entries of the
    table of [L] are consecutive over the run, and the run stays below the
    end of that table. *)
Definition fusable (g : Geometry) (inode : Inode) (dev : Device)
    (L n : Z) : Prop :=
  forall k, 0 <= k < n ->
    bucket_of g (L + k) = bucket_of g L /\
    (exists table,
       table_of g inode dev L = Done table /\
       u32_at table (position_of g L + k)
       = u32_at table (position_of g L) + k) /\
    position_of g L + k < limit_of g L.

(** The run length of the specification as it is worded: the largest
    fusable length, whatever the request still asks for. *)
Definition largest_fusable (g : Geometry) (inode : Inode) (dev : Device)
    (L n : Z) : Prop :=
  1 <= n /\ fusable g inode dev L n /\
  forall m, fusable g inode dev L m -> m <= n.

(** ** The medium behind the block pointers, and the reads of a trace *)

(** The [uint32_t] that the medium holds at byte [a], little-endian. *)
Definition disk_u32 (dev : Device) (a : Z) : Z :=
  byte_val (dev a) + 2 ^ 8 * byte_val (dev (a + 1))
  + 2 ^ 16 * byte_val (dev (a + 2)) + 2 ^ 24 * byte_val (dev (a + 3)).

(** Entry [i] of the table of block pointers held by the block [block]. *)
Definition pointer_at (g : Geometry) (dev : Device) (block i : Z) : Z :=
  disk_u32 dev (block * blockSize g + 4 * i).

(** The device reads of a trace, in order: first sector and count. *)
Definition device_reads (trace : list Action) : list (Z * Z) :=
  flat_map (fun a => match a with
                     | ReadSectors sector count => [(sector, count)]
                     | _ => []
                     end) trace.

(** ** The inode initializer *)

(** The fields of the on-disk inode that [initiateInode] reads. *)
Record DiskInode := {
  di_mode : Z;
  di_size : Z;
  di_data : list byte;
  di_linksCount : Z;
  di_uid : Z;
  di_gid : Z;
  di_atime : Z;
  di_mtime : Z;
  di_ctime : Z
}.

(** [(fileSize + 0xFFF) & ~size_t(0xFFF)]: the size of the page cache and
    of its mappings. *)
Definition cache_size (fileSize : Z) : Z :=
  Z.land (fileSize + 0xFFF) (Z.lnot 0xFFF).

(** [3 << blockPagesShift] and [(blockSize / 4) << blockPagesShift]: the
    sizes of the two indirect caches. *)
Definition order1_size (g : Geometry) : Z := Z.shiftl 3 (blockPagesShift g).

Definition order2_size (g : Geometry) : Z :=
  Z.shiftl (blockSize g / 4) (blockPagesShift g).

Section Initializer.

(** The mode constants of ext2fs.hpp, which is not among the sources. *)
Variables EXT2_S_IFMT EXT2_S_IFREG EXT2_S_IFLNK EXT2_S_IFDIR : Z.

Variable g : Geometry.

(** [bgdt[block_group].inodeTable] *)
Variable inodeTable : Z -> Z.

(** The sector of the inode table that holds the inode [number]: the
    first lines of [initiateInode], in 32-bit arithmetic.  It is that of
    the code for [inodesPerGroup] other than zero, where the division and
    the remainder of the code are defined. *)
Definition inode_sector (number : Z) : Z :=
  let block_group := Word.u32 (Word.u32 (number - 1) / inodesPerGroup g) in
  let index := Word.u32 (Word.u32 (number - 1) mod inodesPerGroup g) in
  let offset := Word.u32 (index * inodeSize g) in
  let inode_table_block := inodeTable block_group in
  Word.u32 (inode_table_block * sectorsPerBlock g + offset / 512).

(** [FileSystem::initiateInode] for the inode [number], whose on-disk
    record, copied out of the sector read, is [disk_inode]. *)
Definition initiateInode (number : Z) (disk_inode : DiskInode) : M Inode :=
  let sector := inode_sector number in
  emit (ReadSectors sector 1) ;;
  type <-
    (if Z.land (di_mode disk_inode) EXT2_S_IFMT =? EXT2_S_IFREG
     then ret kTypeRegular
     else if Z.land (di_mode disk_inode) EXT2_S_IFMT =? EXT2_S_IFLNK
     then ret kTypeSymlink
     else if Z.land (di_mode disk_inode) EXT2_S_IFMT =? EXT2_S_IFDIR
     then ret kTypeDirectory
     else abort UnexpectedInodeType) ;;
  let inode :=
    {| number := number;
       fileType := type;
       fileSize := di_size disk_inode;
       fileData := di_data disk_inode;
       mode := Z.land (di_mode disk_inode) 0x0FFF;
       numLinks := di_linksCount disk_inode;
       uid := di_uid disk_inode;
       gid := di_gid disk_inode;
       accessTime := (di_atime disk_inode, 0);
       dataModifyTime := (di_mtime disk_inode, 0);
       anyChangeTime := (di_ctime disk_inode, 0) |} in
  emit (CreateManagedMemory (cache_size (fileSize inode))
          BackingMemory FrontalMemory) ;;
  emit RaiseReady ;;
  emit TriggerReady ;;
  emit (CreateManagedMemory (order1_size g) BackingOrder1 IndirectOrder1) ;;
  emit (CreateManagedMemory (order2_size g) BackingOrder2 IndirectOrder2) ;;
  emit (StoreHandle IndirectOrder1) ;;
  emit (StoreHandle IndirectOrder2) ;;
  emit (Spawn (ManageIndirect 1)) ;;
  emit (Spawn (ManageIndirect 2)) ;;
  emit (Spawn ManageFileData) ;;
  ret inode.

End Initializer.

(** *** The place of an inode on the medium *)

(** [uint32_t block_group = (inode->number - 1) / inodesPerGroup] *)
Definition inode_group (g : Geometry) (number : Z) : Z :=
  Word.u32 (Word.u32 (number - 1) / inodesPerGroup g).

(** [uint32_t offset = index * inodeSize]: the byte of the inode table of
    its group at which the record of the inode [number] starts.  The
    record is copied from byte [offset % 512] of the sector read. *)
Definition inode_offset (g : Geometry) (number : Z) : Z :=
  Word.u32 (Word.u32 (Word.u32 (number - 1) mod inodesPerGroup g)
            * inodeSize g).

(** *** The order of the actions of the initializer *)

Definition same_object (a b : MemObject) : bool :=
  match a, b with
  | BackingMemory, BackingMemory | FrontalMemory, FrontalMemory
  | BackingOrder1, BackingOrder1 | IndirectOrder1, IndirectOrder1
  | BackingOrder2, BackingOrder2 | IndirectOrder2, IndirectOrder2 => true
  | _, _ => false
  end.

(** The creation of the managed memory whose frontal handle is [frontal]. *)
Definition creates (frontal : MemObject) (a : Action) : bool :=
  match a with
  | CreateManagedMemory _ _ f => same_object f frontal
  | _ => false
  end.

Definition raises_ready (a : Action) : bool :=
  match a with
  | RaiseReady => true
  | _ => false
  end.

(** The index of the first action of a trace that satisfies [p]. *)
Fixpoint position (p : Action -> bool) (trace : list Action) : option nat :=
  match trace with
  | [] => None
  | a :: rest =>
    if p a then Some O
    else match position p rest with
         | Some i => Some (S i)
         | None => None
         end
  end.

(** Both kinds of action occur, the first [p] before the first [q]. *)
Definition happens_before (p q : Action -> bool) (trace : list Action)
  : Prop :=
  match position p trace, position q trace with
  | Some i, Some j => (i < j)%nat
  | _, _ => False
  end.

(** C4 as it is worded: the three managed memories are created before
    [isReady] is raised. *)
Definition all_caches_before_ready (trace : list Action) : Prop :=
  happens_before (creates FrontalMemory) raises_ready trace /\
  happens_before (creates IndirectOrder1) raises_ready trace /\
  happens_before (creates IndirectOrder2) raises_ready trace.

(** ** The cache of the inodes in use *)

(** An [Inode] object, named by the order of its construction. *)
Definition InodeRef := nat.

(** The state behind [FileSystem::accessInode]: [activeInodes], the weak
    pointer kept for each inode number, and for each [Inode] object made
    so far the number it was made for and whether a shared pointer still
    owns it. *)
Record InodeCache := {
  activeInodes : Z -> option InodeRef;
  inodes : list (Z * bool)
}.

Definition in_use (cache : InodeCache) (o : InodeRef) : bool :=
  match nth_error (inodes cache) o with
  | Some (_, owned) => owned
  | None => false
  end.

Definition number_of (cache : InodeCache) (o : InodeRef) : option Z :=
  option_map fst (nth_error (inodes cache) o).

(** [inode_slot.lock()]: the object of the slot, unless it has expired. *)
Definition lock_slot (cache : InodeCache) (number : Z) : option InodeRef :=
  match activeInodes cache number with
  | Some o => if in_use cache o then Some o else None
  | None => None
  end.

(** How [accessInode] returns. *)
Inductive Access :=
| Refused                        (* assert(number > 0) *)
| Active (inode : InodeRef)      (* the inode of the slot, still in use *)
| Initiated (inode : InodeRef).  (* a new inode, given to initiateInode *)

(** [FileSystem::accessInode(number)] *)
Definition accessInode (cache : InodeCache) (number : Z)
  : Access * InodeCache :=
  if 0 <? number then
    match lock_slot cache number with
    | Some active_inode => (Active active_inode, cache)
    | None =>
      let new_inode := length (inodes cache) in
      (Initiated new_inode,
       {| activeInodes := fun n => if n =? number then Some new_inode
                                   else activeInodes cache n;
          inodes := inodes cache ++ [(number, true)] |})
    end
  else (Refused, cache).

Fixpoint disown (l : list (Z * bool)) (o : InodeRef) : list (Z * bool) :=
  match l, o with
  | [], _ => []
  | (n, _) :: rest, O => (n, false) :: rest
  | x :: rest, S o' => x :: disown rest o'
  end.

(** The last shared pointer to [o] goes away: its callers and its page-in
    handlers are done with it. *)
Definition release (cache : InodeCache) (o : InodeRef) : InodeCache :=
  {| activeInodes := activeInodes cache;
     inodes := disown (inodes cache) o |}.

(** What happens to the cache: a call of [accessInode], or the release of
    an inode by its last owner. *)
Inductive Event :=
| Accessed (number : Z)
| Released (o : InodeRef).

Fixpoint replay (events : list Event) (cache : InodeCache) : InodeCache :=
  match events with
  | [] => cache
  | Accessed number :: rest => replay rest (snd (accessInode cache number))
  | Released o :: rest => replay rest (release cache o)
  end.

(** The cache of a filesystem that was just constructed. *)
Definition no_inodes : InodeCache :=
  {| activeInodes := fun _ => None; inodes := [] |}.

(** Every object in use is the one that the slot of its number names, and
    the slots name objects of their number. *)
Definition registered (c : InodeCache) : Prop :=
  (forall o n, in_use c o = true -> number_of c o = Some n ->
     activeInodes c n = Some o) /\
  (forall o n, activeInodes c n = Some o -> number_of c o = Some n).

(** ** The file-data page-in handler *)

Section FileHandler.

Variable g : Geometry.

Variable inode : Inode.

Variable dev : Device.

(** One iteration of [FileSystem::manageFileData], for the manage event
    [(offset, length)].  Modelled from the spec: the window mapped from
    the backing handle is fresh, and fresh pages are zero (section 4.5). *)
Definition manageFileData (offset length : Z) : M (list byte) :=
  assertion (Word.u64 (offset + length) <=? cache_size (fileSize inode))
    ManageOutOfRange ;;
  emit (MapMemory BackingMemory offset length) ;;
  let window := repeat x00 (Z.to_nat length) in
  let read_size := Z.min length (Word.u64 (fileSize inode - offset)) in
  let num_blocks := read_size / blockSize g in
  let num_blocks :=
    if negb (read_size mod blockSize g =? 0)
    then Word.u64 (num_blocks + 1) else num_blocks in
  assertion (offset mod blockSize g =? 0) BlockMisaligned ;;
  assertion (Word.u64 (num_blocks * blockSize g) <=? length)
    WindowTooSmall ;;
  window' <- readData g inode dev (offset / blockSize g) num_blocks window ;;
  emit (CompleteLoad BackingMemory offset length) ;;
  emit (UnmapMemory BackingMemory offset length) ;;
  ret window'.

End FileHandler.

(** ** The directory reader *)

(** The result of [findEntry]. *)
Record DirEntry := {
  entry_inode : Z;
  entry_fileType : FileType
}.

(** Modelled from the spec: [DiskDirEntry] is declared in ext2fs.hpp, which
    is not among the sources; section 3 gives its layout: the inode
    (32 bits), the record length (16 bits), the name length and the file
    type (8 bits each), then the name.  The entry lies at byte [offset] of
    the mapped [window]. *)
Definition disk_inode (window : list byte) (offset : Z) : Z :=
  le32 window offset.

Definition recordLength (window : list byte) (offset : Z) : Z :=
  le16 window (offset + 4).

Definition nameLength (window : list byte) (offset : Z) : Z :=
  load8 window (offset + 6).

Definition diskFileType (window : list byte) (offset : Z) : Z :=
  load8 window (offset + 7).

Definition disk_name (window : list byte) (offset : Z) : list byte :=
  skipn (Z.to_nat (offset + 8)) window.

Definition sizeof_DiskDirEntry : Z := 8.

(** [strncmp(s1, s2, n) == 0]: the first [n] characters agree, or the
    strings agree up to a NUL before that. *)
Fixpoint strncmp_zero (s1 s2 : list byte) (n : nat) : bool :=
  match n with
  | O => true
  | S n' =>
    if Byte.eqb (hd x00 s1) (hd x00 s2) then
      if Byte.eqb (hd x00 s1) x00 then true
      else strncmp_zero (tl s1) (tl s2) n'
    else false
  end.

(** [name.c_str()] *)
Definition c_str (name : list byte) : list byte := name ++ [x00].

(** [std::string(disk_entry->name, disk_entry->nameLength)], for a name
    that lies within the window. *)
Definition name_of (window : list byte) (offset : Z) : list byte :=
  firstn (Z.to_nat (nameLength window offset)) (disk_name window offset).

Definition dot : list byte := ["."%byte].

Definition dotdot : list byte := ["."%byte; "."%byte].

Definition bytes_eq_dec : forall a b : list byte, {a = b} + {a <> b} :=
  list_eq_dec Byte.byte_eq_dec.

(** How the walk of [findEntry] leaves its loop. *)
Inductive Walk :=
| Found (entry : DirEntry)
| Finished (offset : Z)
| Endless.

Section Directory.

(** The file type constants of ext2fs.hpp, which is not among the
    sources. *)
Variables EXT2_FT_REG_FILE EXT2_FT_DIR EXT2_FT_SYMLINK : Z.

(** The [switch] on [disk_entry->fileType]. *)
Definition entry_type (type : Z) : FileType :=
  if type =? EXT2_FT_REG_FILE then kTypeRegular
  else if type =? EXT2_FT_DIR then kTypeDirectory
  else if type =? EXT2_FT_SYMLINK then kTypeSymlink
  else kTypeNone.

(** The comparison of [findEntry] at one entry. *)
Definition name_test (window : list byte) (offset : Z) (name : list byte)
  : bool :=
  (Z.of_nat (length name) =? nameLength window offset)
  && strncmp_zero (disk_name window offset) (c_str name)
       (Z.to_nat (nameLength window offset)).

(** The [while (offset < fileSize)] loop of [Inode::findEntry]. *)
Fixpoint findEntry_walk (fuel : nat) (window : list byte) (fileSize : Z)
    (name : list byte) (offset : Z) : Walk :=
  if offset <? fileSize then
    match fuel with
    | O => Endless
    | S fuel' =>
      if name_test window offset name then
        Found {| entry_inode := disk_inode window offset;
                 entry_fileType := entry_type (diskFileType window offset) |}
      else
        findEntry_walk fuel' window fileSize name
          (offset + recordLength window offset)
    end
  else Finished offset.

(** [Inode::findEntry(name)] on the directory whose page cache, locked and
    mapped, is [window].  A walk that does not end within
    [fileSize + 1] iterations has met a record of length zero and never
    ends. *)
Definition findEntry (inode : Inode) (window : list byte) (name : list byte)
  : M (option DirEntry) :=
  assertion (negb (if bytes_eq_dec name [] then true else false)
             && negb (if bytes_eq_dec name dot then true else false)
             && negb (if bytes_eq_dec name dotdot then true else false))
    NameRejected ;;
  emit AwaitReady ;;
  let map_size := cache_size (fileSize inode) in
  emit (LockMemory FrontalMemory 0 map_size) ;;
  emit (MapMemory FrontalMemory 0 map_size) ;;
  match findEntry_walk (S (Z.to_nat (fileSize inode))) window
          (fileSize inode) name 0 with
  | Found entry => ret (Some entry)
  | Finished offset =>
      assertion (offset =? fileSize inode) DirectoryOverrun ;;
      ret None
  | Endless => abort Diverged
  end.

End Directory.

(** [OpenFile::readEntries()] with the cursor at [offset]: the name
    returned, if any, and the cursor afterwards. *)
Definition readEntries (inode : Inode) (window : list byte) (offset : Z)
  : M (option (list byte) * Z) :=
  emit AwaitReady ;;
  assertion (offset <=? fileSize inode) CursorPastEnd ;;
  if offset =? fileSize inode then ret (None, offset)
  else
    let map_size := cache_size (fileSize inode) in
    emit (LockMemory FrontalMemory 0 map_size) ;;
    emit (MapMemory FrontalMemory 0 map_size) ;;
    assertion (offset + sizeof_DiskDirEntry <=? fileSize inode)
      EntryHeaderPastEnd ;;
    assertion (offset + recordLength window offset <=? fileSize inode)
      RecordPastEnd ;;
    ret (Some (name_of window offset), offset + recordLength window offset).

(** [count] successive calls of [readEntries] on one cursor: the names
    returned, up to the first absent one, and the cursor at the end. *)
Fixpoint read_names (count : nat) (inode : Inode) (window : list byte)
    (offset : Z) : M (list (list byte) * Z) :=
  match count with
  | O => ret ([], offset)
  | S count' =>
    r <- readEntries inode window offset ;;
    match fst r with
    | Some name =>
      rest <- read_names count' inode window (snd r) ;;
      ret (name :: fst rest, snd rest)
    | None => ret ([], snd r)
    end
  end.

(** The entry at [offset] lies wholly within the file. *)
Definition entry_within (window : list byte) (fileSize offset : Z) : Prop :=
  0 <= offset /\
  offset + sizeof_DiskDirEntry + nameLength window offset <= fileSize.

(** [offsets] are the entries met from [offset] on, each one record
    length behind the one before, the last one ending at [fileSize]. *)
Fixpoint entries_from (window : list byte) (fileSize offset : Z)
    (offsets : list Z) : Prop :=
  match offsets with
  | [] => offset = fileSize
  | o :: rest =>
    o = offset /\ entry_within window fileSize o /\
    entries_from window fileSize (offset + recordLength window offset) rest
  end.

(** A directory of [fileSize] bytes whose entries lie at [offsets];
    [window] is the mapping of its page cache, of [map_size] bytes. *)
Definition well_formed (window : list byte) (fileSize : Z)
    (offsets : list Z) : Prop :=
  Z.of_nat (length window) = cache_size fileSize /\
  entries_from window fileSize 0 offsets.

(** The entry at [offset] has the name [name]: the same length, the same
    bytes. *)
Definition named (window : list byte) (offset : Z) (name : list byte)
  : Prop :=
  nameLength window offset = Z.of_nat (length name) /\
  name_of window offset = name.

(** The entry at [offset], its header and its name, lies within the
    mapping [window]: the reads of the code at this entry are reads of
    the window. *)
Definition entry_mapped (window : list byte) (offset : Z) : Prop :=
  0 <= offset /\
  offset + sizeof_DiskDirEntry + nameLength window offset
  <= Z.of_nat (length window).

(** The offsets at which the loop of [findEntry] runs its body, in the
    order of the walk. *)
Fixpoint findEntry_visits (fuel : nat) (window : list byte) (fileSize : Z)
    (name : list byte) (offset : Z) : list Z :=
  if offset <? fileSize then
    match fuel with
    | O => []
    | S fuel' =>
      offset ::
      (if name_test window offset name then []
       else findEntry_visits fuel' window fileSize name
              (offset + recordLength window offset))
    end
  else [].

(** ** The scenarios of section 8 *)

Module Scenario.

Definition byte_of (z : Z) : byte :=
  match Byte.of_N (Z.to_N (z mod 256)) with
  | Some b => b
  | None => x00
  end.

(** The little-endian bytes of a block pointer, and a pointer table. *)
Definition bytes_of_u32 (v : Z) : list byte :=
  [byte_of v; byte_of (v / 2 ^ 8); byte_of (v / 2 ^ 16); byte_of (v / 2 ^ 24)].

Definition table (pointers : list Z) : list byte :=
  flat_map bytes_of_u32 pointers.

(** A filesystem of 1 KiB blocks. *)
Definition superblock : DiskSuperblock :=
  {| sb_magic := 0xEF53; sb_inodeSize := 128; sb_logBlockSize := 0;
     sb_blocksCount := 8192; sb_blocksPerGroup := 8192;
     sb_inodesPerGroup := 2048 |}.

Definition geometry : Geometry :=
  {| inodeSize := 128; blockShift := 10; blockSize := 1024;
     blockPagesShift := 12; sectorsPerBlock := 2; numBlockGroups := 1;
     inodesPerGroup := 2048 |}.

(** A medium on which every byte of block [b] is [b mod 256]. *)
Definition medium : Device := fun a => byte_of (a / 1024).

(** S2: file F, inode 12, of 5000 bytes in the blocks 100 to 104. *)
Definition fileF : Inode :=
  {| number := 12; fileType := kTypeRegular; fileSize := 5000;
     fileData := table [100; 101; 102; 103; 104; 0; 0; 0; 0; 0; 0; 0;
                        0; 0; 0];
     mode := 0x1A4; numLinks := 1; uid := 0; gid := 0;
     accessTime := (0, 0); dataModifyTime := (0, 0);
     anyChangeTime := (0, 0) |}.

Definition window (length : Z) : list byte := repeat x00 (Z.to_nat length).

(** The four blocks that the first page of F is read from. *)
Definition first_page_of_F : list byte :=
  flat_map (fun b => repeat (byte_of b) 1024) [100; 101; 102; 103].

(** A file with indirect blocks: the single-indirect block is block 7,
    the double-indirect block is block 8. *)
Definition fileH : Inode :=
  {| number := 14; fileType := kTypeRegular; fileSize := 400000;
     fileData := table [50; 51; 52; 53; 54; 55; 56; 57; 58; 59; 60; 61;
                        7; 8; 0];
     mode := 0x1A4; numLinks := 1; uid := 0; gid := 0;
     accessTime := (0, 0); dataModifyTime := (0, 0);
     anyChangeTime := (0, 0) |}.

(** Block 7 points to the blocks 200 to 455, block 8 to the leaves 300 to
    555, and the leaf 300 to the blocks 1000 to 1255. *)
Definition block7 : list byte := Eval vm_compute in table (zseq 200 256).

Definition block8 : list byte := Eval vm_compute in table (zseq 300 256).

Definition block300 : list byte := Eval vm_compute in table (zseq 1000 256).

Definition mediumH : Device :=
  fun a =>
    let block := a / 1024 in
    let at_byte := Z.to_nat (a mod 1024) in
    if block =? 7 then nth at_byte block7 x00
    else if block =? 8 then nth at_byte block8 x00
    else if block =? 300 then nth at_byte block300 x00
    else byte_of block.

(** The on-disk bytes of a directory entry. *)
Definition dir_entry (inode record_length type : Z) (name : list byte)
  : list byte :=
  bytes_of_u32 inode
  ++ [byte_of record_length; byte_of (record_length / 2 ^ 8);
      byte_of (Z.of_nat (length name)); byte_of type]
  ++ name
  ++ repeat x00 (Z.to_nat record_length - 8 - length name).

Definition hello : list byte := ["h"; "e"; "l"; "l"; "o"]%byte.

Definition world : list byte := ["w"; "o"; "r"; "l"; "d"]%byte.

(** S1 and S4: a root directory of 1024 bytes with the record lengths 12,
    12, 16 and 984, mapped over one page. *)
Definition root_window : list byte :=
  Eval vm_compute in
    dir_entry 2 12 2 dot ++ dir_entry 2 12 2 dotdot
    ++ dir_entry 12 16 1 hello ++ dir_entry 13 984 1 world
    ++ repeat x00 3072.

Definition root : Inode :=
  {| number := 2; fileType := kTypeDirectory; fileSize := 1024;
     fileData := table [70; 0; 0; 0; 0; 0; 0; 0; 0; 0; 0; 0; 0; 0; 0];
     mode := 0x1ED; numLinks := 2; uid := 0; gid := 0;
     accessTime := (0, 0); dataModifyTime := (0, 0);
     anyChangeTime := (0, 0) |}.

Definition root_offsets : list Z := [0; 12; 24; 40].

(** A directory of one entry whose name holds a NUL byte. *)
Definition odd_name : list byte := ["a"; x00; "c"]%byte.

Definition asked_name : list byte := ["a"; x00; "b"]%byte.

Definition odd_window : list byte :=
  Eval vm_compute in dir_entry 5 12 1 odd_name ++ repeat x00 4084.

Definition odd_directory : Inode :=
  {| number := 3; fileType := kTypeDirectory; fileSize := 12;
     fileData := table [71; 0; 0; 0; 0; 0; 0; 0; 0; 0; 0; 0; 0; 0; 0];
     mode := 0x1ED; numLinks := 2; uid := 0; gid := 0;
     accessTime := (0, 0); dataModifyTime := (0, 0);
     anyChangeTime := (0, 0) |}.

(** The on-disk inode of the root directory, with the mode constants of
    the format. *)
Definition root_on_disk : DiskInode :=
  {| di_mode := 0x41ED; di_size := 1024;
     di_data := table [70; 0; 0; 0; 0; 0; 0; 0; 0; 0; 0; 0; 0; 0; 0];
     di_linksCount := 2; di_uid := 0; di_gid := 0;
     di_atime := 0; di_mtime := 0; di_ctime := 0 |}.

Definition inode_table : Z -> Z := fun _ => 5.

(** A filesystem of 8 KiB blocks. *)
Definition geometry8k : Geometry :=
  {| inodeSize := 128; blockShift := 13; blockSize := 8192;
     blockPagesShift := 13; sectorsPerBlock := 16; numBlockGroups := 1;
     inodesPerGroup := 2048 |}.

(** A name of 256 bytes. *)
Definition long_name : list byte := repeat "a"%byte 256.

(** A directory of 16 bytes whose only record has the length zero. *)
Definition stuck_window : list byte :=
  Eval vm_compute in dir_entry 5 0 1 hello ++ repeat x00 4083.

Definition stuck_directory : Inode :=
  {| number := 4; fileType := kTypeDirectory; fileSize := 16;
     fileData := table [72; 0; 0; 0; 0; 0; 0; 0; 0; 0; 0; 0; 0; 0; 0];
     mode := 0x1ED; numLinks := 2; uid := 0; gid := 0;
     accessTime := (0, 0); dataModifyTime := (0, 0);
     anyChangeTime := (0, 0) |}.

End Scenario.

(** * Part II: facts about the driver *)

(** ** Integers, bytes, sequences and windows *)

Module WordFacts.

Import Word.

Lemma wrap_small w x : 0 <= x < 2 ^ w -> wrap w x = x.
Proof. intros H. unfold wrap. now apply Z.mod_small. Qed.

Lemma u32_small x : 0 <= x < 2 ^ 32 -> u32 x = x.
Proof. apply wrap_small. Qed.

Lemma u64_small x : 0 <= x < 2 ^ 64 -> u64 x = x.
Proof. apply wrap_small. Qed.

End WordFacts.

Lemma byte_val_range b : 0 <= byte_val b < 256.
Proof.
  unfold byte_val. pose proof (Byte.to_N_bounded b). lia.
Qed.

Lemma load8_range m a : 0 <= load8 m a < 256.
Proof. apply byte_val_range. Qed.

Lemma le32_range m a : 0 <= le32 m a < 2 ^ 32.
Proof.
  unfold le32.
  pose proof (load8_range m a). pose proof (load8_range m (a + 1)).
  pose proof (load8_range m (a + 2)). pose proof (load8_range m (a + 3)).
  change (2 ^ 8) with 256. change (2 ^ 16) with 65536.
  change (2 ^ 24) with 16777216. change (2 ^ 32) with 4294967296. lia.
Qed.

Lemma u32_at_range m i : 0 <= u32_at m i < 2 ^ 32.
Proof. apply le32_range. Qed.

Lemma zseq_length a n : length (zseq a n) = n.
Proof. unfold zseq. now rewrite length_map, length_seq. Qed.

Lemma zseq_S a n : zseq a (S n) = a :: zseq (a + 1) n.
Proof.
  unfold zseq. simpl. rewrite Z.add_0_r. f_equal.
  rewrite <- seq_shift, map_map. apply map_ext. intros i. lia.
Qed.

Lemma zseq_app a n m :
  zseq a (n + m) = zseq a n ++ zseq (a + Z.of_nat n) m.
Proof.
  revert a. induction n as [|n IH]; intros a.
  - simpl. now rewrite Z.add_0_r.
  - change (S n + m)%nat with (S (n + m)). rewrite !zseq_S, IH. simpl.
    do 3 f_equal. lia.
Qed.

Lemma zseq_nth a n k d :
  (k < n)%nat -> nth k (zseq a n) d = a + Z.of_nat k.
Proof.
  revert a k. induction n as [|n IH]; intros a k H; [lia|].
  rewrite zseq_S. destruct k as [|k]; simpl; [lia|].
  rewrite IH by lia. lia.
Qed.

Lemma readSectors_length dev s c :
  length (readSectors dev s c) = Z.to_nat (c * 512).
Proof. unfold readSectors. now rewrite length_map, zseq_length. Qed.

Lemma readSectors_app dev s c1 c2 :
  0 <= c1 -> 0 <= c2 ->
  readSectors dev s (c1 + c2)
  = readSectors dev s c1 ++ readSectors dev (s + c1) c2.
Proof.
  intros H1 H2. unfold readSectors.
  replace (Z.to_nat ((c1 + c2) * 512))
    with (Z.to_nat (c1 * 512) + Z.to_nat (c2 * 512))%nat by lia.
  rewrite zseq_app, map_app. do 3 f_equal. lia.
Qed.

Lemma store_length buf off data buf' :
  store buf off data = Some buf' -> length buf' = length buf.
Proof.
  unfold store. destruct (_ && _) eqn:E; [|discriminate].
  intros [= <-]. apply andb_true_iff in E. destruct E as [E1 E2].
  rewrite !length_app, length_firstn, length_skipn. lia.
Qed.

Lemma store_app buf off d1 d2 :
  store buf off (d1 ++ d2)
  = match store buf off d1 with
    | Some b1 => store b1 (off + Z.of_nat (length d1)) d2
    | None => None
    end.
Proof.
  destruct (store buf off d1) as [b1|] eqn:E1.
  - pose proof (store_length _ _ _ _ E1) as Hl.
    unfold store in *. rewrite Hl, length_app.
    destruct (Z.leb_spec 0 off) as [C0|C0]; simpl in *; [|discriminate].
    destruct (Z.leb_spec (off + Z.of_nat (length d1)) (Z.of_nat (length buf)))
      as [C1|C1]; [|discriminate].
    injection E1 as <-.
    destruct (Z.leb_spec 0 (off + Z.of_nat (length d1))); [|lia]. simpl.
    destruct (Z.leb_spec (off + Z.of_nat (length d1 + length d2))
                (Z.of_nat (length buf))) as [C2|C2];
      destruct (Z.leb_spec (off + Z.of_nat (length d1) + Z.of_nat (length d2))
                  (Z.of_nat (length buf))) as [C3|C3]; try lia;
      [|reflexivity].
    f_equal.
    assert (Hf : length (firstn (Z.to_nat off) buf) = Z.to_nat off)
      by (rewrite length_firstn; lia).
    replace (Z.to_nat (off + Z.of_nat (length d1)))
      with (length (firstn (Z.to_nat off) buf ++ d1))
      by (rewrite length_app; lia).
    rewrite (app_assoc (firstn _ buf) d1 (skipn _ buf)).
    rewrite firstn_app, Nat.sub_diag, firstn_all. simpl. rewrite app_nil_r.
    rewrite <- !app_assoc. do 3 f_equal.
    rewrite length_app, Hf, skipn_app, Hf.
    rewrite (skipn_all2 (firstn _ buf)) by lia. simpl.
    rewrite skipn_app, (skipn_all2 d1) by lia. simpl.
    rewrite skipn_skipn. f_equal. lia.
  - unfold store in *. rewrite length_app.
    destruct (Z.leb_spec 0 off) as [C0|C0]; simpl in *; [|reflexivity].
    destruct (Z.leb_spec (off + Z.of_nat (length d1)) (Z.of_nat (length buf)))
      as [C1|C1]; [discriminate|].
    destruct (Z.leb_spec (off + Z.of_nat (length d1 + length d2))
                (Z.of_nat (length buf))) as [C2|C2]; [lia|reflexivity].
Qed.

(** ** Geometry *)

Lemma geometry_of_valid sb g :
  geometry_of sb = Done g -> 0 <= sb_logBlockSize sb <= 6 -> valid_geometry g.
Proof.
  unfold geometry_of. destruct (_ =? _); [|discriminate].
  intros E H.
  apply (f_equal (fun r => match r with Done x => x | Aborted _ => g end)) in E.
  subst g. unfold valid_geometry.
  cbn [blockShift blockSize blockPagesShift sectorsPerBlock].
  split; [lia|]. split; [|split; [|reflexivity]].
  - rewrite Z.shiftl_mul_pow2 by lia. rewrite Z.pow_add_r by lia. reflexivity.
  - unfold pageShift. destruct (Z.ltb_spec (10 + sb_logBlockSize sb) 12); lia.
Qed.

Section GeometryFacts.

Variable g : Geometry.

Hypothesis Hg : valid_geometry g.

Lemma blockShift_range : 10 <= blockShift g <= 16.
Proof. apply Hg. Qed.

Lemma blockPagesShift_range : 12 <= blockPagesShift g <= 16.
Proof. destruct Hg as (? & ? & -> & ?). lia. Qed.

Lemma blockSize_pow : blockSize g = 2 ^ blockShift g.
Proof. apply Hg. Qed.

Lemma blockSize_pos : 1024 <= blockSize g.
Proof.
  rewrite blockSize_pow. change 1024 with (2 ^ 10).
  apply Z.pow_le_mono_r; destruct Hg; lia.
Qed.

Lemma blockSize_split : blockSize g = 512 * 2 ^ (blockShift g - 9).
Proof.
  rewrite blockSize_pow. change 512 with (2 ^ 9).
  rewrite <- Z.pow_add_r by (destruct Hg; lia). f_equal. lia.
Qed.

Lemma sectorsPerBlock_pow : sectorsPerBlock g = 2 ^ (blockShift g - 9).
Proof.
  destruct Hg as (? & ? & ? & ->). rewrite blockSize_split.
  rewrite Z.mul_comm, Z.div_mul; lia.
Qed.

Lemma sectorsPerBlock_bytes : sectorsPerBlock g * 512 = blockSize g.
Proof. rewrite sectorsPerBlock_pow, blockSize_split. lia. Qed.

Lemma sectorsPerBlock_pos : 2 <= sectorsPerBlock g.
Proof.
  rewrite sectorsPerBlock_pow. change 2 with (2 ^ 1) at 1.
  apply Z.pow_le_mono_r; destruct Hg; lia.
Qed.

Lemma per_indirect_pow : blockSize g / 4 = 2 ^ (blockShift g - 2).
Proof.
  rewrite blockSize_pow.
  replace (blockShift g) with (2 + (blockShift g - 2)) at 1 by lia.
  rewrite Z.pow_add_r by (destruct Hg; lia).
  change (2 ^ 2) with 4. rewrite Z.mul_comm, Z.div_mul; lia.
Qed.

Lemma per_indirect_range : 256 <= blockSize g / 4 <= 16384.
Proof.
  rewrite per_indirect_pow. change 256 with (2 ^ 8).
  change 16384 with (2 ^ 14).
  split; apply Z.pow_le_mono_r; destruct Hg; lia.
Qed.

Lemma page_unit_pow : Z.shiftl 1 (blockPagesShift g) = 2 ^ blockPagesShift g.
Proof.
  rewrite Z.shiftl_mul_pow2 by (pose proof blockPagesShift_range; lia). lia.
Qed.

End GeometryFacts.

(** ** The task monad *)

Lemma bind_ret_l {A B} (a : A) (k : A -> M B) : bind (ret a) k = k a.
Proof. unfold bind, ret. now destruct (k a). Qed.

Lemma bind_assoc {A B C} (m : M A) (k : A -> M B) (h : B -> M C) :
  bind (bind m k) h = bind m (fun a => bind (k a) h).
Proof.
  destruct m as [t [a|e]]; unfold bind; [|reflexivity].
  destruct (k a) as [t' [b|e']]; [|reflexivity].
  destruct (h b) as [t'' r]. now rewrite app_assoc.
Qed.

Lemma bind_ext {A B} (m : M A) (k k' : A -> M B) :
  (forall a, k a = k' a) -> bind m k = bind m k'.
Proof.
  intros H. destruct m as [t [a|e]]; unfold bind; [|reflexivity].
  now rewrite H.
Qed.

Lemma snd_bind {A B} (m : M A) (k : A -> M B) :
  snd (bind m k)
  = match snd m with Done a => snd (k a) | Aborted e => Aborted e end.
Proof.
  destruct m as [t [a|e]]; unfold bind; simpl; [|reflexivity].
  now destruct (k a).
Qed.

(** ** Read fusion *)

Module FusionFacts.

Import Fusion.

Lemma scan_spec fuel index remaining list limit n :
  0 <= n -> limit <= 2 ^ 32 -> 0 <= index ->
  (Z.to_nat (remaining - n) < fuel)%nat ->
  contiguous list index n ->
  let r := scan fuel index remaining list limit n in
  n <= r /\ contiguous list index r /\
  stopped index remaining list limit r /\
  (n < r -> r <= remaining /\ index + r <= limit).
Proof.
  revert n. induction fuel as [|fuel IH]; intros n Hn Hlim Hidx Hfuel Hc;
    [lia|]. cbn zeta. simpl scan.
  destruct (Z.ltb_spec n remaining) as [C1|C1]; simpl.
  2:{ repeat split; try lia; try assumption. left. lia. }
  destruct (Z.ltb_spec (index + n) limit) as [C2|C2]; simpl.
  2:{ repeat split; try lia; try assumption. right. left. lia. }
  pose proof (u32_at_range list index) as Hr.
  rewrite WordFacts.u64_small by (change (2 ^ 64) with (2 ^ 32 * 2 ^ 32); nia).
  destruct (Z.eqb_spec (u32_at list (index + n)) (u32_at list index + n))
    as [C3|C3]; simpl.
  2:{ repeat split; try lia; try assumption. right. right. assumption. }
  assert (Hc' : contiguous list index (n + 1)).
  { intros k Hk. destruct (Z.eq_dec k n) as [->|]; [assumption|].
    apply Hc. lia. }
  specialize (IH (n + 1)). cbn zeta in IH.
  destruct IH as (I1 & I2 & I3 & I4); try lia; try assumption.
  split; [lia|]. split; [assumption|]. split; [assumption|].
  intros _.
  destruct (Z.eq_dec (scan fuel index remaining list limit (n + 1))
              (n + 1)) as [E|E]; [rewrite E; lia | apply I4; lia].
Qed.

(** What [fuse] returns: the entry at [index], and a count that is at
    least one, stays within [remaining] and [limit] once it exceeds one,
    covers consecutive blocks only, and stopped for one of three
    reasons. *)
Lemma fuse_spec index remaining list limit :
  0 <= index -> limit <= 2 ^ 32 ->
  let '(first, n) := fuse index remaining list limit in
  first = u32_at list index /\ 1 <= n /\
  contiguous list index n /\
  stopped index remaining list limit n /\
  (1 < n -> n <= remaining /\ index + n <= limit).
Proof.
  intros Hidx Hlim. unfold fuse.
  destruct (Z.le_gt_cases remaining 1) as [Hrem|Hrem].
  - assert (E : scan (Z.to_nat remaining) index remaining list limit 1 = 1).
    { destruct (Z.to_nat remaining) as [|f]; [reflexivity|]. simpl.
      destruct (Z.ltb_spec 1 remaining); [lia|reflexivity]. }
    rewrite E. repeat split; try lia.
    + intros k Hk. replace k with 0 by lia. now rewrite !Z.add_0_r.
    + left. assumption.
  - pose proof (scan_spec (Z.to_nat remaining) index remaining list limit 1)
      as H. cbn zeta in H.
    destruct H as (H1 & H2 & H3 & H4); try lia.
    + intros k Hk. replace k with 0 by lia. now rewrite !Z.add_0_r.
    + repeat split; try assumption; apply H4; assumption.
Qed.

End FusionFacts.

(** ** Shifts and masks as division and remainder *)

Lemma mask_mod a n : 0 <= n -> Z.land a (Z.shiftl 1 n - 1) = a mod 2 ^ n.
Proof.
  intros H. rewrite Z.shiftl_mul_pow2, Z.mul_1_l by assumption.
  rewrite <- Z.land_ones by assumption. f_equal.
  rewrite Z.ones_equiv. lia.
Qed.

Lemma shiftr_div a n : 0 <= n -> Z.shiftr a n = a / 2 ^ n.
Proof. apply Z.shiftr_div_pow2. Qed.

Lemma shiftl_mul a n : 0 <= n -> Z.shiftl a n = a * 2 ^ n.
Proof. apply Z.shiftl_mul_pow2. Qed.

(** ** The loader of the superblock and of the group descriptors *)

Lemma round_down_pow2 x k :
  0 <= k -> Z.land x (Z.lnot (2 ^ k - 1)) = 2 ^ k * (x / 2 ^ k).
Proof.
  intros H. rewrite <- Z.ldiff_land.
  replace (2 ^ k - 1) with (Z.ones k) by (rewrite Z.ones_equiv; lia).
  rewrite Z.ldiff_ones_r by lia.
  rewrite Z.shiftr_div_pow2, Z.shiftl_mul_pow2 by lia. lia.
Qed.

Lemma geometry_of_fields sb g :
  geometry_of sb = Done g ->
  sb_magic sb = 0xEF53 /\
  blockShift g = 10 + sb_logBlockSize sb /\
  blockSize g = Z.shiftl 1024 (sb_logBlockSize sb) /\
  numBlockGroups g = sb_blocksCount sb / sb_blocksPerGroup sb /\
  inodeSize g = sb_inodeSize sb /\
  inodesPerGroup g = sb_inodesPerGroup sb.
Proof.
  unfold geometry_of.
  destruct (Z.eqb_spec (sb_magic sb) 0xEF53); [|discriminate].
  intros E.
  apply (f_equal (fun r => match r with Done x => x | Aborted _ => g end)) in E.
  subst g. cbn. repeat split; try reflexivity. assumption.
Qed.

(** X1. When [init] returns on a superblock whose block size is one of
    those of the format (1 KiB to 64 KiB), the magic was 0xEF53 and the
    geometry it derived is consistent: the block size is
    [1024 * 2 ^ logBlockSize], a block is a whole number of sectors, the
    page-in unit of the indirect caches is the larger of the page and the
    block, and the number of block groups is the number of whole groups
    among the blocks: a last group that is not full is not counted. *)
Theorem loader_derives_geometry :
  forall sizeof_DiskGroupDesc sb g,
    snd (init sizeof_DiskGroupDesc sb) = Done g ->
    0 <= sb_logBlockSize sb <= 6 ->
    0 <= sb_blocksCount sb -> 0 < sb_blocksPerGroup sb ->
    sb_magic sb = 0xEF53 /\
    valid_geometry g /\
    blockSize g = 1024 * 2 ^ sb_logBlockSize sb /\
    sectorsPerBlock g * 512 = blockSize g /\
    2 ^ blockPagesShift g = Z.max pageSize (blockSize g) /\
    numBlockGroups g * sb_blocksPerGroup sb <= sb_blocksCount sb
      < (numBlockGroups g + 1) * sb_blocksPerGroup sb.
Proof.
  intros S sb g H Hlog Hc Hp.
  unfold init in H. rewrite !snd_bind in H. cbn [snd emit lift] in H.
  destruct (geometry_of sb) as [g'|e] eqn:E; [|discriminate].
  rewrite !snd_bind in H. cbn [snd emit ret] in H. injection H as ->.
  pose proof (geometry_of_valid sb g E Hlog) as Hg.
  destruct (geometry_of_fields sb g E) as (Hm & Hs & Hb & Hn & _).
  split; [assumption|]. split; [assumption|].
  split; [rewrite Hb; now apply Z.shiftl_mul_pow2|].
  split; [apply (sectorsPerBlock_bytes g Hg)|].
  split.
  - destruct Hg as (Hr & Hbs & Hps & _). rewrite Hps, Hbs.
    change pageSize with (2 ^ 12).
    destruct (Z.max_spec (blockShift g) 12) as [[? ->]|[? ->]];
      [rewrite Z.max_l; [reflexivity|apply Z.pow_le_mono_r; lia]
      |rewrite Z.max_r; [reflexivity|apply Z.pow_le_mono_r; lia]].
  - rewrite Hn.
    pose proof (Z.div_mod (sb_blocksCount sb) (sb_blocksPerGroup sb) ltac:(lia)).
    pose proof (Z.mod_pos_bound (sb_blocksCount sb) (sb_blocksPerGroup sb) Hp).
    nia.
Qed.

(** X2. On a superblock whose [blocksPerGroup] is not zero, [init] reads
    the two sectors of the superblock at sector 2; on a wrong magic it
    stops there.  Otherwise it reads the group descriptors
    in one more read, which starts at the first block boundary at or
    behind byte 2048 (sector 4 for blocks of 1 KiB or 2 KiB, the second
    block for larger ones) and covers the descriptors of all counted
    groups, rounded up to whole sectors. *)
Theorem loader_reads_descriptors_behind_superblock :
  forall sizeof_DiskGroupDesc sb,
    0 <= sb_logBlockSize sb <= 6 ->
    0 < sb_blocksPerGroup sb ->
    0 <= sb_blocksCount sb / sb_blocksPerGroup sb * sizeof_DiskGroupDesc
      < 2 ^ 63 ->
    match geometry_of sb with
    | Done g =>
        init sizeof_DiskGroupDesc sb
        = ([ReadSectors 2 2;
            ReadSectors (Z.max 2048 (blockSize g) / 512)
              ((numBlockGroups g * sizeof_DiskGroupDesc + 511) / 512)],
           Done g)
    | Aborted e =>
        e = BadMagic /\
        init sizeof_DiskGroupDesc sb = ([ReadSectors 2 2], Aborted BadMagic)
    end.
Proof.
  intros S sb Hlog _ Hn. unfold init, geometry_of.
  destruct (sb_magic sb =? 0xEF53); [|now split].
  unfold bind, emit, lift, ret. cbn [app].
  unfold bgdt_size, bgdt_offset.
  cbn [blockSize blockShift sectorsPerBlock numBlockGroups].
  do 2 f_equal. f_equal. f_equal.
  - assert (C : sb_logBlockSize sb = 0 \/ sb_logBlockSize sb = 1 \/
                sb_logBlockSize sb = 2 \/ sb_logBlockSize sb = 3 \/
                sb_logBlockSize sb = 4 \/ sb_logBlockSize sb = 5 \/
                sb_logBlockSize sb = 6) by lia.
    destruct C as [->|[->|[->|[->|[->|[->| ->]]]]]]; reflexivity.
  - rewrite (WordFacts.u64_small (_ * S))
      by (change (2 ^ 64) with (2 * 2 ^ 63); lia).
    rewrite WordFacts.u64_small
      by (change (2 ^ 64) with (2 * 2 ^ 63);
          change (2 ^ 63) with 9223372036854775808 in *; lia).
    change 511 with (2 ^ 9 - 1) at 2. rewrite round_down_pow2 by lia.
    change (2 ^ 9) with 512. rewrite Z.mul_comm, Z.div_mul by lia.
    reflexivity.
Qed.

(** ** What the indirect caches hold *)

Section Caches.

Variable g : Geometry.

Variable inode : Inode.

Variable dev : Device.

Hypothesis Hg : valid_geometry g.

Lemma page_pos : 4096 <= (page g).
Proof.
  unfold page. pose proof (blockPagesShift_range g Hg).
  change 4096 with (2 ^ 12). apply Z.pow_le_mono_r; lia.
Qed.

Lemma page_shift : Z.shiftl 1 (blockPagesShift g) = (page g).
Proof. apply page_unit_pow, Hg. Qed.

Lemma per_indirect_eq : (per_indirect g) = 2 ^ (blockShift g - 2).
Proof. apply per_indirect_pow, Hg. Qed.

Lemma per_indirect_bounds : 256 <= (per_indirect g) <= 16384.
Proof. apply per_indirect_range, Hg. Qed.

Lemma element_of_slot slot :
  0 <= slot < 2 ^ 32 -> element_of g (slot * (page g)) = slot.
Proof.
  intros H. unfold element_of, page.
  pose proof (blockPagesShift_range g Hg).
  rewrite shiftr_div, Z.div_mul by lia. now apply WordFacts.u32_small.
Qed.

Lemma slot_aligned slot :
  Z.land (slot * (page g)) (Z.shiftl 1 (blockPagesShift g) - 1) = 0.
Proof.
  pose proof (blockPagesShift_range g Hg).
  rewrite mask_mod by lia. apply Z.mod_mul.
  unfold page. lia.
Qed.

(** A handler that has its block serves a one-page event at a slot. *)
Lemma load_block_slot memory slot t block :
  load_block g dev memory (slot * (page g)) (page g) (t, Done block)
  = (t ++ [MapMemory memory (slot * (page g)) (page g);
           ReadSectors (sector_of g block) (sectorsPerBlock g);
           CompleteLoad memory (slot * (page g)) (page g)],
     Done (cached g dev block)).
Proof.
  unfold load_block, bind, assertion, emit, ret.
  rewrite slot_aligned, page_shift, !Z.eqb_refl. simpl. reflexivity.
Qed.

Lemma order1_slot slot :
  0 <= slot <= 2 ->
  slot_of g (indirectOrder1_content g inode dev) slot
  = Done (cached g dev (root_of inode slot)).
Proof.
  intros H. unfold slot_of, indirectOrder1_content.
  rewrite element_of_slot by lia.
  assert (E : order1_block inode slot = ([], Done (root_of inode slot))).
  { unfold order1_block, root_of.
    destruct (Z.eqb_spec slot 0); [reflexivity|].
    destruct (Z.eqb_spec slot 1); [reflexivity|].
    destruct (Z.eqb_spec slot 2); [reflexivity|lia]. }
  rewrite E, load_block_slot. reflexivity.
Qed.

(** The order-2 handler on the event of slot [slot]: the leaf pointer is
    entry [slot] of the double-indirect block, cached in slot 1 of
    [indirectOrder1]. *)
Lemma order2_block_slot slot :
  0 <= slot < (per_indirect g) ->
  order2_block g inode dev slot
  = ([LockMemory IndirectOrder1 (1 * (page g)) (page g);
      MapMemory IndirectOrder1 (1 * (page g)) (page g)],
     Done (u32_at (cached g dev (doubleIndirect inode)) slot)).
Proof.
  intros H. unfold order2_block. cbv zeta.
  pose proof (blockShift_range g Hg) as Hs.
  pose proof (blockPagesShift_range g Hg) as Hp.
  rewrite per_indirect_eq in H.
  rewrite shiftr_div, Z.div_small by lia.
  rewrite mask_mod, Z.mod_small by lia.
  rewrite Z.add_0_r, (WordFacts.u32_small 1) by lia.
  rewrite page_shift.
  assert (E : Word.u32 (page g) = 1 * (page g)).
  { rewrite Z.mul_1_l. apply WordFacts.u32_small. unfold page.
    split; [lia|]. apply Z.pow_lt_mono_r; lia. }
  rewrite E. unfold lock_and_map.
  pose proof (order1_slot 1 ltac:(lia)) as C. unfold slot_of in C.
  rewrite C. reflexivity.
Qed.

Lemma order2_slot slot :
  0 <= slot < (per_indirect g) ->
  slot_of g (indirectOrder2_content g inode dev) slot
  = Done (cached g dev (u32_at (cached g dev (doubleIndirect inode)) slot)).
Proof.
  intros H. unfold slot_of, indirectOrder2_content, manageIndirect.
  pose proof per_indirect_bounds.
  rewrite element_of_slot by lia.
  change (2 =? 1) with false. cbv iota.
  change (assertion (2 =? 2) UnexpectedOrder) with (ret (A := unit) tt).
  rewrite bind_ret_l, order2_block_slot by assumption.
  rewrite load_block_slot. reflexivity.
Qed.

End Caches.

(** ** The block mapper against the mapping of section 4.4 *)

Section Mapper.

Variable g : Geometry.

Variable inode : Inode.

Variable dev : Device.

Hypothesis Hg : valid_geometry g.

Lemma ranges_ordered : 12 < (s_range g) /\ (s_range g) < (d_range g) /\ (d_range g) < 2 ^ 32.
Proof.
  pose proof (per_indirect_bounds g Hg) as H.
  unfold d_range, s_range.
  change (2 ^ 32) with 4294967296. nia.
Qed.

Lemma bucket_cases L :
  0 <= L ->
  (L < 12 /\ bucket_of g L = DirectBlocks) \/
  (12 <= L < (s_range g) /\ bucket_of g L = SingleIndirect) \/
  ((s_range g) <= L < (d_range g) /\ bucket_of g L = DoubleIndirect) \/
  ((d_range g) <= L /\ bucket_of g L = Beyond).
Proof.
  intros H. unfold bucket_of. pose proof ranges_ordered.
  destruct (Z.ltb_spec L 12); [now left|].
  destruct (Z.ltb_spec L (s_range g)); [right; left; split; [lia|reflexivity]|].
  destruct (Z.ltb_spec L (d_range g));
    [right; right; left; split; [lia|reflexivity]|].
  right; right; right. split; [lia|reflexivity].
Qed.

(** Position and leaf of a double-indirect block. *)
Lemma double_split L :
  (s_range g) <= L < (d_range g) ->
  0 <= (L - (s_range g)) / (per_indirect g) < (per_indirect g) /\
  0 <= (L - (s_range g)) mod (per_indirect g) < (per_indirect g).
Proof.
  intros H. pose proof (per_indirect_bounds g Hg) as Hp.
  unfold d_range in H. split.
  - split; [apply Z.div_pos; lia|]. apply Z.div_lt_upper_bound; lia.
  - apply Z.mod_pos_bound. lia.
Qed.

Lemma position_range L :
  0 <= L < (d_range g) -> 0 <= position_of g L < limit_of g L.
Proof.
  intros H. unfold position_of, limit_of.
  destruct (bucket_cases L) as [[? ->]|[[? ->]|[[? ->]|[? ->]]]]; try lia.
  - unfold s_range in *. lia.
  - now apply double_split.
Qed.

Lemma limit_small L : limit_of g L <= 2 ^ 32.
Proof.
  pose proof (per_indirect_bounds g Hg).
  unfold limit_of. change (2 ^ 32) with 4294967296.
  destruct (bucket_of g L); lia.
Qed.

(** Blocks that do not leave the table of [L] share its bucket, table and
    access path, at consecutive positions. *)
Lemma within_table L k :
  0 <= L < (d_range g) -> 0 <= k -> position_of g L + k < limit_of g L ->
  L + k < (d_range g) /\
  bucket_of g (L + k) = bucket_of g L /\
  table_of g inode dev (L + k) = table_of g inode dev L /\
  position_of g (L + k) = position_of g L + k /\
  access_of g (L + k) = access_of g L.
Proof.
  intros HL Hk Hlim. pose proof (per_indirect_bounds g Hg) as Hp.
  pose proof ranges_ordered as Hr.
  unfold table_of, position_of, limit_of,
    access_of in *.
  destruct (bucket_cases L) as [[HB EB]|[[HB EB]|[[HB EB]|[HB EB]]]];
    try lia; rewrite EB in *.
  - assert (E : bucket_of g (L + k) = DirectBlocks).
    { unfold bucket_of. destruct (Z.ltb_spec (L + k) 12); [reflexivity|lia]. }
    rewrite E. repeat split; lia.
  - assert (E : bucket_of g (L + k) = SingleIndirect).
    { unfold bucket_of, s_range in *.
      destruct (Z.ltb_spec (L + k) 12); [lia|].
      destruct (Z.ltb_spec (L + k) (12 + (per_indirect g))); [reflexivity|lia]. }
    rewrite E. unfold s_range in *. repeat split; lia.
  - pose proof (double_split L HB) as [Hq Hm].
    assert (Ediv : (L + k - (s_range g)) / (per_indirect g)
                   = (L - (s_range g)) / (per_indirect g)
                   /\ (L + k - (s_range g)) mod (per_indirect g)
                      = (L - (s_range g)) mod (per_indirect g) + k).
    { pose proof (Z.div_mod (L - (s_range g)) (per_indirect g) ltac:(lia)) as D.
      replace (L + k - (s_range g))
        with ((L - (s_range g)) / (per_indirect g) * (per_indirect g)
              + ((L - (s_range g)) mod (per_indirect g) + k)) by lia.
      split.
      - rewrite Z.div_add_l, (Z.div_small (_ + k)) by lia. lia.
      - rewrite Z.add_comm, Z.mod_add by lia. apply Z.mod_small. lia. }
    destruct Ediv as [Ed Em].
    assert (Hlt : L + k < (d_range g)).
    { pose proof (Z.div_mod (L - (s_range g)) (per_indirect g) ltac:(lia)) as D.
      unfold d_range. nia. }
    assert (E : bucket_of g (L + k) = DoubleIndirect).
    { unfold bucket_of.
      destruct (Z.ltb_spec (L + k) 12); [lia|].
      destruct (Z.ltb_spec (L + k) (s_range g)); [lia|].
      destruct (Z.ltb_spec (L + k) (d_range g)); [reflexivity|lia]. }
    rewrite E, Ed, Em. repeat split; lia.
Qed.

(** The tables of all mapped blocks are present. *)
Lemma table_present L :
  0 <= L < (d_range g) -> exists table, table_of g inode dev L = Done table.
Proof.
  intros H. unfold table_of.
  destruct (bucket_cases L) as [[HB ->]|[[HB ->]|[[HB ->]|[HB ->]]]];
    try lia.
  - eexists; reflexivity.
  - rewrite order1_slot by (assumption || lia). eexists; reflexivity.
  - rewrite order2_slot by (assumption || now apply double_split).
    eexists; reflexivity.
Qed.

(** One iteration of the mapper locks and maps the table of its block and
    fuses from the position of the block, up to the end of the table. *)
Lemma issue_at_spec index remaining :
  0 <= index < (d_range g) ->
  exists table,
    table_of g inode dev index = Done table /\
    issue_at g inode dev index remaining
    = (access_of g index,
       Done (Fusion.fuse (position_of g index) remaining table
               (limit_of g index))).
Proof.
  intros H. destruct (table_present index H) as [table HT].
  exists table. split; [assumption|].
  pose proof (blockShift_range g Hg) as Hs.
  pose proof (blockPagesShift_range g Hg) as Hp.
  unfold issue_at. cbv zeta.
  change (blockSize g / 4) with (per_indirect g).
  change (12 + (per_indirect g)) with (s_range g).
  change ((s_range g) + (per_indirect g) * (per_indirect g)) with (d_range g).
  destruct (Z.ltb_spec index (d_range g)); [|lia].
  change (assertion true TripleIndirect) with (ret (A := unit) tt).
  rewrite bind_ret_l.
  destruct (Z.leb_spec (d_range g) index); [lia|].
  unfold table_of, position_of, limit_of,
    access_of in *.
  destruct (bucket_cases index) as [[HB EB]|[[HB EB]|[[HB EB]|[HB EB]]]];
    try lia; rewrite EB in *.
  - destruct (Z.leb_spec (s_range g) index);
      [pose proof ranges_ordered; lia|].
    destruct (Z.leb_spec 12 index); [lia|].
    now injection HT as <-.
  - destruct (Z.leb_spec (s_range g) index); [lia|].
    destruct (Z.leb_spec 12 index); [|lia].
    rewrite (page_shift g Hg). unfold lock_and_map.
    unfold slot_of in HT. rewrite Z.mul_0_l in HT. rewrite HT. reflexivity.
  - destruct (Z.leb_spec (s_range g) index); [|lia].
    rewrite shiftr_div, mask_mod by lia.
    rewrite <- (per_indirect_eq g Hg).
    rewrite (page_shift g Hg), shiftl_mul by lia.
    unfold lock_and_map. unfold slot_of in HT.
    fold (page g). rewrite HT. reflexivity.
Qed.

Lemma run_exists index remaining :
  0 <= index < (d_range g) -> exists first n, is_run g inode dev index remaining first n.
Proof.
  intros H. destruct (issue_at_spec index remaining H) as (table & HT & HI).
  pose proof (position_range index H) as Hpos.
  pose proof (FusionFacts.fuse_spec (position_of g index) remaining table
                (limit_of g index) ltac:(lia) (limit_small index)) as HF.
  destruct (Fusion.fuse _ _ _ _) as [first n].
  destruct HF as (-> & Hn & Hc & _ & Hb).
  assert (Hlim : position_of g index + n <= limit_of g index).
  { destruct (Z.eq_dec n 1); [lia|]. apply Hb. lia. }
  exists (u32_at table (position_of g index)), n.
  unfold is_run. split; [assumption|].
  split; [apply u32_at_range|]. split; [assumption|].
  split; [intros; apply Hb; lia|].
  assert (Hw : forall k, 0 <= k < n ->
                 index + k < (d_range g) /\
                 physical_of g inode dev (index + k)
                 = Done (u32_at table (position_of g index) + k) /\
                 access_of g (index + k) = access_of g index).
  { intros k Hk.
    destruct (within_table index k H ltac:(lia) ltac:(lia))
      as (W1 & _ & W3 & W4 & W5).
    split; [assumption|]. split; [|assumption].
    unfold physical_of. rewrite W3, W4, HT. f_equal.
    apply Hc. assumption. }
  split; [destruct (Hw (n - 1)) as [W _]; lia|].
  split; [lia|]. intros k Hk. apply Hw. assumption.
Qed.

Lemma sector_of_small block :
  0 <= block < 2 ^ 32 -> sector_of g block = block * sectorsPerBlock g.
Proof.
  intros H. unfold sector_of. apply WordFacts.u64_small.
  pose proof (sectorsPerBlock_pos g Hg).
  assert (sectorsPerBlock g <= 2 ^ 7).
  { rewrite (sectorsPerBlock_pow g Hg). pose proof (blockShift_range g Hg).
    apply Z.pow_le_mono_r; lia. }
  change (2 ^ 64) with (2 ^ 32 * 2 ^ 32). change (2 ^ 7) with 128 in *.
  change (2 ^ 32) with 4294967296 in *. nia.
Qed.

(** One iteration of the loop of [readData], at a block within range. *)
Lemma loop_step fuel offset num_blocks progress buffer first n :
  0 <= offset -> 0 <= progress < num_blocks -> offset + progress < (d_range g) ->
  is_run g inode dev (offset + progress) (num_blocks - progress) first n ->
  readData_loop g inode dev (S fuel) offset num_blocks progress buffer
  = if first =? 0
    then (access_of g (offset + progress), Aborted HoleEncountered)
    else
      let read := ReadSectors (first * sectorsPerBlock g)
                    (n * sectorsPerBlock g) in
      match store buffer (progress * blockSize g)
              (readSectors dev (first * sectorsPerBlock g)
                 (n * sectorsPerBlock g)) with
      | Some buffer' =>
          let (t, r) := readData_loop g inode dev fuel offset num_blocks
                          (progress + n) buffer' in
          (access_of g (offset + progress) ++ read :: t, r)
      | None =>
          (access_of g (offset + progress) ++ [read], Aborted WindowFault)
      end.
Proof.
  intros Ho Hp Hd (HI & Hf & Hn & Hrem & Hend & Hlim & _).
  pose proof ranges_ordered as Hr.
  pose proof (limit_small (offset + progress)) as Hl.
  pose proof (sectorsPerBlock_pos g Hg) as Hspb.
  assert (Hspb' : sectorsPerBlock g <= 128).
  { rewrite (sectorsPerBlock_pow g Hg). pose proof (blockShift_range g Hg).
    change 128 with (2 ^ 7). apply Z.pow_le_mono_r; lia. }
  assert (Hbs : blockSize g <= 65536).
  { rewrite (blockSize_pow g Hg). pose proof (blockShift_range g Hg).
    change 65536 with (2 ^ 16). apply Z.pow_le_mono_r; lia. }
  pose proof (blockSize_pos g Hg) as Hbs'.
  change (2 ^ 32) with 4294967296 in *.
  simpl readData_loop.
  destruct (Z.ltb_spec progress num_blocks); [|lia].
  rewrite (WordFacts.u64_small (offset + progress))
    by (change (2 ^ 64) with 18446744073709551616; lia).
  rewrite HI. unfold bind at 1. cbn [fst snd].
  rewrite sector_of_small by (change (2 ^ 32) with 4294967296; lia).
  rewrite (WordFacts.u64_small (n * _))
    by (change (2 ^ 64) with 18446744073709551616; nia).
  rewrite (WordFacts.u64_small (progress * _))
    by (change (2 ^ 64) with 18446744073709551616; nia).
  destruct (first =? 0); simpl.
  - now rewrite app_nil_r.
  - unfold read_into, bind, emit.
    destruct (store _ _ _) as [buffer'|]; simpl.
    + destruct (readData_loop _ _ _ _ _ _ _ _) as [t r]. reflexivity.
    + reflexivity.
Qed.

(** The loop refuses a block beyond the double-indirect range. *)
Lemma loop_beyond fuel offset num_blocks progress buffer :
  0 <= offset -> 0 <= progress < num_blocks ->
  (d_range g) <= offset + progress < 2 ^ 64 ->
  readData_loop g inode dev (S fuel) offset num_blocks progress buffer
  = ([], Aborted TripleIndirect).
Proof.
  intros Ho Hp Hd. simpl readData_loop.
  destruct (Z.ltb_spec progress num_blocks); [|lia].
  rewrite (WordFacts.u64_small (offset + progress)) by lia.
  unfold issue_at. cbv zeta.
  change (blockSize g / 4) with (per_indirect g).
  change (12 + (per_indirect g)) with (s_range g).
  change ((s_range g) + (per_indirect g) * (per_indirect g)) with (d_range g).
  destruct (Z.ltb_spec (offset + progress) (d_range g)); [lia|]. reflexivity.
Qed.

Section Loop.

Variables offset num_blocks : Z.

Hypothesis Hoffset : 0 <= offset.

Local Abbreviation loop := (fun fuel => readData_loop g inode dev fuel offset num_blocks).

Local Abbreviation read first n :=
  (ReadSectors (first * sectorsPerBlock g) (n * sectorsPerBlock g)).

Local Abbreviation data first n :=
  (readSectors dev (first * sectorsPerBlock g) (n * sectorsPerBlock g)).

(** The five ways in which the loop proceeds from [progress]: it is done,
    it refuses a block beyond the double-indirect range, it refuses a
    hole, the read leaves the window, or a run is read and the loop goes
    on behind it.  A property that holds along these holds of the loop. *)
Lemma loop_cases (P : Z -> list byte -> M (list byte) -> Prop) :
  (forall p buf, num_blocks <= p -> P p buf (ret buf)) ->
  (forall p buf, 0 <= p < num_blocks -> (d_range g) <= offset + p ->
     P p buf ([], Aborted TripleIndirect)) ->
  (forall p buf n, 0 <= p < num_blocks ->
     is_run g inode dev (offset + p) (num_blocks - p) 0 n ->
     P p buf (access_of g (offset + p), Aborted HoleEncountered)) ->
  (forall p buf first n, 0 <= p < num_blocks ->
     is_run g inode dev (offset + p) (num_blocks - p) first n -> first <> 0 ->
     store buf (p * blockSize g) (data first n) = None ->
     P p buf (access_of g (offset + p) ++ [read first n],
              Aborted WindowFault)) ->
  (forall p buf first n buf' rest, 0 <= p < num_blocks ->
     is_run g inode dev (offset + p) (num_blocks - p) first n -> first <> 0 ->
     store buf (p * blockSize g) (data first n) = Some buf' ->
     P (p + n) buf' rest ->
     P p buf (access_of g (offset + p) ++ read first n :: fst rest,
              snd rest)) ->
  forall fuel p buf,
    0 <= p -> offset + p < 2 ^ 64 -> (Z.to_nat (num_blocks - p) <= fuel)%nat ->
    P p buf (loop fuel p buf).
Proof.
  intros Hdone Hbeyond Hhole Hfault Hrun.
  induction fuel as [|fuel IH]; intros p buf Hp H64 Hfuel.
  - assert (E : loop O p buf = ret buf).
    { simpl. destruct (Z.ltb_spec p num_blocks); [lia|reflexivity]. }
    rewrite E. apply Hdone. lia.
  - destruct (Z_lt_le_dec p num_blocks) as [Hlt|Hge].
    2:{ assert (E : loop (S fuel) p buf = ret buf).
        { simpl. destruct (Z.ltb_spec p num_blocks); [lia|reflexivity]. }
        rewrite E. now apply Hdone. }
    destruct (Z_lt_le_dec (offset + p) (d_range g)) as [Hin|Hout].
    2:{ rewrite loop_beyond by lia. apply Hbeyond; lia. }
    destruct (run_exists (offset + p) (num_blocks - p) ltac:(lia))
      as (first & n & R).
    rewrite (loop_step fuel offset num_blocks p buf first n)
      by (assumption || lia).
    destruct (Z.eqb_spec first 0) as [->|Hnz].
    { now apply Hhole with (n := n). }
    cbv zeta. destruct (store _ _ _) as [buf'|] eqn:ES.
    2:{ now apply Hfault. }
    pose proof R as (_ & _ & Hn & Hrem & Hend & _).
    pose proof ranges_ordered as Hr.
    specialize (IH (p + n) buf' ltac:(lia)
                  ltac:(change (2 ^ 64) with 18446744073709551616;
                        change (2 ^ 32) with 4294967296 in Hr; lia)
                  ltac:(lia)).
    destruct (loop fuel (p + n) buf') as [t r] eqn:EL.
    apply (Hrun p buf first n buf' (t, r)); assumption || lia.
Qed.

Lemma access_no_read L sector count :
  ~ In (ReadSectors sector count) (access_of g L).
Proof.
  unfold access_of. destruct (bucket_of g L); simpl; intuition discriminate.
Qed.

Lemma fetched_access L : fetched g (access_of g L) = [].
Proof.
  unfold access_of. destruct (bucket_of g L); reflexivity.
Qed.

Lemma fetched_app t1 t2 : fetched g (t1 ++ t2) = fetched g t1 ++ fetched g t2.
Proof. unfold fetched. apply flat_map_app. Qed.

Lemma fetched_cons a t : fetched g (a :: t) = blocks_read g a ++ fetched g t.
Proof. reflexivity. Qed.

Lemma blocks_read_run first n :
  0 <= n -> blocks_read g (read first n) = zseq first (Z.to_nat n).
Proof.
  intros H. pose proof (sectorsPerBlock_pos g Hg). unfold blocks_read.
  rewrite !Z.div_mul by lia. reflexivity.
Qed.

(** The loop always leaves: it returns or it aborts on an assertion or on
    the window. *)
Lemma loop_leaves fuel p buf :
  0 <= p -> offset + p < 2 ^ 64 -> (Z.to_nat (num_blocks - p) <= fuel)%nat ->
  snd (loop fuel p buf) <> Aborted Diverged.
Proof.
  apply (loop_cases (fun _ _ m => snd m <> Aborted Diverged));
    simpl; intros; try discriminate; assumption.
Qed.

(** Every device read of the loop starts at a block that is not zero. *)
Lemma loop_reads_nonzero fuel p buf :
  0 <= p -> offset + p < 2 ^ 64 -> (Z.to_nat (num_blocks - p) <= fuel)%nat ->
  forall sector count, In (ReadSectors sector count) (fst (loop fuel p buf)) ->
  exists block, block <> 0 /\ sector = block * sectorsPerBlock g.
Proof.
  apply (loop_cases (fun _ _ m =>
    forall sector count, In (ReadSectors sector count) (fst m) ->
    exists block, block <> 0 /\ sector = block * sectorsPerBlock g));
    simpl.
  - intros _ _ _ s c [].
  - intros _ _ _ _ s c [].
  - intros q _ n _ _ s c H. now apply access_no_read in H.
  - intros q _ first n _ _ Hnz _ s c H. apply in_app_or in H.
    destruct H as [H|[H|[]]]; [now apply access_no_read in H|].
    injection H as <- <-. now exists first.
  - intros q _ first n _ rest _ _ Hnz _ IH s c H. apply in_app_or in H.
    destruct H as [H|[H|H]]; [now apply access_no_read in H| |now apply (IH s c)].
    injection H as <- <-. now exists first.
Qed.

Lemma Forall2_zseq (R : Z -> Z -> Prop) a b c :
  (forall k, 0 <= k < Z.of_nat c -> R (a + k) (b + k)) ->
  Forall2 R (zseq a c) (zseq b c).
Proof.
  revert a b. induction c as [|c IH]; intros a b H; [constructor|].
  rewrite !zseq_S. constructor.
  - specialize (H 0 ltac:(lia)). now rewrite !Z.add_0_r in H.
  - apply IH. intros k Hk. specialize (H (1 + k) ltac:(lia)).
    now rewrite !Z.add_assoc in H.
Qed.

(** When the loop returns, the blocks it read are, in order, the physical
    blocks of the logical blocks from [offset + p] on, and the table of
    each of them was locked and mapped. *)
Lemma loop_fetches fuel p buf :
  0 <= p -> offset + p < 2 ^ 64 -> (Z.to_nat (num_blocks - p) <= fuel)%nat ->
  forall buf', snd (loop fuel p buf) = Done buf' ->
  Forall2 (fun L P => physical_of g inode dev L = Done P)
    (zseq (offset + p) (Z.to_nat (num_blocks - p)))
    (fetched g (fst (loop fuel p buf))) /\
  forall L, offset + p <= L < offset + num_blocks ->
    incl (access_of g L) (fst (loop fuel p buf)).
Proof.
  apply (loop_cases (fun p _ m =>
    forall buf', snd m = Done buf' ->
    Forall2 (fun L P => physical_of g inode dev L = Done P)
      (zseq (offset + p) (Z.to_nat (num_blocks - p))) (fetched g (fst m)) /\
    forall L, offset + p <= L < offset + num_blocks ->
      incl (access_of g L) (fst m))); cbn [fst snd]; try discriminate.
  - intros q b Hq _ _. replace (Z.to_nat (num_blocks - q)) with O by lia.
    split; [constructor|]. intros L HL. lia.
  - intros q _ first n _ rest Hq R Hnz _ IH buf' Hdone.
    destruct (IH buf' Hdone) as [IH1 IH2].
    destruct R as (_ & _ & Hn & Hrem & _ & _ & Hk).
    assert (Hle : n <= num_blocks - q)
      by (destruct (Z.eq_dec n 1); [lia | apply Hrem; lia]).
    split.
    + replace (Z.to_nat (num_blocks - q))
        with (Z.to_nat n + Z.to_nat (num_blocks - (q + n)))%nat by lia.
      rewrite zseq_app, fetched_app, fetched_access, fetched_cons.
      rewrite blocks_read_run by lia. rewrite app_nil_l.
      apply Forall2_app.
      * apply Forall2_zseq. intros k Hk'. apply Hk. lia.
      * replace (offset + q + Z.of_nat (Z.to_nat n))
          with (offset + (q + n)) by lia. exact IH1.
    + intros L HL. destruct (Z_lt_le_dec L (offset + q + n)) as [Hin|Hout].
      * destruct (Hk (L - (offset + q)) ltac:(lia)) as [_ E].
        replace (offset + q + (L - (offset + q))) with L in E by lia.
        rewrite E. now apply incl_appl, incl_refl.
      * apply incl_appr, incl_tl, IH2. lia.
Qed.

Lemma blockwise_app l1 l2 buf :
  blockwise g inode dev offset (l1 ++ l2) buf
  = (b <- blockwise g inode dev offset l1 buf ;;
     blockwise g inode dev offset l2 b).
Proof.
  revert buf. induction l1 as [|k l1 IH]; intros buf.
  - cbn [blockwise app]. now rewrite bind_ret_l.
  - cbn [blockwise app]. rewrite bind_assoc. apply bind_ext. intros P.
    rewrite bind_assoc. apply bind_ext. intros b'. apply IH.
Qed.

Lemma snd_blockwise_cons k rest buf :
  snd (blockwise g inode dev offset (k :: rest) buf)
  = match physical_of g inode dev (offset + k) with
    | Done P =>
        if P =? 0 then Aborted HoleEncountered
        else match store buf (k * blockSize g) (data P 1) with
             | Some b' => snd (blockwise g inode dev offset rest b')
             | None => Aborted WindowFault
             end
    | Aborted e => Aborted e
    end.
Proof.
  cbn [blockwise]. rewrite snd_bind. unfold map_block. cbn [snd].
  destruct (physical_of g inode dev (offset + k)) as [P|e]; [|reflexivity].
  destruct (P =? 0); [reflexivity|].
  rewrite snd_bind. unfold read_into. rewrite snd_bind. cbn [snd emit].
  rewrite Z.mul_1_l.
  destruct (store _ _ _); reflexivity.
Qed.

(** Reading the blocks of a run one by one delivers what the single read
    of the run delivers. *)
Lemma blockwise_run c : forall p first buf,
  0 < first ->
  (forall k, 0 <= k < Z.of_nat (S c) ->
     physical_of g inode dev (offset + p + k) = Done (first + k)) ->
  snd (blockwise g inode dev offset (zseq p (S c)) buf)
  = match store buf (p * blockSize g) (data first (Z.of_nat (S c))) with
    | Some b => Done b
    | None => Aborted WindowFault
    end.
Proof.
  pose proof (sectorsPerBlock_pos g Hg) as Hspb.
  induction c as [|c IH]; intros p first buf Hf Hk.
  - rewrite zseq_S, snd_blockwise_cons.
    specialize (Hk 0 ltac:(lia)). rewrite !Z.add_0_r in Hk. rewrite Hk.
    destruct (Z.eqb_spec first 0); [lia|].
    change (Z.of_nat 1) with 1. destruct (store _ _ _); reflexivity.
  - rewrite zseq_S, snd_blockwise_cons.
    pose proof (Hk 0 ltac:(lia)) as H0. rewrite !Z.add_0_r in H0. rewrite H0.
    destruct (Z.eqb_spec first 0); [lia|].
    replace (Z.of_nat (S (S c)) * sectorsPerBlock g)
      with (1 * sectorsPerBlock g + Z.of_nat (S c) * sectorsPerBlock g)
      by lia.
    rewrite readSectors_app, store_app by lia.
    destruct (store buf (p * blockSize g) (data first 1)) as [b1|];
      [|reflexivity].
    rewrite (IH (p + 1) (first + 1) b1) by
      (try lia; intros k Hk';
       replace (offset + (p + 1) + k) with (offset + p + (1 + k)) by lia;
       replace (first + 1 + k) with (first + (1 + k)) by lia;
       apply Hk; lia).
    rewrite readSectors_length.
    replace (Z.of_nat (Z.to_nat (1 * sectorsPerBlock g * 512)))
      with (blockSize g)
      by (rewrite <- (sectorsPerBlock_bytes g Hg); lia).
    replace (p * blockSize g + blockSize g) with ((p + 1) * blockSize g)
      by lia.
    replace (first * sectorsPerBlock g + 1 * sectorsPerBlock g)
      with ((first + 1) * sectorsPerBlock g) by lia.
    reflexivity.
Qed.

(** The loop and the reader without fusion leave the same window, and
    abort for the same reason. *)
Lemma loop_blockwise fuel p buf :
  0 <= p -> offset + p < 2 ^ 64 -> (Z.to_nat (num_blocks - p) <= fuel)%nat ->
  snd (loop fuel p buf)
  = snd (blockwise g inode dev offset
           (zseq p (Z.to_nat (num_blocks - p))) buf).
Proof.
  apply (loop_cases (fun p buf m =>
    snd m = snd (blockwise g inode dev offset
                   (zseq p (Z.to_nat (num_blocks - p))) buf)));
    cbn [fst snd].
  - intros q b Hq. replace (Z.to_nat (num_blocks - q)) with O by lia.
    reflexivity.
  - intros q b Hq Hout.
    replace (Z.to_nat (num_blocks - q))
      with (S (Z.to_nat (num_blocks - q - 1))) by lia.
    rewrite zseq_S, snd_blockwise_cons.
    unfold physical_of, table_of.
    destruct (bucket_cases (offset + q) ltac:(lia))
      as [[? ->]|[[? ->]|[[? ->]|[? ->]]]];
      try (pose proof ranges_ordered; lia). reflexivity.
  - intros q b n Hq R.
    replace (Z.to_nat (num_blocks - q))
      with (S (Z.to_nat (num_blocks - q - 1))) by lia.
    rewrite zseq_S, snd_blockwise_cons.
    destruct R as (_ & _ & Hn & _ & _ & _ & Hk).
    destruct (Hk 0 ltac:(lia)) as [E _]. rewrite !Z.add_0_r in E.
    rewrite E. reflexivity.
  - intros q b first n Hq R Hnz ES.
    destruct R as (_ & Hf & Hn & Hrem & _ & _ & Hk).
    assert (Hle : n <= num_blocks - q)
      by (destruct (Z.eq_dec n 1); [lia | apply Hrem; lia]).
    replace (Z.to_nat (num_blocks - q))
      with (S (Z.to_nat (n - 1)) + Z.to_nat (num_blocks - (q + n)))%nat
      by lia.
    rewrite zseq_app, blockwise_app, snd_bind.
    rewrite (blockwise_run (Z.to_nat (n - 1)) q first b)
      by (try lia; intros k Hk'; apply Hk; lia).
    replace (Z.of_nat (S (Z.to_nat (n - 1)))) with n by lia.
    rewrite ES. reflexivity.
  - intros q b first n b' rest Hq R Hnz ES IH.
    destruct R as (_ & Hf & Hn & Hrem & _ & _ & Hk).
    assert (Hle : n <= num_blocks - q)
      by (destruct (Z.eq_dec n 1); [lia | apply Hrem; lia]).
    replace (Z.to_nat (num_blocks - q))
      with (S (Z.to_nat (n - 1)) + Z.to_nat (num_blocks - (q + n)))%nat
      by lia.
    rewrite zseq_app, blockwise_app, snd_bind.
    rewrite (blockwise_run (Z.to_nat (n - 1)) q first b)
      by (try lia; intros k Hk'; apply Hk; lia).
    replace (Z.of_nat (S (Z.to_nat (n - 1)))) with n by lia.
    rewrite ES, IH. reflexivity.
Qed.

(** Where no mapped block of the request is a hole, the loop does not
    refuse one. *)
Lemma loop_no_hole fuel p buf :
  0 <= p -> offset + p < 2 ^ 64 -> (Z.to_nat (num_blocks - p) <= fuel)%nat ->
  (forall L, offset + p <= L < offset + num_blocks ->
     physical_of g inode dev L <> Done 0) ->
  snd (loop fuel p buf) <> Aborted HoleEncountered.
Proof.
  apply (loop_cases (fun p _ m =>
    (forall L, offset + p <= L < offset + num_blocks ->
       physical_of g inode dev L <> Done 0) ->
    snd m <> Aborted HoleEncountered)); cbn [fst snd]; try discriminate.
  - intros q _ n Hq R Hno.
    destruct R as (_ & _ & Hn & _ & _ & _ & Hk).
    destruct (Hk 0 ltac:(lia)) as [E _]. rewrite !Z.add_0_r in E.
    exfalso. now apply (Hno (offset + q) ltac:(lia)).
  - intros q _ first n _ rest Hq R _ _ IH Hno. apply IH.
    destruct R as (_ & _ & Hn & _). intros L HL. apply Hno. lia.
Qed.

End Loop.

End Mapper.

(** ** Whole requests to the block mapper *)

Lemma store_shape buf off d b :
  store buf off d = Some b ->
  0 <= off /\
  firstn (Z.to_nat off + length d) b = firstn (Z.to_nat off) buf ++ d /\
  forall x, skipn (Z.to_nat off + length d + x) b
            = skipn (Z.to_nat off + length d + x) buf.
Proof.
  unfold store.
  destruct (Z.leb_spec 0 off) as [C0|C0]; simpl; [|discriminate].
  destruct (Z.leb_spec (off + Z.of_nat (length d)) (Z.of_nat (length buf)))
    as [C1|C1]; [|discriminate].
  intros [= <-]. split; [assumption|].
  assert (Hf : length (firstn (Z.to_nat off) buf) = Z.to_nat off)
    by (rewrite length_firstn; lia).
  split.
  - rewrite app_assoc.
    replace (Z.to_nat off + length d)%nat
      with (length (firstn (Z.to_nat off) buf ++ d) + 0)%nat
      by (rewrite length_app; lia).
    rewrite firstn_app_2. simpl. now rewrite app_nil_r.
  - intros x. rewrite app_assoc.
    replace (Z.to_nat off + length d + x)%nat
      with (length (firstn (Z.to_nat off) buf ++ d) + x)%nat
      by (rewrite length_app; lia).
    rewrite skipn_app, skipn_all2 by lia. simpl.
    replace (length (firstn (Z.to_nat off) buf ++ d) + x
             - length (firstn (Z.to_nat off) buf ++ d))%nat with x by lia.
    rewrite skipn_skipn. f_equal. rewrite length_app. lia.
Qed.

Lemma Forall2_nth_error {A B} (R : A -> B -> Prop) l1 l2 i a :
  Forall2 R l1 l2 -> nth_error l1 i = Some a ->
  exists b, nth_error l2 i = Some b /\ R a b.
Proof.
  intros H. revert i. induction H as [|x y l1 l2 Hxy _ IH]; intros i Hi.
  - destruct i; discriminate.
  - destruct i as [|i]; simpl in *.
    + injection Hi as <-. now exists y.
    + now apply IH.
Qed.

Lemma zseq_nth_error a n k :
  (k < n)%nat -> nth_error (zseq a n) k = Some (a + Z.of_nat k).
Proof.
  intros H. rewrite (nth_error_nth' _ 0) by now rewrite zseq_length.
  now rewrite zseq_nth.
Qed.

Section Requests.

Variable g : Geometry.

Variable inode : Inode.

Variable dev : Device.

Hypothesis Hg : valid_geometry g.

Variables offset num_blocks : Z.

Hypothesis Hoffset : 0 <= offset < 2 ^ 64.

Local Abbreviation block_data P :=
  (readSectors dev (P * sectorsPerBlock g) (sectorsPerBlock g)).

Lemma readData_unfold buffer :
  readData g inode dev offset num_blocks buffer
  = (AwaitReady
       :: fst (readData_loop g inode dev (Z.to_nat num_blocks) offset
                 num_blocks 0 buffer),
     snd (readData_loop g inode dev (Z.to_nat num_blocks) offset
            num_blocks 0 buffer)).
Proof.
  unfold readData, bind, emit.
  now destruct (readData_loop _ _ _ _ _ _ _ _).
Qed.

(** The reader without fusion returns the concatenation of the blocks it
    reads, in place of the bytes of the window that they cover. *)
Lemma blockwise_concat c : forall p buf b,
  0 <= p ->
  snd (blockwise g inode dev offset (zseq p c) buf) = Done b ->
  exists blocks,
    Forall2 (fun L P => physical_of g inode dev L = Done P) (zseq (offset + p) c) blocks /\
    b = firstn (Z.to_nat (p * blockSize g)) buf
        ++ concat (map (fun P => block_data P) blocks)
        ++ skipn (Z.to_nat ((p + Z.of_nat c) * blockSize g)) buf.
Proof.
  pose proof (blockSize_pos g Hg) as Hbs.
  induction c as [|c IH]; intros p buf b Hp H.
  - simpl in H. injection H as <-. exists []. split; [constructor|].
    simpl. rewrite Z.add_0_r. now rewrite firstn_skipn.
  - rewrite zseq_S, snd_blockwise_cons in H.
    destruct (physical_of g inode dev (offset + p)) as [P|e] eqn:EP;
      [|discriminate].
    destruct (P =? 0); [discriminate|].
    rewrite Z.mul_1_l in H.
    destruct (store buf (p * blockSize g) (block_data P)) as [b1|] eqn:ES;
      [|discriminate].
    destruct (IH (p + 1) b1 b ltac:(lia) H) as (blocks & HF & ->).
    exists (P :: blocks). split.
    + rewrite zseq_S. constructor; [assumption|].
      now rewrite <- Z.add_assoc.
    + destruct (store_shape _ _ _ _ ES) as (_ & S1 & S2).
      assert (Hlen : length (block_data P) = Z.to_nat (blockSize g)).
      { rewrite readSectors_length, (sectorsPerBlock_bytes g Hg).
        reflexivity. }
      rewrite Hlen in S1, S2.
      replace (Z.to_nat ((p + 1) * blockSize g))
        with (Z.to_nat (p * blockSize g) + Z.to_nat (blockSize g))%nat by lia.
      rewrite S1.
      replace (Z.to_nat ((p + 1 + Z.of_nat c) * blockSize g))
        with (Z.to_nat (p * blockSize g) + Z.to_nat (blockSize g)
              + Z.to_nat (Z.of_nat c * blockSize g))%nat by lia.
      rewrite S2. simpl. rewrite <- !app_assoc. do 3 f_equal.
      f_equal. lia.
Qed.

(** The reader without fusion returns when all blocks of the request are
    mapped and are no holes, and the window has room for them. *)
Lemma blockwise_returns c : forall p buf,
  0 <= p ->
  (forall L, offset + p <= L < offset + p + Z.of_nat c ->
     exists P, physical_of g inode dev L = Done P /\ P <> 0) ->
  (p + Z.of_nat c) * blockSize g <= Z.of_nat (length buf) ->
  exists b, snd (blockwise g inode dev offset (zseq p c) buf) = Done b.
Proof.
  pose proof (blockSize_pos g Hg) as Hbs.
  induction c as [|c IH]; intros p buf Hp Hmap Hroom.
  - now exists buf.
  - rewrite zseq_S, snd_blockwise_cons.
    destruct (Hmap (offset + p) ltac:(lia)) as (P & -> & HP).
    destruct (Z.eqb_spec P 0); [contradiction|].
    rewrite Z.mul_1_l.
    destruct (store buf (p * blockSize g) (block_data P)) as [b1|] eqn:ES.
    + apply IH; [lia| |].
      * intros L HL. apply Hmap. lia.
      * rewrite (store_length _ _ _ _ ES). lia.
    + exfalso. unfold store in ES.
      rewrite readSectors_length, (sectorsPerBlock_bytes g Hg) in ES.
      destruct (Z.leb_spec 0 (p * blockSize g)); [|lia].
      destruct (Z.leb_spec (p * blockSize g + Z.of_nat (Z.to_nat (blockSize g)))
                  (Z.of_nat (length buf))); [discriminate|nia].
Qed.

End Requests.

Lemma issue_at_beyond g inode dev index remaining :
  d_range g <= index ->
  issue_at g inode dev index remaining = ([], Aborted TripleIndirect).
Proof.
  intros H. unfold issue_at. cbv zeta.
  change (blockSize g / 4) with (per_indirect g).
  change (12 + per_indirect g) with (s_range g).
  change (s_range g + per_indirect g * per_indirect g) with (d_range g).
  destruct (Z.ltb_spec index (d_range g)); [lia|]. reflexivity.
Qed.

(** ** Properties of the block mapper *)

(** The block mapper returns on every request that stays within the
    double-indirect range and within the window, and meets no hole. *)
Lemma readData_returns g inode dev offset num_blocks buffer :
  valid_geometry g -> 0 <= offset -> 0 <= num_blocks ->
  offset + num_blocks <= d_range g ->
  (forall L, offset <= L < offset + num_blocks ->
     physical_of g inode dev L <> Done 0) ->
  num_blocks * blockSize g <= Z.of_nat (length buffer) ->
  exists trace buffer',
    readData g inode dev offset num_blocks buffer = (trace, Done buffer').
Proof.
  intros Hg Ho Hn Hd Hmap Hroom.
  pose proof (ranges_ordered g Hg) as Hr.
  assert (H64 : offset < 2 ^ 64).
  { change (2 ^ 64) with 18446744073709551616.
    change (2 ^ 32) with 4294967296 in Hr. lia. }
  destruct (blockwise_returns g inode dev Hg offset (Z.to_nat num_blocks) 0
              buffer ltac:(lia)) as [b Hb].
  - intros L HL.
    destruct (table_present g inode dev Hg L ltac:(lia)) as [table HT].
    exists (u32_at table (position_of g L)).
    assert (E : physical_of g inode dev L
                = Done (u32_at table (position_of g L)))
      by (unfold physical_of; now rewrite HT).
    split; [assumption|]. intros Z0. apply (Hmap L ltac:(lia)).
    now rewrite E, Z0.
  - lia.
  - rewrite readData_unfold.
    eexists. exists b. f_equal.
    rewrite (loop_blockwise g inode dev Hg offset num_blocks) by lia.
    now rewrite Z.sub_0_r.
Qed.

(** C1. Every logical block [L] of a request that the block mapper serves
    is read from the physical block that its table names: [direct[L]]
    below 12; entry [L - 12] of slot 0 of [indirectOrder1], locked and
    mapped over one page at offset 0, below [s_range]; entry
    [(L - s_range) mod per_indirect] of slot [(L - s_range) / per_indirect]
    of [indirectOrder2], locked and mapped over one page, below
    [d_range]. *)
Theorem mapper_reads_mapped_blocks :
  forall g inode dev offset num_blocks buffer trace buffer',
    valid_geometry g -> 0 <= offset < 2 ^ 64 ->
    readData g inode dev offset num_blocks buffer = (trace, Done buffer') ->
    forall k, 0 <= k < num_blocks ->
      let L := offset + k in
      let physical := nth_error (fetched g trace) (Z.to_nat k) in
      (L < 12 -> physical = Some (u32_at (direct inode) L)) /\
      (12 <= L < s_range g ->
         exists table,
           slot_of g (indirectOrder1_content g inode dev) 0 = Done table /\
           In (LockMemory IndirectOrder1 0 (page g)) trace /\
           In (MapMemory IndirectOrder1 0 (page g)) trace /\
           physical = Some (u32_at table (L - 12))) /\
      (s_range g <= L < d_range g ->
         let first := (L - s_range g) / per_indirect g in
         let second := (L - s_range g) mod per_indirect g in
         exists table,
           slot_of g (indirectOrder2_content g inode dev) first
           = Done table /\
           In (LockMemory IndirectOrder2 (first * page g) (page g)) trace /\
           In (MapMemory IndirectOrder2 (first * page g) (page g)) trace /\
           physical = Some (u32_at table second)).
Proof.
  intros g inode dev offset num_blocks buffer trace buffer' Hg Ho HR k Hk L.
  rewrite readData_unfold in HR. injection HR as <- HS.
  destruct (loop_fetches g inode dev Hg offset num_blocks ltac:(lia)
              (Z.to_nat num_blocks) 0 buffer ltac:(lia) ltac:(lia) ltac:(lia)
              buffer' HS) as [HF HA].
  rewrite Z.add_0_r, Z.sub_0_r in HF.
  destruct (Forall2_nth_error _ _ _ (Z.to_nat k) (offset + k) HF)
    as (P & HP & HL).
  { rewrite zseq_nth_error by lia. f_equal. lia. }
  specialize (HA L ltac:(unfold L; lia)).
  change (fetched g (AwaitReady :: ?t)) with (fetched g t). cbv zeta.
  rewrite HP. fold L in HL.
  unfold physical_of, table_of, position_of in HL.
  unfold access_of in HA.
  pose proof (ranges_ordered g Hg) as Hr.
  destruct (bucket_cases g Hg L ltac:(unfold L; lia))
    as [[HB EB]|[[HB EB]|[[HB EB]|[HB EB]]]]; rewrite EB in HL, HA.
  - injection HL as <-. split; [|split]; intros HH; try lia. reflexivity.
  - destruct (slot_of g (indirectOrder1_content g inode dev) 0) as [t|e];
      [|discriminate].
    injection HL as <-. split; [|split]; intros HH; try lia.
    exists t. split; [reflexivity|]. split; [|split; [|reflexivity]].
    + right. apply HA. now left.
    + right. apply HA. right. now left.
  - destruct (slot_of g (indirectOrder2_content g inode dev) _) as [t|e];
      [|discriminate].
    injection HL as <-. split; [|split]; intros HH; try lia.
    exists t. split; [reflexivity|]. split; [|split; [|reflexivity]].
    + right. apply HA. now left.
    + right. apply HA. right. now left.
  - discriminate.
Qed.

(** C2, amended. The run length chosen at a logical block [L] with
    [remaining] blocks left of the request is the largest [n] with
    [1 <= n <= remaining] whose blocks are in the range bucket of [L],
    have consecutive entries in the table of [L], and do not pass the end
    of that table: no larger run within the request is fusable. *)
Theorem fuse_is_maximal_within_request :
  forall g inode dev L remaining trace first n,
    valid_geometry g -> 0 <= L -> 1 <= remaining ->
    issue_at g inode dev L remaining = (trace, Done (first, n)) ->
    1 <= n <= remaining /\
    fusable g inode dev L n /\
    forall m, 1 <= m <= remaining -> fusable g inode dev L m -> m <= n.
Proof.
  intros g inode dev L remaining trace first n Hg HL Hrem HI.
  destruct (Z_lt_le_dec L (d_range g)) as [Hin|Hout].
  2:{ rewrite issue_at_beyond in HI by assumption. discriminate. }
  destruct (issue_at_spec g inode dev Hg L remaining ltac:(lia))
    as (table & HT & HI').
  rewrite HI' in HI.
  assert (HF : Fusion.fuse (position_of g L) remaining table (limit_of g L)
               = (first, n)) by congruence.
  clear HI HI'.
  pose proof (position_range g Hg L ltac:(lia)) as Hpos.
  pose proof (FusionFacts.fuse_spec (position_of g L) remaining table
                (limit_of g L) ltac:(lia) (limit_small g Hg L)) as S.
  rewrite HF in S. destruct S as (_ & Hn & Hc & Hstop & Hb).
  assert (Hlim : position_of g L + n <= limit_of g L)
    by (destruct (Z.eq_dec n 1); [lia | apply Hb; lia]).
  assert (Hle : n <= remaining)
    by (destruct (Z.eq_dec n 1); [lia | apply Hb; lia]).
  split; [lia|]. split.
  - intros k Hk.
    destruct (within_table g inode dev Hg L k ltac:(lia) ltac:(lia)
                ltac:(lia)) as (_ & W & _).
    split; [assumption|]. split; [|lia].
    exists table. split; [assumption|]. now apply Hc.
  - intros m Hm HFm.
    destruct (Z_le_gt_dec m n) as [|Hgt]; [assumption|exfalso].
    destruct (HFm n ltac:(lia)) as (_ & (table' & HT' & Hcont) & Hc').
    rewrite HT in HT'. injection HT' as <-.
    destruct Hstop as [H|[H|H]]; [lia|lia|contradiction].
Qed.

(** C3. The window that the fused sector reads leave is the window that
    reading the same logical blocks one by one, in order, leaves; when the
    mapper returns, it holds the concatenation of the blocks that section
    4.4 maps the logical blocks to, followed by what the window held
    behind them. *)
Theorem fused_reads_deliver_blockwise_bytes :
  forall g inode dev offset num_blocks buffer,
    valid_geometry g -> 0 <= offset < 2 ^ 64 ->
    snd (readData g inode dev offset num_blocks buffer)
    = snd (readData_blockwise g inode dev offset num_blocks buffer) /\
    forall buffer',
      snd (readData g inode dev offset num_blocks buffer) = Done buffer' ->
      exists blocks,
        Forall2 (fun L P => physical_of g inode dev L = Done P)
          (zseq offset (Z.to_nat num_blocks)) blocks /\
        buffer'
        = concat (map (fun P => readSectors dev (P * sectorsPerBlock g)
                                  (sectorsPerBlock g)) blocks)
          ++ skipn (Z.to_nat (Z.of_nat (Z.to_nat num_blocks) * blockSize g))
               buffer.
Proof.
  intros g inode dev offset num_blocks buffer Hg Ho.
  assert (E : snd (readData g inode dev offset num_blocks buffer)
              = snd (readData_blockwise g inode dev offset num_blocks buffer)).
  { rewrite readData_unfold. cbn [snd].
    rewrite (loop_blockwise g inode dev Hg offset num_blocks) by lia.
    now rewrite Z.sub_0_r. }
  split; [assumption|]. intros buffer' HD. rewrite E in HD.
  destruct (blockwise_concat g inode dev Hg offset (Z.to_nat num_blocks) 0
              buffer buffer' ltac:(lia) HD) as (blocks & HF & ->).
  exists blocks. rewrite Z.add_0_r in HF. split; [assumption|].
  rewrite Z.mul_0_l, Z.add_0_l. reflexivity.
Qed.

(** C9. Every device read that the block mapper issues starts at a
    physical block other than zero; and when no block of the request is
    mapped to block zero by its table, the assertion that guards this does
    not fire. *)
Theorem mapper_never_reads_block_zero :
  forall g inode dev offset num_blocks buffer,
    valid_geometry g -> 0 <= offset < 2 ^ 64 ->
    (forall sector count,
       In (ReadSectors sector count)
         (fst (readData g inode dev offset num_blocks buffer)) ->
       exists block, block <> 0 /\ sector = block * sectorsPerBlock g) /\
    ((forall L, offset <= L < offset + num_blocks ->
        physical_of g inode dev L <> Done 0) ->
     snd (readData g inode dev offset num_blocks buffer)
     <> Aborted HoleEncountered).
Proof.
  intros g inode dev offset num_blocks buffer Hg Ho.
  rewrite readData_unfold. cbn [fst snd]. split.
  - intros sector count [H|H]; [discriminate|].
    now apply (loop_reads_nonzero g inode dev Hg offset num_blocks
                 ltac:(lia) (Z.to_nat num_blocks) 0 buffer
                 ltac:(lia) ltac:(lia) ltac:(lia) sector count).
  - intros Hno.
    apply (loop_no_hole g inode dev Hg offset num_blocks ltac:(lia)); try lia.
    intros L HL. apply Hno. lia.
Qed.

(** ** The order-2 page-in handler *)

Section IndirectHandler.

Variable g : Geometry.

Variable inode : Inode.

Variable dev : Device.

Hypothesis Hg : valid_geometry g.

Lemma order2_size_pages : order2_size g = per_indirect g * page g.
Proof.
  unfold order2_size, per_indirect, page.
  pose proof (blockPagesShift_range g Hg). apply shiftl_mul. lia.
Qed.

(** An event within the order-2 cache names one of its [blockSize / 4]
    pages. *)
Lemma element_in_range offset :
  0 <= offset < order2_size g ->
  element_of g offset = offset / page g /\
  0 <= element_of g offset < per_indirect g.
Proof.
  intros H. rewrite order2_size_pages in H.
  pose proof (per_indirect_bounds g Hg) as Hp.
  pose proof (page_pos g Hg) as Hu.
  pose proof (blockPagesShift_range g Hg) as Hs.
  assert (Hq : 0 <= offset / page g < per_indirect g).
  { split; [apply Z.div_pos; lia|]. apply Z.div_lt_upper_bound; lia. }
  unfold element_of. rewrite shiftr_div by lia. fold (page g).
  rewrite WordFacts.u32_small by (change (2 ^ 32) with 4294967296; lia).
  split; [reflexivity|assumption].
Qed.

(** The handler's steps behind the choice of the block. *)
Lemma load_block_eq memory offset length t block :
  load_block g dev memory offset length (t, Done block)
  = if (offset mod page g =? 0) && (length =? page g)
    then (t ++ [MapMemory memory offset length;
                ReadSectors (sector_of g block) (sectorsPerBlock g);
                CompleteLoad memory offset length],
          Done (fill length (readSectors dev (sector_of g block)
                               (sectorsPerBlock g))))
    else (t, Aborted MultiPageBlock).
Proof.
  pose proof (blockPagesShift_range g Hg) as Hs.
  unfold load_block, bind, assertion, emit, ret, abort.
  rewrite mask_mod, (page_shift g Hg) by lia. fold (page g).
  destruct (offset mod page g =? 0); simpl.
  - destruct (length =? page g); simpl; [reflexivity|].
    now rewrite app_nil_r.
  - now rewrite app_nil_r.
Qed.

(** The whole iteration of the order-2 handler on an event within its
    cache. *)
Lemma manageIndirect2_eq offset length :
  0 <= offset < order2_size g ->
  let block :=
    u32_at (cached g dev (doubleIndirect inode)) (element_of g offset) in
  manageIndirect g inode dev 2 BackingOrder2 offset length
  = if (offset mod page g =? 0) && (length =? page g)
    then ([LockMemory IndirectOrder1 (1 * page g) (page g);
           MapMemory IndirectOrder1 (1 * page g) (page g);
           MapMemory BackingOrder2 offset length;
           ReadSectors (sector_of g block) (sectorsPerBlock g);
           CompleteLoad BackingOrder2 offset length],
          Done (fill length (readSectors dev (sector_of g block)
                               (sectorsPerBlock g))))
    else ([LockMemory IndirectOrder1 (1 * page g) (page g);
           MapMemory IndirectOrder1 (1 * page g) (page g)],
          Aborted MultiPageBlock).
Proof.
  intros H block. destruct (element_in_range offset H) as [_ He].
  unfold manageIndirect.
  change (2 =? 1) with false. cbv iota.
  change (assertion (2 =? 2) UnexpectedOrder) with (ret (A := unit) tt).
  rewrite bind_ret_l, (order2_block_slot g inode dev Hg) by assumption.
  rewrite load_block_eq. reflexivity.
Qed.

End IndirectHandler.

(** C10. The order-2 cache is created with [blockSize / 4] pages, so every
    manage event within it has an element below [blockSize / 4], the first
    level computed from it is zero, and the only lock that the order-2
    handler takes is on slot 1 of [indirectOrder1], the double-indirect
    root: slots 0 and 2 are not locked by it. *)
Theorem order2_handler_locks_slot_1_only :
  forall g inode dev offset length,
    valid_geometry g -> 0 <= offset < order2_size g ->
    order2_size g = blockSize g / 4 * page g /\
    element_of g offset = Z.shiftr offset (blockPagesShift g) /\
    element_of g offset < blockSize g / 4 /\
    blockSize g / 4 = 2 ^ (blockShift g - 2) /\
    Z.shiftr (element_of g offset) (blockShift g - 2) = 0 /\
    In (LockMemory IndirectOrder1 (1 * page g) (page g))
      (fst (manageIndirect g inode dev 2 BackingOrder2 offset length)) /\
    forall obj off len,
      In (LockMemory obj off len)
        (fst (manageIndirect g inode dev 2 BackingOrder2 offset length)) ->
      obj = IndirectOrder1 /\ off = 1 * page g /\ len = page g.
Proof.
  intros g inode dev offset length Hg Ho.
  destruct (element_in_range g Hg offset Ho) as [He Hr].
  pose proof (blockShift_range g Hg) as Hs.
  pose proof (blockPagesShift_range g Hg) as Hp.
  split; [apply (order2_size_pages g Hg)|].
  split; [rewrite He, shiftr_div by lia; reflexivity|].
  split; [apply Hr|].
  split; [apply (per_indirect_pow g Hg)|].
  split.
  { rewrite shiftr_div by lia. apply Z.div_small.
    now rewrite <- (per_indirect_eq g Hg). }
  rewrite (manageIndirect2_eq g inode dev Hg offset length Ho).
  destruct (_ && _); cbn [fst]; (split; [now left|]);
    intros obj off len H; simpl in H;
    repeat (destruct H as [H|H]; [try discriminate; now injection H as <- <- <-|]);
    contradiction.
Qed.

(** C6, amended. Take a manage event whose offset lies within the
    order-2 cache, [0 <= offset < order2_size].  The order-2 handler locks
    and maps one page of [indirectOrder1] at [(1 + first_level) * page] and
    takes the entry at [within_first] of it as the disk block.  When the
    offset is page-aligned and the length is one page, and the sector
    numbers of the double-indirect block and of that disk block, each the
    block number times [sectorsPerBlock], are below [2 ^ 32] (where the
    product of the code is the same in 32 and in 64 bits), it issues one
    read of [sectorsPerBlock] sectors at that disk block times
    [sectorsPerBlock], and then completes the load.  On any other event
    within the cache it stops at its assertion behind the lock, with no
    read and no completion. *)
Theorem order2_handler_serves_one_page :
  forall g inode dev offset length,
    valid_geometry g -> 0 <= offset < order2_size g ->
    let element := Z.shiftr offset (blockPagesShift g) in
    let first_level := Z.shiftr element (blockShift g - 2) in
    let within_first := Z.land element (Z.shiftl 1 (blockShift g - 2) - 1) in
    let slot := (1 + first_level) * page g in
    exists table,
      indirectOrder1_content g inode dev slot (page g) = Done table /\
      let block := u32_at table within_first in
      ((offset mod page g =? 0) && (length =? page g) = true ->
       doubleIndirect inode * sectorsPerBlock g < 2 ^ 32 ->
       block * sectorsPerBlock g < 2 ^ 32 ->
       manageIndirect g inode dev 2 BackingOrder2 offset length
       = ([LockMemory IndirectOrder1 slot (page g);
           MapMemory IndirectOrder1 slot (page g);
           MapMemory BackingOrder2 offset length;
           ReadSectors (block * sectorsPerBlock g) (sectorsPerBlock g);
           CompleteLoad BackingOrder2 offset length],
          Done (fill length
                  (readSectors dev (block * sectorsPerBlock g)
                     (sectorsPerBlock g))))) /\
      ((offset mod page g =? 0) && (length =? page g) = false ->
       manageIndirect g inode dev 2 BackingOrder2 offset length
       = ([LockMemory IndirectOrder1 slot (page g);
           MapMemory IndirectOrder1 slot (page g)],
          Aborted MultiPageBlock)).
Proof.
  intros g inode dev offset length Hg Ho element first_level within_first slot.
  destruct (element_in_range g Hg offset Ho) as [He Hr].
  pose proof (blockShift_range g Hg) as Hs.
  pose proof (blockPagesShift_range g Hg) as Hp.
  assert (Ee : element = element_of g offset).
  { unfold element. rewrite He. apply shiftr_div. lia. }
  assert (Ef : first_level = 0).
  { unfold first_level. rewrite Ee, shiftr_div by lia. apply Z.div_small.
    now rewrite <- (per_indirect_eq g Hg). }
  assert (Ew : within_first = element_of g offset).
  { unfold within_first. rewrite Ee, mask_mod by lia.
    apply Z.mod_small. now rewrite <- (per_indirect_eq g Hg). }
  assert (Es : slot = 1 * page g) by (unfold slot; rewrite Ef; lia).
  exists (cached g dev (doubleIndirect inode)). split.
  - rewrite Es. apply (order1_slot g inode dev Hg 1). lia.
  - cbv zeta. rewrite Es, Ew.
    rewrite (manageIndirect2_eq g inode dev Hg offset length Ho).
    rewrite sector_of_small by (assumption || apply u32_at_range).
    split; intros ->; reflexivity.
Qed.

(** ** Further properties of the block mapper and of the indirect caches *)

Lemma readSectors_nth dev s c k :
  0 <= k < c * 512 ->
  nth (Z.to_nat k) (readSectors dev s c) x00 = dev (s * 512 + k).
Proof.
  intros H. unfold readSectors.
  rewrite (nth_indep _ x00 (dev 0)) by (rewrite length_map, zseq_length; lia).
  rewrite map_nth. rewrite zseq_nth by lia. f_equal. lia.
Qed.

Section Pointers.

Variable g : Geometry.

Variable inode : Inode.

Variable dev : Device.

Hypothesis Hg : valid_geometry g.

Lemma cached_load8 block a :
  0 <= block < 2 ^ 32 -> 0 <= a < blockSize g ->
  load8 (cached g dev block) a = byte_val (dev (block * blockSize g + a)).
Proof.
  intros Hb Ha. unfold load8, cached, fill.
  rewrite (sector_of_small g Hg) by assumption.
  rewrite app_nth1
    by (rewrite readSectors_length, (sectorsPerBlock_bytes g Hg); lia).
  rewrite readSectors_nth by (rewrite (sectorsPerBlock_bytes g Hg); lia).
  do 2 f_equal. rewrite <- (sectorsPerBlock_bytes g Hg). lia.
Qed.

Lemma cached_pointer block i :
  0 <= block < 2 ^ 32 -> 0 <= i < per_indirect g ->
  u32_at (cached g dev block) i = pointer_at g dev block i.
Proof.
  intros Hb Hi. unfold u32_at, le32, pointer_at, disk_u32.
  assert (Hbs : 4 * per_indirect g = blockSize g).
  { unfold per_indirect. rewrite (per_indirect_pow g Hg), (blockSize_pow g Hg).
    pose proof (blockShift_range g Hg).
    replace (blockShift g) with (2 + (blockShift g - 2)) at 2 by lia.
    rewrite Z.pow_add_r by lia. reflexivity. }
  rewrite !cached_load8 by (assumption || lia).
  rewrite !Z.add_assoc. reflexivity.
Qed.

End Pointers.

(** X10. The physical block that the mapper takes for a logical block
    behind the direct ones is the one that the pointers on the medium lead
    to: entry [L - 12] of the block [singleIndirect] below [s_range]; and
    below [d_range] the entry [(L - s_range) mod per_indirect] of the leaf
    that entry [(L - s_range) / per_indirect] of the block
    [doubleIndirect] names.  The page-in handlers of the two indirect
    caches deliver these blocks, as long as the sector number of each
    indirect block on the way (its block number times [sectorsPerBlock])
    is below [2 ^ 32], where the product of the handler is the same in 32
    and in 64 bits. *)
Theorem mapper_follows_pointers_on_disk :
  forall g inode dev L remaining,
    valid_geometry g ->
    (12 <= L < s_range g ->
     singleIndirect inode * sectorsPerBlock g < 2 ^ 32 ->
     exists n,
       snd (issue_at g inode dev L remaining)
       = Done (pointer_at g dev (singleIndirect inode) (L - 12), n)) /\
    (s_range g <= L < d_range g ->
     let first := (L - s_range g) / per_indirect g in
     let second := (L - s_range g) mod per_indirect g in
     let leaf := pointer_at g dev (doubleIndirect inode) first in
     doubleIndirect inode * sectorsPerBlock g < 2 ^ 32 ->
     leaf * sectorsPerBlock g < 2 ^ 32 ->
     exists n,
       snd (issue_at g inode dev L remaining)
       = Done (pointer_at g dev leaf second, n)).
Proof.
  intros g inode dev L remaining Hg.
  pose proof (ranges_ordered g Hg) as Hr.
  split; intros HL; [intros _|intros first second leaf _ _; revert leaf; intros leaf].
  - destruct (issue_at_spec g inode dev Hg L remaining ltac:(lia))
      as (table & HT & HI).
    rewrite HI. cbn [snd]. unfold Fusion.fuse. eexists. do 2 f_equal.
    unfold table_of, position_of in *.
    destruct (bucket_cases g Hg L ltac:(lia))
      as [[HB EB]|[[HB EB]|[[HB EB]|[HB EB]]]]; try lia; rewrite EB in *.
    rewrite (order1_slot g inode dev Hg 0) in HT by lia.
    injection HT as <-. unfold root_of. cbn.
    apply (cached_pointer g dev Hg); [apply u32_at_range|].
    unfold s_range in HB. lia.
  - destruct (issue_at_spec g inode dev Hg L remaining ltac:(lia))
      as (table & HT & HI).
    rewrite HI. cbn [snd]. unfold Fusion.fuse. eexists. do 2 f_equal.
    unfold table_of, position_of in *.
    destruct (bucket_cases g Hg L ltac:(lia))
      as [[HB EB]|[[HB EB]|[[HB EB]|[HB EB]]]]; try lia; rewrite EB in *.
    destruct (double_split g Hg L HB) as [Hq Hm].
    rewrite (order2_slot g inode dev Hg) in HT by assumption.
    injection HT as <-.
    rewrite (cached_pointer g dev Hg (doubleIndirect inode))
      by (apply u32_at_range || assumption).
    fold first. fold leaf.
    apply (cached_pointer g dev Hg).
    + unfold leaf, pointer_at, disk_u32.
      pose proof (byte_val_range (dev (doubleIndirect inode * blockSize g + 4 * first))).
      pose proof (byte_val_range (dev (doubleIndirect inode * blockSize g + 4 * first + 1))).
      pose proof (byte_val_range (dev (doubleIndirect inode * blockSize g + 4 * first + 2))).
      pose proof (byte_val_range (dev (doubleIndirect inode * blockSize g + 4 * first + 3))).
      change (2 ^ 8) with 256. change (2 ^ 16) with 65536.
      change (2 ^ 24) with 16777216. change (2 ^ 32) with 4294967296. lia.
    + assumption.
Qed.

(** X9. An iteration of the order-1 handler on an event within the first
    three page-in units reads the block that [singleIndirect],
    [doubleIndirect] or [tripleIndirect] names, in one device read of one
    block, and completes the load, when the event is aligned and one unit
    long and the sector number of that block (the block number times
    [sectorsPerBlock]) is below [2 ^ 32], where the product of the code is
    the same in 32 and in 64 bits; it stops at the "multi-page blocks"
    assertion when the event is not aligned or not one unit long.  Behind
    the third unit it stops at "unexpected offset".  It never takes a
    lock. *)
Theorem order1_handler_serves_roots :
  forall g inode dev offset length,
    valid_geometry g -> 0 <= offset < 2 ^ 32 * page g ->
    let slot := offset / page g in
    let sector := root_of inode slot * sectorsPerBlock g in
    let one_unit := (offset mod page g =? 0) && (length =? page g) in
    (3 <= slot ->
     manageIndirect g inode dev 1 BackingOrder1 offset length
     = ([], Aborted UnexpectedOffset)) /\
    (slot < 3 -> one_unit = false ->
     manageIndirect g inode dev 1 BackingOrder1 offset length
     = ([], Aborted MultiPageBlock)) /\
    (slot < 3 -> one_unit = true -> sector < 2 ^ 32 ->
     manageIndirect g inode dev 1 BackingOrder1 offset length
     = ([MapMemory BackingOrder1 offset length;
         ReadSectors sector (sectorsPerBlock g);
         CompleteLoad BackingOrder1 offset length],
        Done (fill length (readSectors dev sector (sectorsPerBlock g))))).
Proof.
  intros g inode dev offset length Hg Ho slot sector one_unit.
  enough (Hall : manageIndirect g inode dev 1 BackingOrder1 offset length
    = if 3 <=? slot then ([], Aborted UnexpectedOffset)
      else if one_unit
      then ([MapMemory BackingOrder1 offset length;
             ReadSectors sector (sectorsPerBlock g);
             CompleteLoad BackingOrder1 offset length],
            Done (fill length (readSectors dev sector (sectorsPerBlock g))))
      else ([], Aborted MultiPageBlock)).
  { rewrite Hall. repeat split.
    - intros H. destruct (Z.leb_spec 3 slot); [reflexivity|lia].
    - intros H ->. destruct (Z.leb_spec 3 slot); [lia|reflexivity].
    - intros H -> _. destruct (Z.leb_spec 3 slot); [lia|reflexivity]. }
  unfold one_unit. clear one_unit.
  pose proof (page_pos g Hg) as Hp.
  pose proof (blockPagesShift_range g Hg) as Hs.
  assert (Hslot : 0 <= slot < 2 ^ 32).
  { unfold slot. split; [apply Z.div_pos; lia|].
    apply Z.div_lt_upper_bound; lia. }
  assert (Ee : element_of g offset = slot).
  { unfold element_of. rewrite shiftr_div by lia. fold (page g).
    now apply WordFacts.u32_small. }
  unfold manageIndirect. change (1 =? 1) with true. cbv iota.
  rewrite Ee. unfold order1_block.
  destruct (Z.leb_spec 3 slot) as [H3|H3].
  - destruct (Z.eqb_spec slot 0); [lia|].
    destruct (Z.eqb_spec slot 1); [lia|].
    destruct (Z.eqb_spec slot 2); [lia|]. reflexivity.
  - assert (E : (if slot =? 0 then ret (singleIndirect inode)
                 else if slot =? 1 then ret (doubleIndirect inode)
                 else if slot =? 2 then ret (tripleIndirect inode)
                 else abort UnexpectedOffset)
                = ([], Done (root_of inode slot))).
    { unfold root_of.
      destruct (Z.eqb_spec slot 0); [reflexivity|].
      destruct (Z.eqb_spec slot 1); [reflexivity|].
      destruct (Z.eqb_spec slot 2); [reflexivity|lia]. }
    rewrite E, (load_block_eq g dev Hg).
    rewrite (sector_of_small g Hg).
    + reflexivity.
    + unfold root_of.
      destruct (slot =? 0); [apply u32_at_range|].
      destruct (slot =? 1); apply u32_at_range.
Qed.

(** X11. Every lock that the block mapper takes is one page-in unit long
    and lies within the indirect cache it is taken on, as [initiateInode]
    sizes the caches: unit 0 of [indirectOrder1], or a whole unit of
    [indirectOrder2] below its [blockSize / 4] units. *)
Theorem mapper_locks_within_indirect_caches :
  forall g inode dev offset num_blocks buffer obj off len,
    valid_geometry g -> 0 <= offset < 2 ^ 64 ->
    In (LockMemory obj off len)
      (fst (readData g inode dev offset num_blocks buffer)) ->
    len = page g /\
    ((obj = IndirectOrder1 /\ off = 0 /\ off + len <= order1_size g) \/
     (obj = IndirectOrder2 /\ 0 <= off /\ off mod page g = 0 /\
      off + len <= order2_size g)).
Proof.
  intros g inode dev offset num_blocks buffer obj off len Hg Ho.
  rewrite (readData_unfold g inode dev). cbn [fst].
  intros [H|H]; [discriminate|]. revert H.
  pose proof (page_pos g Hg) as Hp.
  pose proof (blockPagesShift_range g Hg) as Hs.
  assert (Hacc : forall L, 0 <= L ->
            In (LockMemory obj off len) (access_of g L) ->
            len = page g /\
            ((obj = IndirectOrder1 /\ off = 0 /\ off + len <= order1_size g) \/
             (obj = IndirectOrder2 /\ 0 <= off /\ off mod page g = 0 /\
              off + len <= order2_size g))).
  { intros L HL. unfold access_of.
    destruct (bucket_cases g Hg L HL)
      as [[HB EB]|[[HB EB]|[[HB EB]|[HB EB]]]]; rewrite EB; simpl.
    - intros [].
    - intros [H|[H|[]]]; [|discriminate]. injection H as <- <- <-.
      split; [reflexivity|]. left. split; [reflexivity|].
      split; [reflexivity|]. unfold order1_size.
      rewrite shiftl_mul by lia. fold (page g). lia.
    - destruct (double_split g Hg L HB) as [Hq _].
      intros [H|[H|[]]]; [|discriminate]. injection H as <- <- <-.
      split; [reflexivity|]. right. split; [reflexivity|].
      split; [lia|]. split; [apply Z.mod_mul; lia|].
      rewrite (order2_size_pages g Hg). nia.
    - intros []. }
  apply (loop_cases g inode dev Hg offset num_blocks ltac:(lia)
           (fun p _ m => In (LockMemory obj off len) (fst m) -> _));
    cbn [fst snd]; try lia.
  - intros _ _ _ [].
  - intros _ _ _ _ [].
  - intros p _ n Hq _. apply Hacc. lia.
  - intros p _ first n Hq _ _ _ H. apply in_app_or in H.
    destruct H as [H|[H|[]]]; [|discriminate]. revert H. apply Hacc. lia.
  - intros p _ first n _ rest Hq _ _ _ IH H. apply in_app_or in H.
    destruct H as [H|[H|H]]; [|discriminate|now apply IH].
    revert H. apply Hacc. lia.
Qed.

Lemma device_reads_app t1 t2 :
  device_reads (t1 ++ t2) = device_reads t1 ++ device_reads t2.
Proof. apply flat_map_app. Qed.

Lemma device_reads_access g L : device_reads (access_of g L) = [].
Proof. unfold access_of. destruct (bucket_of g L); reflexivity. Qed.

(** X12. The loop of [readData] comes to an end on every request, by
    returning or at an assertion, and issues no more device reads than
    blocks were asked for. *)
Theorem mapper_ends_within_one_read_per_block :
  forall g inode dev offset num_blocks buffer,
    valid_geometry g -> 0 <= offset < 2 ^ 64 ->
    snd (readData g inode dev offset num_blocks buffer) <> Aborted Diverged /\
    Z.of_nat (length (device_reads
                        (fst (readData g inode dev offset num_blocks buffer))))
    <= Z.max 0 num_blocks.
Proof.
  intros g inode dev offset num_blocks buffer Hg Ho.
  rewrite (readData_unfold g inode dev). cbn [fst snd]. split.
  - apply (loop_leaves g inode dev Hg offset num_blocks); lia.
  - change (device_reads (AwaitReady :: ?t)) with (device_reads t).
    replace (Z.max 0 num_blocks) with (Z.max 0 (num_blocks - 0))
      by (f_equal; lia).
    apply (loop_cases g inode dev Hg offset num_blocks ltac:(lia)
             (fun p _ m => Z.of_nat (length (device_reads (fst m)))
                           <= Z.max 0 (num_blocks - p)));
      cbn [fst snd]; try lia.
    + intros. simpl. lia.
    + intros. simpl. lia.
    + intros. rewrite device_reads_access. simpl. lia.
    + intros. rewrite device_reads_app, device_reads_access. simpl. lia.
    + intros p _ first n _ rest Hq R _ _ IH.
      destruct R as (_ & _ & Hn & _).
      rewrite device_reads_app, device_reads_access. simpl length. lia.
Qed.

(** X13. Where the blocks of a request have consecutive entries in one
    table (the direct array, the single-indirect block or one leaf) and
    the first entry is not zero, the whole request is served by a single
    device read of [num_blocks] blocks, behind the lock and the mapping of
    that table. *)
Theorem consecutive_blocks_are_read_at_once :
  forall g inode dev offset num_blocks buffer table,
    valid_geometry g -> 0 <= offset < d_range g -> 1 <= num_blocks ->
    table_of g inode dev offset = Done table ->
    position_of g offset + num_blocks <= limit_of g offset ->
    Fusion.contiguous table (position_of g offset) num_blocks ->
    u32_at table (position_of g offset) <> 0 ->
    fst (readData g inode dev offset num_blocks buffer)
    = AwaitReady
        :: access_of g offset
        ++ [ReadSectors
              (u32_at table (position_of g offset) * sectorsPerBlock g)
              (num_blocks * sectorsPerBlock g)].
Proof.
  intros g inode dev offset num_blocks buffer table Hg Ho Hn HT Hlim Hc Hnz.
  pose proof (ranges_ordered g Hg) as Hr.
  rewrite (readData_unfold g inode dev). cbn [fst]. f_equal.
  destruct (run_exists g inode dev Hg offset num_blocks Ho)
    as (first & n & R).
  destruct (issue_at_spec g inode dev Hg offset num_blocks Ho)
    as (table' & HT' & HI).
  rewrite HT in HT'. injection HT' as <-.
  pose proof R as (HI' & _).
  rewrite HI in HI'.
  assert (HF : Fusion.fuse (position_of g offset) num_blocks table
                 (limit_of g offset) = (first, n)) by congruence.
  pose proof (position_range g Hg offset Ho) as Hpos.
  pose proof (FusionFacts.fuse_spec (position_of g offset) num_blocks table
                (limit_of g offset) ltac:(lia) (limit_small g Hg offset)) as S.
  rewrite HF in S. destruct S as (-> & H1 & _ & Hstop & Hb).
  assert (En : n = num_blocks).
  { destruct (Z.eq_dec n 1) as [->|Hne].
    - destruct Hstop as [H|[H|H]]; try lia.
      destruct (Z.eq_dec num_blocks 1); [lia|].
      exfalso. apply H. apply Hc. lia.
    - destruct (Hb ltac:(lia)) as [Hle _].
      destruct Hstop as [H|[H|H]]; try lia.
      destruct (Z.eq_dec n num_blocks); [assumption|].
      exfalso. apply H. apply Hc. lia. }
  subst n.
  replace (Z.to_nat num_blocks) with (S (Z.to_nat (num_blocks - 1))) by lia.
  replace offset with (offset + 0) in R by lia.
  replace num_blocks with (num_blocks - 0) in R at 1 by lia.
  rewrite (loop_step g inode dev Hg _ offset num_blocks 0 buffer _ _
             ltac:(lia) ltac:(lia) ltac:(lia) R).
  rewrite Z.add_0_r.
  destruct (Z.eqb_spec (u32_at table (position_of g offset)) 0);
    [contradiction|].
  cbv zeta. destruct (store _ _ _) as [buffer'|]; [|reflexivity].
  assert (E : readData_loop g inode dev (Z.to_nat (num_blocks - 1)) offset
                num_blocks (0 + num_blocks) buffer' = ret buffer').
  { rewrite Z.add_0_l.
    destruct (Z.to_nat (num_blocks - 1)); simpl; now rewrite Z.ltb_irrefl. }
  rewrite E. reflexivity.
Qed.

(** X14. A request that reaches past the double-indirect range never
    returns: [readData] stops at an assertion, which is the one on
    [index < d_range] unless a hole or the end of the buffer is met
    first. *)
Theorem request_past_double_indirect_is_refused :
  forall g inode dev offset num_blocks buffer,
    valid_geometry g -> 0 <= offset < 2 ^ 64 -> 0 < num_blocks ->
    d_range g < offset + num_blocks ->
    exists e,
      snd (readData g inode dev offset num_blocks buffer) = Aborted e /\
      (e = TripleIndirect \/ e = HoleEncountered \/ e = WindowFault).
Proof.
  intros g inode dev offset num_blocks buffer Hg Ho Hn Hd.
  rewrite (readData_unfold g inode dev). cbn [snd].
  apply (loop_cases g inode dev Hg offset num_blocks ltac:(lia)
           (fun p _ m =>
              p = 0 \/ offset + p <= d_range g ->
              exists e, snd m = Aborted e /\
                (e = TripleIndirect \/ e = HoleEncountered \/ e = WindowFault)));
    cbn [fst snd]; try lia.
  - intros. eexists. split; [reflexivity|]. now left.
  - intros. eexists. split; [reflexivity|]. right. now left.
  - intros. eexists. split; [reflexivity|]. right. now right.
  - intros p _ first n _ rest Hp R _ _ IH _. apply IH.
    destruct R as (_ & _ & _ & _ & Hend & _). right. lia.
Qed.

(** X15. A request within the double-indirect range and within its
    buffer, one of whose blocks is mapped to block zero, is refused:
    [readData] stops at the assertion [issue.first != 0] and does not
    return. *)
Theorem hole_in_request_is_refused :
  forall g inode dev offset num_blocks buffer L,
    valid_geometry g -> 0 <= offset -> offset + num_blocks <= d_range g ->
    num_blocks * blockSize g <= Z.of_nat (length buffer) ->
    offset <= L < offset + num_blocks ->
    physical_of g inode dev L = Done 0 ->
    snd (readData g inode dev offset num_blocks buffer)
    = Aborted HoleEncountered.
Proof.
  intros g inode dev offset num_blocks buffer L Hg Ho Hd Hroom HL HP.
  pose proof (ranges_ordered g Hg) as Hr.
  pose proof (blockSize_pos g Hg) as Hbs.
  rewrite (readData_unfold g inode dev). cbn [snd].
  apply (loop_cases g inode dev Hg offset num_blocks Ho
           (fun p buf m =>
              offset + p <= L -> length buf = length buffer ->
              snd m = Aborted HoleEncountered));
    cbn [fst snd]; try lia; try reflexivity.
  - intros p buf first n Hp R Hnz ES _ Hlen. exfalso.
    destruct R as (_ & _ & Hn & Hrem & _).
    assert (Hle : n <= num_blocks - p)
      by (destruct (Z.eq_dec n 1); [lia | apply Hrem; lia]).
    unfold store in ES.
    rewrite readSectors_length in ES.
    replace (n * sectorsPerBlock g * 512) with (n * blockSize g) in ES
      by (rewrite <- (sectorsPerBlock_bytes g Hg); lia).
    destruct (Z.leb_spec 0 (p * blockSize g)); [|nia].
    destruct (Z.leb_spec (p * blockSize g + Z.of_nat (Z.to_nat (n * blockSize g)))
                (Z.of_nat (length buf))); [discriminate|].
    rewrite Hlen in *. nia.
  - intros p buf first n buf' rest Hp R Hnz ES IH HpL Hlen.
    apply IH; [|rewrite (store_length _ _ _ _ ES); assumption].
    destruct R as (_ & Hf & Hn & _ & _ & _ & Hk).
    destruct (Z_lt_le_dec L (offset + p + n)) as [Hin|]; [|lia]. exfalso.
    destruct (Hk (L - (offset + p)) ltac:(lia)) as [E _].
    replace (offset + p + (L - (offset + p))) with L in E by lia.
    rewrite HP in E. injection E as E. lia.
Qed.

(** Where the buffer has room for the request, no read of the loop leaves
    it, and the bytes behind the request stay as they were. *)
Lemma loop_within_buffer g inode dev offset num_blocks buffer :
  valid_geometry g -> 0 <= offset < 2 ^ 64 ->
  num_blocks * blockSize g <= Z.of_nat (length buffer) ->
  let result := snd (readData_loop g inode dev (Z.to_nat num_blocks) offset
                       num_blocks 0 buffer) in
  result <> Aborted WindowFault /\
  forall buffer',
    result = Done buffer' ->
    length buffer' = length buffer /\
    skipn (Z.to_nat (num_blocks * blockSize g)) buffer'
    = skipn (Z.to_nat (num_blocks * blockSize g)) buffer.
Proof.
  intros Hg Ho Hroom. cbv zeta.
  pose proof (blockSize_pos g Hg) as Hbs.
  pose proof (sectorsPerBlock_pos g Hg) as Hspb.
  apply (loop_cases g inode dev Hg offset num_blocks ltac:(lia)
           (fun p buf m =>
              length buf = length buffer ->
              snd m <> Aborted WindowFault /\
              forall buffer',
                snd m = Done buffer' ->
                length buffer' = length buffer /\
                skipn (Z.to_nat (num_blocks * blockSize g)) buffer'
                = skipn (Z.to_nat (num_blocks * blockSize g)) buf));
    cbn [fst snd]; try lia; try reflexivity.
  - intros p buf Hp Hlen. split; [discriminate|].
    intros buffer' [= <-]. now split.
  - intros. split; discriminate.
  - intros. split; discriminate.
  - intros p buf first n Hp R Hnz ES Hlen. exfalso.
    destruct R as (_ & _ & Hn & Hrem & _).
    assert (Hle : n <= num_blocks - p)
      by (destruct (Z.eq_dec n 1); [lia | apply Hrem; lia]).
    unfold store in ES.
    rewrite readSectors_length in ES.
    replace (n * sectorsPerBlock g * 512) with (n * blockSize g) in ES
      by (rewrite <- (sectorsPerBlock_bytes g Hg); lia).
    destruct (Z.leb_spec 0 (p * blockSize g)); [|nia].
    destruct (Z.leb_spec (p * blockSize g + Z.of_nat (Z.to_nat (n * blockSize g)))
                (Z.of_nat (length buf))); [discriminate|].
    rewrite Hlen in *. nia.
  - intros p buf first n buf' rest Hp R Hnz ES IH Hlen.
    destruct R as (_ & _ & Hn & Hrem & _).
    assert (Hle : n <= num_blocks - p)
      by (destruct (Z.eq_dec n 1); [lia | apply Hrem; lia]).
    pose proof (store_length _ _ _ _ ES) as Hl'.
    destruct (IH ltac:(congruence)) as [I1 I2]. split; [assumption|].
    intros buffer' HD. destruct (I2 buffer' HD) as [J1 J2].
    split; [assumption|]. rewrite J2.
    destruct (store_shape _ _ _ _ ES) as (_ & _ & S2).
    rewrite readSectors_length in S2.
    replace (n * sectorsPerBlock g * 512) with (n * blockSize g) in S2
      by (rewrite <- (sectorsPerBlock_bytes g Hg); lia).
    specialize (S2 (Z.to_nat ((num_blocks - p - n) * blockSize g))).
    replace (Z.to_nat (p * blockSize g) + Z.to_nat (n * blockSize g)
             + Z.to_nat ((num_blocks - p - n) * blockSize g))%nat
      with (Z.to_nat (num_blocks * blockSize g)) in S2 by nia.
    exact S2.
Qed.

(** X16. Where the buffer holds [num_blocks] blocks, no device read of
    [readData] is delivered outside it; when [readData] returns, the
    buffer has its length and the bytes behind the blocks asked for are
    as they were. *)
Theorem mapper_stays_within_its_buffer :
  forall g inode dev offset num_blocks buffer,
    valid_geometry g -> 0 <= offset < 2 ^ 64 ->
    num_blocks * blockSize g <= Z.of_nat (length buffer) ->
    snd (readData g inode dev offset num_blocks buffer) <> Aborted WindowFault /\
    forall buffer',
      snd (readData g inode dev offset num_blocks buffer) = Done buffer' ->
      length buffer' = length buffer /\
      skipn (Z.to_nat (num_blocks * blockSize g)) buffer'
      = skipn (Z.to_nat (num_blocks * blockSize g)) buffer.
Proof.
  intros g inode dev offset num_blocks buffer Hg Ho Hroom.
  rewrite (readData_unfold g inode dev). cbn [snd].
  now apply loop_within_buffer.
Qed.

(** ** The file-data page-in handler *)

Lemma cache_size_roundup fileSize :
  cache_size fileSize = 4096 * ((fileSize + 4095) / 4096).
Proof.
  unfold cache_size. rewrite <- Z.ldiff_land.
  change 0xFFF with (Z.ones 12). rewrite Z.ldiff_ones_r by lia.
  rewrite shiftr_div, shiftl_mul by lia. change (Z.ones 12) with 4095.
  change (2 ^ 12) with 4096. lia.
Qed.

(** The number of blocks that the handler computes is the ceiling of
    [read_size / blockSize]. *)
Lemma cache_size_covers fileSize :
  0 <= fileSize -> fileSize <= cache_size fileSize.
Proof.
  intros H. rewrite cache_size_roundup.
  pose proof (Z.div_mod (fileSize + 4095) 4096 ltac:(lia)).
  pose proof (Z.mod_pos_bound (fileSize + 4095) 4096 ltac:(lia)). lia.
Qed.

(** A manage event of whole pages within the page cache starts before the
    end of the file. *)
Lemma page_event_within_file fileSize offset length :
  0 <= fileSize -> 0 <= offset -> 0 < length ->
  offset mod 4096 = 0 -> length mod 4096 = 0 ->
  offset + length <= cache_size fileSize ->
  offset < fileSize.
Proof.
  intros Hf Ho Hl Eo El Hin. rewrite cache_size_roundup in Hin.
  pose proof (Z.div_mod offset 4096 ltac:(lia)) as Do.
  pose proof (Z.div_mod length 4096 ltac:(lia)) as Dl.
  pose proof (Z.div_mod (fileSize + 4095) 4096 ltac:(lia)) as Df.
  pose proof (Z.mod_pos_bound (fileSize + 4095) 4096 ltac:(lia)) as Bf.
  lia.
Qed.

Lemma blocks_ceiling read_size size :
  0 < size -> 0 <= read_size ->
  (if negb (read_size mod size =? 0)
   then read_size / size + 1 else read_size / size)
  = (read_size + size - 1) / size.
Proof.
  intros Hs Hr.
  pose proof (Z.div_mod read_size size ltac:(lia)) as D.
  pose proof (Z.mod_pos_bound read_size size Hs) as B.
  destruct (Z.eqb_spec (read_size mod size) 0) as [E|E]; simpl.
  - apply Z.div_unique with (r := size - 1); lia.
  - apply Z.div_unique with (r := read_size mod size - 1); lia.
Qed.

(** C5. On a manage event [(offset, length)] within the page cache, at or
    before the end of the file, the file-data handler takes
    [read_size = min(length, fileSize - offset)] and
    [num_blocks = ceil(read_size / blockSize)], stops unless
    [offset % blockSize == 0] and [num_blocks * blockSize <= length],
    calls the block mapper for [num_blocks] blocks from block
    [offset / blockSize] into the mapped window and, when the mapper
    returns, completes the load over [offset, offset + length) and
    unmaps. *)
Theorem file_handler_serves_event :
  forall g inode dev offset length,
    valid_geometry g ->
    0 <= fileSize inode < 2 ^ 32 ->
    0 <= offset <= fileSize inode -> 0 <= length ->
    offset + length <= cache_size (fileSize inode) ->
    let read_size := Z.min length (fileSize inode - offset) in
    let num_blocks := (read_size + blockSize g - 1) / blockSize g in
    let window := repeat x00 (Z.to_nat length) in
    manageFileData g inode dev offset length
    = if negb (offset mod blockSize g =? 0)
      then ([MapMemory BackingMemory offset length], Aborted BlockMisaligned)
      else if negb (num_blocks * blockSize g <=? length)
      then ([MapMemory BackingMemory offset length], Aborted WindowTooSmall)
      else
        match readData g inode dev (offset / blockSize g) num_blocks window
        with
        | (trace, Done window') =>
            (MapMemory BackingMemory offset length
               :: trace ++ [CompleteLoad BackingMemory offset length;
                            UnmapMemory BackingMemory offset length],
             Done window')
        | (trace, Aborted e) =>
            (MapMemory BackingMemory offset length :: trace, Aborted e)
        end.
Proof.
  intros g inode dev offset length Hg Hfs Ho Hl Hin read_size num_blocks window.
  pose proof (blockSize_pos g Hg) as Hbs.
  assert (Hbs' : blockSize g <= 65536).
  { rewrite (blockSize_pow g Hg). pose proof (blockShift_range g Hg).
    change 65536 with (2 ^ 16). apply Z.pow_le_mono_r; lia. }
  assert (Hcs : cache_size (fileSize inode) <= fileSize inode + 4095).
  { rewrite cache_size_roundup.
    pose proof (Z.mul_div_le (fileSize inode + 4095) 4096 ltac:(lia)). lia. }
  change (2 ^ 32) with 4294967296 in Hfs.
  unfold manageFileData. cbv zeta.
  rewrite (WordFacts.u64_small (offset + length))
    by (change (2 ^ 64) with 18446744073709551616; lia).
  destruct (Z.leb_spec (offset + length) (cache_size (fileSize inode)));
    [|lia].
  change (assertion true ManageOutOfRange) with (ret (A := unit) tt).
  rewrite bind_ret_l.
  rewrite (WordFacts.u64_small (fileSize inode - offset))
    by (change (2 ^ 64) with 18446744073709551616; lia).
  fold read_size.
  assert (Hrs : 0 <= read_size <= length) by (unfold read_size; lia).
  assert (Hq : 0 <= read_size / blockSize g <= read_size).
  { split; [apply Z.div_pos; lia|].
    apply Z.div_le_upper_bound; [lia|]. nia. }
  assert (Hrs' : read_size <= 4294967296) by (unfold read_size; lia).
  rewrite (WordFacts.u64_small (read_size / blockSize g + 1))
    by (change (2 ^ 64) with 18446744073709551616; lia).
  rewrite (blocks_ceiling read_size (blockSize g)) by lia.
  fold num_blocks.
  assert (Hnb : 0 <= num_blocks <= 4294967296).
  { unfold num_blocks. split; [apply Z.div_pos; lia|].
    apply Z.div_le_upper_bound; [lia|]. nia. }
  rewrite (WordFacts.u64_small (num_blocks * blockSize g))
    by (change (2 ^ 64) with 18446744073709551616; nia).
  unfold bind at 1. cbn [emit].
  destruct (offset mod blockSize g =? 0); cbn [negb assertion].
  2:{ reflexivity. }
  rewrite bind_ret_l.
  destruct (num_blocks * blockSize g <=? length); cbn [negb assertion].
  2:{ reflexivity. }
  rewrite bind_ret_l. fold window.
  destruct (readData g inode dev (offset / blockSize g) num_blocks window)
    as [trace [window'|e]]; reflexivity.
Qed.

(** *** Further properties of the file-data handler *)

(** X8. The size [(fileSize + 0xFFF) & ~0xFFF] that [initiateInode] gives
    the page cache of a file, and that [findEntry], [readEntries] and
    [manageFileData] lock, map and check against, is the least multiple of
    the page size that covers the file. *)
Theorem page_cache_is_least_cover_of_file :
  forall fileSize,
    0 <= fileSize ->
    cache_size fileSize mod pageSize = 0 /\
    fileSize <= cache_size fileSize < fileSize + pageSize /\
    forall size,
      size mod pageSize = 0 -> fileSize <= size -> cache_size fileSize <= size.
Proof.
  intros fileSize H. rewrite cache_size_roundup. change pageSize with 4096.
  pose proof (Z.div_mod (fileSize + 4095) 4096 ltac:(lia)) as D.
  pose proof (Z.mod_pos_bound (fileSize + 4095) 4096 ltac:(lia)) as B.
  split; [rewrite Z.mul_comm; apply Z.mod_mul; lia|].
  split; [lia|].
  intros size Hm Hs.
  pose proof (Z.div_mod size 4096 ltac:(lia)) as D'. rewrite Hm in D'.
  assert ((fileSize + 4095) / 4096 < size / 4096 + 1); [|lia].
  apply Z.div_lt_upper_bound; lia.
Qed.

Lemma skipn_repeat {A} (x : A) n : forall k,
  skipn k (repeat x n) = repeat x (n - k).
Proof.
  induction n as [|n IH]; intros [|k]; simpl; try reflexivity. apply IH.
Qed.

(** The steps of one iteration of the file-data handler, on an event within
    the page cache that starts at or before the end of the file. *)
Lemma manageFileData_steps g inode dev offset length :
  valid_geometry g ->
  0 <= fileSize inode < 2 ^ 32 ->
  0 <= offset <= fileSize inode -> 0 <= length ->
  offset + length <= cache_size (fileSize inode) ->
  let read_size := Z.min length (fileSize inode - offset) in
  let num_blocks := (read_size + blockSize g - 1) / blockSize g in
  manageFileData g inode dev offset length
  = (emit (MapMemory BackingMemory offset length) ;;
     assertion (offset mod blockSize g =? 0) BlockMisaligned ;;
     assertion (num_blocks * blockSize g <=? length) WindowTooSmall ;;
     window' <- readData g inode dev (offset / blockSize g) num_blocks
                  (repeat x00 (Z.to_nat length)) ;;
     emit (CompleteLoad BackingMemory offset length) ;;
     emit (UnmapMemory BackingMemory offset length) ;;
     ret window').
Proof.
  intros Hg Hfs Ho Hl Hin read_size num_blocks.
  pose proof (blockSize_pos g Hg) as Hbs.
  assert (Hcs : cache_size (fileSize inode) <= fileSize inode + 4095).
  { rewrite cache_size_roundup.
    pose proof (Z.mul_div_le (fileSize inode + 4095) 4096 ltac:(lia)). lia. }
  change (2 ^ 32) with 4294967296 in Hfs.
  unfold manageFileData. cbv zeta.
  rewrite (WordFacts.u64_small (offset + length))
    by (change (2 ^ 64) with 18446744073709551616; lia).
  destruct (Z.leb_spec (offset + length) (cache_size (fileSize inode)));
    [|lia].
  change (assertion true ManageOutOfRange) with (ret (A := unit) tt).
  rewrite bind_ret_l.
  rewrite (WordFacts.u64_small (fileSize inode - offset))
    by (change (2 ^ 64) with 18446744073709551616; lia).
  fold read_size.
  assert (Hrs : 0 <= read_size <= length) by (unfold read_size; lia).
  assert (Hq : 0 <= read_size / blockSize g <= read_size).
  { split; [apply Z.div_pos; lia|].
    apply Z.div_le_upper_bound; [lia|]. nia. }
  assert (Hrs' : read_size <= 4294967296) by (unfold read_size; lia).
  rewrite (WordFacts.u64_small (read_size / blockSize g + 1))
    by (change (2 ^ 64) with 18446744073709551616; lia).
  rewrite (blocks_ceiling read_size (blockSize g)) by lia.
  fold num_blocks.
  assert (Hbs' : blockSize g <= 65536).
  { rewrite (blockSize_pow g Hg). pose proof (blockShift_range g Hg).
    change 65536 with (2 ^ 16). apply Z.pow_le_mono_r; lia. }
  assert (Hnb : 0 <= num_blocks <= 4294967296).
  { unfold num_blocks. split; [apply Z.div_pos; lia|].
    apply Z.div_le_upper_bound; [lia|]. nia. }
  rewrite (WordFacts.u64_small (num_blocks * blockSize g))
    by (change (2 ^ 64) with 18446744073709551616; nia).
  reflexivity.
Qed.

(** X17. The file-data handler refuses every manage event over content of
    the file that is shorter than one block: behind the mapping it stops
    at the assertion on the offset, or at the one on
    [num_blocks * blockSize <= length], with no device read and no
    completed load.  On blocks larger than a page this is the case of
    every event of one page. *)
Theorem file_handler_refuses_events_below_one_block :
  forall g inode dev offset length,
    valid_geometry g -> 0 <= fileSize inode < 2 ^ 32 ->
    0 <= offset < fileSize inode -> 0 < length < blockSize g ->
    offset + length <= cache_size (fileSize inode) ->
    manageFileData g inode dev offset length
    = ([MapMemory BackingMemory offset length],
       Aborted (if offset mod blockSize g =? 0
                then WindowTooSmall else BlockMisaligned)).
Proof.
  intros g inode dev offset length Hg Hfs Ho Hl Hin.
  rewrite manageFileData_steps by (assumption || lia). cbv zeta.
  unfold bind at 1. cbn [emit].
  destruct (offset mod blockSize g =? 0); cbn [assertion]; [|reflexivity].
  rewrite bind_ret_l.
  pose proof (blockSize_pos g Hg) as Hbs.
  assert (1 <= (Z.min length (fileSize inode - offset) + blockSize g - 1)
               / blockSize g).
  { apply Z.div_le_lower_bound; lia. }
  destruct (Z.leb_spec
              ((Z.min length (fileSize inode - offset) + blockSize g - 1)
               / blockSize g * blockSize g) length); [nia|].
  reflexivity.
Qed.

(** X18. On a manage event that starts at a block boundary and is whole
    blocks long, whose blocks are within the double-indirect range and
    are no holes, one iteration of the file-data handler runs to its end:
    it completes the load and unmaps, and the window then holds the
    blocks of the file from [offset / blockSize] on, up to the end of the
    event or of the file, followed by zero bytes. *)
Theorem file_handler_pages_in_file_blocks :
  forall g inode dev offset length,
    valid_geometry g -> 0 <= fileSize inode < 2 ^ 32 ->
    0 <= offset <= fileSize inode -> 0 <= length ->
    offset + length <= cache_size (fileSize inode) ->
    offset mod blockSize g = 0 -> length mod blockSize g = 0 ->
    let read_size := Z.min length (fileSize inode - offset) in
    let num_blocks := (read_size + blockSize g - 1) / blockSize g in
    let first := offset / blockSize g in
    first + num_blocks <= d_range g ->
    (forall L, first <= L < first + num_blocks ->
       physical_of g inode dev L <> Done 0) ->
    exists trace blocks,
      Forall2 (fun L P => physical_of g inode dev L = Done P)
        (zseq first (Z.to_nat num_blocks)) blocks /\
      manageFileData g inode dev offset length
      = (MapMemory BackingMemory offset length
           :: trace ++ [CompleteLoad BackingMemory offset length;
                        UnmapMemory BackingMemory offset length],
         Done (concat (map (fun P => readSectors dev (P * sectorsPerBlock g)
                                       (sectorsPerBlock g)) blocks)
               ++ repeat x00 (Z.to_nat (length - num_blocks * blockSize g)))).
Proof.
  intros g inode dev offset length Hg Hfs Ho Hl Hin Eo El
    read_size num_blocks first Hd Hmap.
  pose proof (blockSize_pos g Hg) as Hbs.
  rewrite manageFileData_steps by (assumption || lia). cbv zeta.
  fold read_size. fold num_blocks. fold first.
  assert (Hrs : 0 <= read_size <= length) by (unfold read_size; lia).
  assert (Hnb : 0 <= num_blocks /\ num_blocks * blockSize g <= length).
  { unfold num_blocks. split; [apply Z.div_pos; lia|].
    pose proof (Z.div_mod length (blockSize g) ltac:(lia)) as D.
    rewrite El, Z.add_0_r in D.
    assert ((read_size + blockSize g - 1) / blockSize g
            < length / blockSize g + 1); [|nia].
    apply Z.div_lt_upper_bound; lia. }
  destruct Hnb as [Hn0 Hroom].
  assert (Hf : 0 <= first) by (apply Z.div_pos; lia).
  destruct (readData_returns g inode dev first num_blocks
              (repeat x00 (Z.to_nat length)) Hg Hf Hn0 Hd Hmap)
    as (trace & window' & HR).
  { rewrite repeat_length. lia. }
  assert (H64 : first < 2 ^ 64).
  { pose proof (ranges_ordered g Hg).
    change (2 ^ 64) with 18446744073709551616.
    change (2 ^ 32) with 4294967296 in *. lia. }
  pose proof (loop_blockwise g inode dev Hg first num_blocks Hf
                (Z.to_nat num_blocks) 0 (repeat x00 (Z.to_nat length))
                ltac:(lia) ltac:(lia) ltac:(lia)) as HB.
  rewrite (readData_unfold g inode dev) in HR. injection HR as Ht Hs.
  cbv beta in HB. rewrite Hs, Z.sub_0_r in HB. symmetry in HB.
  destruct (blockwise_concat g inode dev Hg first (Z.to_nat num_blocks) 0
              _ window' ltac:(lia) HB) as (blocks & HF & EW).
  rewrite Z.add_0_r in HF.
  exists (AwaitReady
            :: fst (readData_loop g inode dev (Z.to_nat num_blocks) first
                      num_blocks 0 (repeat x00 (Z.to_nat length)))), blocks.
  split; [assumption|].
  rewrite (readData_unfold g inode dev), Hs.
  destruct (Z.eqb_spec (offset mod blockSize g) 0); [|contradiction].
  destruct (Z.leb_spec (num_blocks * blockSize g) length); [|lia].
  unfold bind, emit, assertion, ret. cbn [app]. do 2 f_equal.
  rewrite EW, Z.mul_0_l. cbn [Z.to_nat firstn app]. f_equal.
  rewrite skipn_repeat. f_equal. lia.
Qed.

(** X19. The assertion [num_blocks * blockSize <= length] of the file-data
    handler keeps the block mapper within the mapped window: no device
    read of an iteration is delivered outside the window, and the window
    that is completed has the length of the event. *)
Theorem file_handler_stays_within_its_window :
  forall g inode dev offset length,
    valid_geometry g -> 0 <= fileSize inode < 2 ^ 32 ->
    0 <= offset <= fileSize inode -> 0 <= length ->
    offset + length <= cache_size (fileSize inode) ->
    snd (manageFileData g inode dev offset length) <> Aborted WindowFault /\
    forall window,
      snd (manageFileData g inode dev offset length) = Done window ->
      Z.of_nat (List.length window) = length.
Proof.
  intros g inode dev offset length Hg Hfs Ho Hl Hin.
  pose proof (blockSize_pos g Hg) as Hbs.
  rewrite manageFileData_steps by (assumption || lia). cbv zeta.
  rewrite snd_bind. cbn [snd emit]. rewrite snd_bind.
  destruct (offset mod blockSize g =? 0); cbn [assertion ret abort snd];
    [|split; discriminate].
  rewrite snd_bind.
  destruct (Z.leb_spec
              ((Z.min length (fileSize inode - offset) + blockSize g - 1)
               / blockSize g * blockSize g) length) as [Hroom|];
    cbn [assertion ret abort snd]; [|split; discriminate].
  rewrite snd_bind, (readData_unfold g inode dev). cbn [snd].
  assert (Hf : 0 <= offset / blockSize g < 2 ^ 64).
  { split; [apply Z.div_pos; lia|].
    apply Z.div_lt_upper_bound; [lia|].
    change (2 ^ 64) with 18446744073709551616.
    change (2 ^ 32) with 4294967296 in Hfs. nia. }
  destruct (loop_within_buffer g inode dev (offset / blockSize g)
              ((Z.min length (fileSize inode - offset) + blockSize g - 1)
               / blockSize g)
              (repeat x00 (Z.to_nat length)) Hg Hf) as [L1 L2].
  { rewrite repeat_length. lia. }
  destruct (snd (readData_loop _ _ _ _ _ _ _ _)) as [window'|e].
  - rewrite !snd_bind. cbn [snd emit ret]. split; [discriminate|].
    intros window [= <-]. destruct (L2 window' eq_refl) as [E _].
    rewrite E, repeat_length. lia.
  - split; [|discriminate]. intros [= ->]. now apply L1.
Qed.

(** ** The directory reader *)

Lemma le16_range m a : 0 <= le16 m a < 2 ^ 16.
Proof.
  unfold le16. pose proof (load8_range m a). pose proof (load8_range m (a + 1)).
  change (2 ^ 8) with 256. change (2 ^ 16) with 65536. lia.
Qed.

Lemma entries_from_bound window fileSize offsets : forall offset,
  entries_from window fileSize offset offsets -> offset <= fileSize.
Proof.
  destruct offsets as [|o rest]; simpl; intros offset H; [lia|].
  destruct H as (-> & [_ Hw] & _). unfold sizeof_DiskDirEntry in Hw.
  pose proof (load8_range window (offset + 6)). unfold nameLength in Hw. lia.
Qed.

(** A record of length zero is never left: no directory with such an entry
    is well-formed. *)
Lemma entries_from_stuck window fileSize offset :
  entry_within window fileSize offset -> recordLength window offset = 0 ->
  forall offsets, ~ entries_from window fileSize offset offsets.
Proof.
  intros [_ Hw] Hz. unfold sizeof_DiskDirEntry, nameLength in Hw.
  pose proof (load8_range window (offset + 6)).
  induction offsets as [|o rest IH]; simpl.
  - lia.
  - intros (_ & _ & Hr). rewrite Hz, Z.add_0_r in Hr. now apply IH.
Qed.

Lemma entries_from_advance window fileSize offset o rest :
  entries_from window fileSize offset (o :: rest) ->
  0 < recordLength window offset.
Proof.
  intros H. pose proof H as (-> & Hw & Hr).
  pose proof (le16_range window (offset + 4)) as R.
  fold (recordLength window offset) in R.
  destruct (Z.eq_dec (recordLength window offset) 0) as [E|]; [|lia].
  exfalso. rewrite E, Z.add_0_r in Hr.
  now apply (entries_from_stuck window fileSize offset Hw E rest).
Qed.

Lemma entries_from_count window fileSize offsets : forall offset,
  0 <= offset -> entries_from window fileSize offset offsets ->
  Z.of_nat (length offsets) <= fileSize - offset.
Proof.
  induction offsets as [|o rest IH]; intros offset Ho H.
  - simpl in *. lia.
  - pose proof (entries_from_advance _ _ _ _ _ H) as Hpos.
    destruct H as (_ & _ & Hr).
    specialize (IH (offset + recordLength window offset) ltac:(lia) Hr).
    simpl length. lia.
Qed.

(** The record lengths of a well-formed directory sum to its size. *)
Lemma entries_from_sum window fileSize offsets : forall offset,
  entries_from window fileSize offset offsets ->
  offset + fold_right Z.add 0 (map (recordLength window) offsets) = fileSize.
Proof.
  induction offsets as [|o rest IH]; intros offset H; simpl in *; [lia|].
  destruct H as (-> & _ & Hr). specialize (IH _ Hr). lia.
Qed.

(** On a name without NUL, [strncmp] over the length of the name compares
    the bytes. *)
Lemma strncmp_zero_spec name : forall s1,
  ~ In x00 name -> (length name <= length s1)%nat ->
  strncmp_zero s1 (c_str name) (length name) = true
  <-> firstn (length name) s1 = name.
Proof.
  induction name as [|c name IH]; intros s1 Hnul Hlen.
  - simpl. tauto.
  - destruct s1 as [|c1 s1]; [simpl in Hlen; lia|].
    simpl. destruct (Byte.eqb c1 c) eqn:E.
    + apply Byte.byte_dec_bl in E. subst c1.
      destruct (Byte.eqb c x00) eqn:E0.
      * apply Byte.byte_dec_bl in E0. subst c. exfalso. apply Hnul. now left.
      * rewrite (IH s1) by (simpl in *; (tauto || lia)).
        split; [now intros -> | now intros [= ->]].
    + split; [discriminate|]. intros [= -> _].
      now rewrite Byte.byte_dec_lb in E.
Qed.

Lemma disk_name_length window offset :
  0 <= offset ->
  Z.of_nat (length (disk_name window offset))
  = Z.max 0 (Z.of_nat (length window) - (offset + 8)).
Proof. intros H. unfold disk_name. rewrite length_skipn. lia. Qed.

Section DirectoryFacts.

Variables EXT2_FT_REG_FILE EXT2_FT_DIR EXT2_FT_SYMLINK : Z.

Variable window : list byte.

Variable fileSize : Z.

Variable name : list byte.

Hypothesis Hwindow : fileSize <= Z.of_nat (length window).

Hypothesis Hnul : ~ In x00 name.

Lemma name_test_named offset :
  entry_within window fileSize offset ->
  name_test window offset name = true <-> named window offset name.
Proof.
  intros [Ho Hw]. unfold name_test, named, name_of.
  unfold sizeof_DiskDirEntry in Hw.
  pose proof (disk_name_length window offset Ho) as Hd.
  destruct (Z.eqb_spec (Z.of_nat (length name)) (nameLength window offset))
    as [E|E]; simpl.
  - rewrite <- E, Nat2Z.id.
    rewrite strncmp_zero_spec by (assumption || lia). intuition.
  - split; [discriminate|]. intros [E' _]. lia.
Qed.

Abbreviation walk := (findEntry_walk EXT2_FT_REG_FILE EXT2_FT_DIR EXT2_FT_SYMLINK).

(** The walk stops at the first entry that bears the name. *)
Lemma walk_found before : forall fuel offset o after,
  entries_from window fileSize offset (before ++ o :: after) ->
  (length before < fuel)%nat ->
  (forall o', In o' before -> ~ named window o' name) ->
  named window o name ->
  walk fuel window fileSize name offset
  = Found {| entry_inode := disk_inode window o;
             entry_fileType :=
               entry_type EXT2_FT_REG_FILE EXT2_FT_DIR EXT2_FT_SYMLINK
                 (diskFileType window o) |}.
Proof.
  induction before as [|b before IH]; intros fuel offset o after H Hf Hno Hyes;
    destruct fuel as [|fuel]; try (simpl in Hf; lia);
    simpl app in H; destruct H as (<- & Hw & Hr); simpl findEntry_walk.
  - pose proof Hw as [_ Hlt]. unfold sizeof_DiskDirEntry, nameLength in Hlt.
    pose proof (load8_range window (o + 6)).
    destruct (Z.ltb_spec o fileSize); [|lia].
    now rewrite (proj2 (name_test_named o Hw) Hyes).
  - pose proof Hw as [_ Hlt]. unfold sizeof_DiskDirEntry, nameLength in Hlt.
    pose proof (load8_range window (b + 6)).
    destruct (Z.ltb_spec b fileSize); [|lia].
    destruct (name_test window b name) eqn:T.
    + exfalso. apply (Hno b); [now left|]. now apply name_test_named.
    + apply (IH fuel _ o after Hr); [simpl in Hf; lia| |assumption].
      intros o' Ho'. apply Hno. now right.
Qed.

(** Without an entry of that name the walk ends at the end of the file. *)
Lemma walk_finished offsets : forall fuel offset,
  entries_from window fileSize offset offsets ->
  (length offsets < fuel)%nat ->
  (forall o, In o offsets -> ~ named window o name) ->
  walk fuel window fileSize name offset = Finished fileSize.
Proof.
  induction offsets as [|b rest IH]; intros fuel offset H Hf Hno.
  - simpl in H. subst offset. destruct fuel; simpl;
      (destruct (Z.ltb_spec fileSize fileSize); [lia|reflexivity]).
  - destruct fuel as [|fuel]; [simpl in Hf; lia|].
    destruct H as (<- & Hw & Hr). simpl findEntry_walk.
    pose proof Hw as [_ Hlt]. unfold sizeof_DiskDirEntry, nameLength in Hlt.
    pose proof (load8_range window (b + 6)).
    destruct (Z.ltb_spec b fileSize); [|lia].
    destruct (name_test window b name) eqn:T.
    + exfalso. apply (Hno b); [now left|]. now apply name_test_named.
    + apply (IH fuel _ Hr); [simpl in Hf; lia|].
      intros o Ho. apply Hno. now right.
Qed.

End DirectoryFacts.

(** The walk is cut short only where the loop of [findEntry] does not end:
    at a record of length zero that does not bear the name. *)
Lemma visits_within window fileSize name : forall fuel offset o,
  0 <= offset ->
  In o (findEntry_visits fuel window fileSize name offset) ->
  offset <= o < fileSize.
Proof.
  induction fuel as [|fuel IH]; intros offset o Ho; simpl findEntry_visits;
    destruct (Z.ltb_spec offset fileSize) as [Hlt|]; try contradiction.
  intros [<-|H]; [lia|].
  destruct (name_test window offset name); [contradiction|].
  pose proof (le16_range window (offset + 4)) as R.
  fold (recordLength window offset) in R.
  apply IH in H; lia.
Qed.

Lemma walk_endless REG DIR SYMLINK window fileSize name : forall fuel offset,
  0 <= offset -> (Z.to_nat (fileSize - offset) < fuel)%nat ->
  findEntry_walk REG DIR SYMLINK fuel window fileSize name offset = Endless ->
  exists o,
    In o (findEntry_visits fuel window fileSize name offset) /\
    recordLength window o = 0 /\ name_test window o name = false.
Proof.
  induction fuel as [|fuel IH]; intros offset Ho Hf; [lia|].
  simpl findEntry_walk. simpl findEntry_visits.
  destruct (Z.ltb_spec offset fileSize) as [Hlt|]; [|discriminate].
  destruct (name_test window offset name) eqn:T; [discriminate|].
  intros H. pose proof (le16_range window (offset + 4)) as R.
  fold (recordLength window offset) in R.
  destruct (Z.eq_dec (recordLength window offset) 0) as [E|E].
  - exists offset. repeat split; [now left|assumption..].
  - destruct (IH (offset + recordLength window offset) ltac:(lia)
                ltac:(lia) H) as (o & Hr & Hz & Ht).
    exists o. repeat split; [now right|assumption..].
Qed.

Lemma walk_stuck REG DIR SYMLINK window fileSize name offset :
  offset < fileSize -> recordLength window offset = 0 ->
  name_test window offset name = false ->
  forall fuel,
    findEntry_walk REG DIR SYMLINK fuel window fileSize name offset = Endless.
Proof.
  intros Hlt Hz Ht. induction fuel as [|fuel IH]; simpl findEntry_walk;
    (destruct (Z.ltb_spec offset fileSize); [|lia]); [reflexivity|].
  now rewrite Ht, Hz, Z.add_0_r.
Qed.

(** A walk that visits a record from which it does not get away does not
    end either. *)
Lemma walk_reaches REG DIR SYMLINK window fileSize name o :
  (forall fuel,
     findEntry_walk REG DIR SYMLINK fuel window fileSize name o = Endless) ->
  forall fuel0 offset,
    In o (findEntry_visits fuel0 window fileSize name offset) ->
    forall fuel,
      findEntry_walk REG DIR SYMLINK fuel window fileSize name offset
      = Endless.
Proof.
  intros Hstuck. induction fuel0 as [|fuel0 IH]; intros offset;
    simpl findEntry_visits;
    destruct (Z.ltb_spec offset fileSize) as [Hlt|]; try contradiction.
  intros [<-|H]; [assumption|].
  destruct (name_test window offset name) eqn:T; [contradiction|].
  intros [|fuel]; simpl findEntry_walk;
    (destruct (Z.ltb_spec offset fileSize); [|lia]); [reflexivity|].
  rewrite T. now apply IH.
Qed.

Lemma findEntry_unfold REG DIR SYMLINK inode window name :
  name <> [] -> name <> dot -> name <> dotdot ->
  snd (findEntry REG DIR SYMLINK inode window name)
  = match findEntry_walk REG DIR SYMLINK (S (Z.to_nat (fileSize inode)))
            window (fileSize inode) name 0 with
    | Found entry => Done (Some entry)
    | Finished offset =>
        if offset =? fileSize inode then Done None
        else Aborted DirectoryOverrun
    | Endless => Aborted Diverged
    end.
Proof.
  intros H1 H2 H3. unfold findEntry.
  destruct (bytes_eq_dec name []); [contradiction|].
  destruct (bytes_eq_dec name dot); [contradiction|].
  destruct (bytes_eq_dec name dotdot); [contradiction|].
  cbn [negb andb assertion]. rewrite bind_ret_l. cbv zeta.
  rewrite !snd_bind. cbn [snd emit].
  destruct (findEntry_walk _ _ _ _ _ _ _ _) as [entry|offset|];
    try reflexivity.
  rewrite snd_bind. destruct (offset =? fileSize inode); reflexivity.
Qed.

(** X27. In a well-formed directory, for a name that is not empty,
    not "." or ".." and holds no NUL byte, [findEntry] returns the entry
    of the first walked entry whose name length and name bytes are those
    of the name: its inode number, and its file type byte mapped from
    [EXT2_FT_REG_FILE] to regular, from [EXT2_FT_DIR] to directory, from
    [EXT2_FT_SYMLINK] to symlink and from any other value to none.  When
    no entry bears the name, the walk ends at [fileSize] and [findEntry]
    returns nothing. *)
Theorem find_entry_returns_first_match :
  forall EXT2_FT_REG_FILE EXT2_FT_DIR EXT2_FT_SYMLINK inode window name offsets,
    EXT2_FT_REG_FILE <> EXT2_FT_DIR ->
    EXT2_FT_REG_FILE <> EXT2_FT_SYMLINK ->
    EXT2_FT_DIR <> EXT2_FT_SYMLINK ->
    well_formed window (fileSize inode) offsets ->
    name <> [] -> name <> dot -> name <> dotdot -> ~ In x00 name ->
    (forall before o after,
       offsets = before ++ o :: after ->
       (forall o', In o' before -> ~ named window o' name) ->
       named window o name ->
       exists type,
         snd (findEntry EXT2_FT_REG_FILE EXT2_FT_DIR EXT2_FT_SYMLINK
                inode window name)
         = Done (Some {| entry_inode := disk_inode window o;
                         entry_fileType := type |}) /\
         (diskFileType window o = EXT2_FT_REG_FILE -> type = kTypeRegular) /\
         (diskFileType window o = EXT2_FT_DIR -> type = kTypeDirectory) /\
         (diskFileType window o = EXT2_FT_SYMLINK -> type = kTypeSymlink) /\
         (diskFileType window o <> EXT2_FT_REG_FILE ->
          diskFileType window o <> EXT2_FT_DIR ->
          diskFileType window o <> EXT2_FT_SYMLINK -> type = kTypeNone)) /\
    ((forall o, In o offsets -> ~ named window o name) ->
     findEntry_walk EXT2_FT_REG_FILE EXT2_FT_DIR EXT2_FT_SYMLINK
       (S (Z.to_nat (fileSize inode))) window (fileSize inode) name 0
     = Finished (fileSize inode) /\
     snd (findEntry EXT2_FT_REG_FILE EXT2_FT_DIR EXT2_FT_SYMLINK
            inode window name)
     = Done None).
Proof.
  intros REG DIR SYMLINK inode window name offsets D1 D2 D3 [Hmap Hent]
    N1 N2 N3 Hnul.
  pose proof (entries_from_bound _ _ _ _ Hent) as Hsize.
  assert (Hwin : fileSize inode <= Z.of_nat (length window))
    by (rewrite Hmap; now apply cache_size_covers).
  pose proof (entries_from_count _ _ _ 0 ltac:(lia) Hent) as Hcount.
  split.
  - intros before o after -> Hno Hyes.
    exists (entry_type REG DIR SYMLINK (diskFileType window o)). split.
    + rewrite findEntry_unfold by assumption.
      rewrite (walk_found REG DIR SYMLINK window (fileSize inode) name
                 Hwin Hnul before _ 0 o after Hent); [reflexivity| | |];
        try assumption.
      rewrite length_app in Hcount. simpl in Hcount. lia.
    + unfold entry_type.
      destruct (Z.eqb_spec (diskFileType window o) REG) as [E1|E1];
        destruct (Z.eqb_spec (diskFileType window o) DIR) as [E2|E2];
        destruct (Z.eqb_spec (diskFileType window o) SYMLINK) as [E3|E3];
        repeat split; intros; try reflexivity; congruence.
  - intros Hno.
    assert (W : findEntry_walk REG DIR SYMLINK (S (Z.to_nat (fileSize inode)))
                  window (fileSize inode) name 0
                = Finished (fileSize inode)).
    { apply (walk_finished REG DIR SYMLINK window (fileSize inode) name
               Hwin Hnul offsets); try assumption. lia. }
    split; [assumption|].
    rewrite findEntry_unfold, W, Z.eqb_refl by assumption. reflexivity.
Qed.

Lemma readEntries_at_entry inode window offset :
  0 <= offset ->
  offset + sizeof_DiskDirEntry <= fileSize inode ->
  offset + recordLength window offset <= fileSize inode ->
  snd (readEntries inode window offset)
  = Done (Some (name_of window offset), offset + recordLength window offset).
Proof.
  intros Ho Hh Hr. unfold readEntries, sizeof_DiskDirEntry in *.
  rewrite snd_bind. cbn [snd emit].
  destruct (Z.leb_spec offset (fileSize inode)); [|lia].
  cbn [assertion]. rewrite bind_ret_l.
  destruct (Z.eqb_spec offset (fileSize inode)); [lia|]. cbv zeta.
  rewrite !snd_bind. cbn [snd emit].
  destruct (Z.leb_spec (offset + 8) (fileSize inode)); [|lia].
  destruct (Z.leb_spec (offset + recordLength window offset) (fileSize inode));
    [|lia].
  reflexivity.
Qed.

Lemma readEntries_absent inode window offset :
  (exists after, snd (readEntries inode window offset) = Done (None, after))
  <-> offset = fileSize inode.
Proof.
  unfold readEntries. rewrite snd_bind. cbn [snd emit]. split.
  - intros [after H].
    destruct (Z.leb_spec offset (fileSize inode)); cbn [assertion] in H.
    2:{ rewrite snd_bind in H. discriminate. }
    rewrite bind_ret_l in H.
    destruct (Z.eqb_spec offset (fileSize inode)); [assumption|].
    cbv zeta in H. rewrite !snd_bind in H. cbn [snd emit] in H.
    destruct (offset + sizeof_DiskDirEntry <=? fileSize inode);
      cbn [assertion ret abort snd] in H; [|discriminate].
    destruct (offset + recordLength window offset <=? fileSize inode);
      cbn [assertion ret abort snd] in H; discriminate.
  - intros ->. exists (fileSize inode).
    destruct (Z.leb_spec (fileSize inode) (fileSize inode)); [|lia].
    cbn [assertion]. rewrite bind_ret_l, Z.eqb_refl. reflexivity.
Qed.

Lemma read_names_prefix inode window offsets : forall offset k,
  0 <= offset ->
  entries_from window (fileSize inode) offset offsets ->
  (k <= length offsets)%nat ->
  snd (read_names k inode window offset)
  = Done (map (name_of window) (firstn k offsets),
          offset + fold_right Z.add 0
                     (map (recordLength window) (firstn k offsets))).
Proof.
  induction offsets as [|o rest IH]; intros offset k Ho H Hk.
  - simpl in Hk. replace k with O by lia. simpl. now rewrite Z.add_0_r.
  - destruct k as [|k]; [simpl; now rewrite Z.add_0_r|].
    pose proof (entries_from_advance _ _ _ _ _ H) as Hpos.
    destruct H as (-> & [_ Hw] & Hr).
    pose proof (entries_from_bound _ _ _ _ Hr) as Hb.
    pose proof (load8_range window (offset + 6)) as Hn.
    fold (nameLength window offset) in Hn.
    cbn [read_names]. rewrite snd_bind.
    rewrite readEntries_at_entry by (assumption || lia).
    cbn [fst snd]. rewrite snd_bind.
    rewrite (IH (offset + recordLength window offset) k) by (assumption || lia || (simpl in Hk; lia)).
    simpl. do 2 f_equal. lia.
Qed.

(** C8. On a well-formed directory, successive calls of [readEntries] from
    a cursor at 0 return the names of the entries in their order on disk,
    the cursor after each call standing at the sum of the record lengths
    of the entries read so far; and a call returns nothing exactly when it
    finds the cursor at [fileSize]. *)
Theorem read_entries_enumerates :
  forall inode window offsets,
    well_formed window (fileSize inode) offsets ->
    (forall k, (k <= length offsets)%nat ->
       snd (read_names k inode window 0)
       = Done (map (name_of window) (firstn k offsets),
               fold_right Z.add 0
                 (map (recordLength window) (firstn k offsets)))) /\
    (forall offset,
       (exists after,
          snd (readEntries inode window offset) = Done (None, after))
       <-> offset = fileSize inode).
Proof.
  intros inode window offsets [_ H]. split.
  - intros k Hk.
    now rewrite (read_names_prefix inode window offsets 0 k ltac:(lia) H Hk).
  - apply readEntries_absent.
Qed.

(** *** Further properties of the directory reader *)

Lemma walk_long_name REG DIR SYMLINK window fileSize name :
  255 < Z.of_nat (length name) ->
  forall fuel offset entry,
    findEntry_walk REG DIR SYMLINK fuel window fileSize name offset
    <> Found entry.
Proof.
  intros Hlen. induction fuel as [|fuel IH]; intros offset entry;
    simpl findEntry_walk; destruct (offset <? fileSize); try discriminate.
  assert (E : name_test window offset name = false).
  { unfold name_test, nameLength.
    pose proof (load8_range window (offset + 6)).
    destruct (Z.eqb_spec (Z.of_nat (length name)) (load8 window (offset + 6)));
      [lia|reflexivity]. }
  rewrite E. apply IH.
Qed.

(** X21. A name of more than 255 bytes is not found in any directory,
    whatever its content: the name length of an entry is one byte. *)
Theorem find_entry_never_finds_long_names :
  forall REG DIR SYMLINK inode window name entry,
    255 < Z.of_nat (length name) ->
    snd (findEntry REG DIR SYMLINK inode window name) <> Done (Some entry).
Proof.
  intros REG DIR SYMLINK inode window name entry Hlen.
  rewrite findEntry_unfold
    by (intros ->; simpl in Hlen; lia).
  pose proof (walk_long_name REG DIR SYMLINK window (fileSize inode) name Hlen
                (S (Z.to_nat (fileSize inode))) 0) as W.
  destruct (findEntry_walk _ _ _ _ _ _ _ _) as [e|offset|].
  - now destruct (W e).
  - destruct (offset =? fileSize inode); discriminate.
  - discriminate.
Qed.

(** X22. Let every entry that the walk of [findEntry] visits lie within
    the mapped window.  The walk ends, unless it visits a record of length
    zero that does not pass the comparison; and once it visits such a
    record it does not get away from it: the walk does not end, however
    long it runs. *)
Theorem find_entry_ends_unless_a_record_is_empty :
  forall REG DIR SYMLINK inode window name,
    let visited :=
      findEntry_visits (S (Z.to_nat (fileSize inode))) window
        (fileSize inode) name 0 in
    (forall o, In o visited -> entry_mapped window o) ->
    (snd (findEntry REG DIR SYMLINK inode window name) = Aborted Diverged ->
     exists o,
       In o visited /\ 0 <= o < fileSize inode /\
       recordLength window o = 0 /\ name_test window o name = false) /\
    (forall o,
       In o visited -> recordLength window o = 0 ->
       name_test window o name = false ->
       forall fuel,
         findEntry_walk REG DIR SYMLINK fuel window (fileSize inode) name o
         = Endless /\
         findEntry_walk REG DIR SYMLINK fuel window (fileSize inode) name 0
         = Endless).
Proof.
  intros REG DIR SYMLINK inode window name visited _. split.
  - intros H.
    destruct (bytes_eq_dec name []) as [->|N1]; [discriminate|].
    destruct (bytes_eq_dec name dot) as [->|N2]; [discriminate|].
    destruct (bytes_eq_dec name dotdot) as [->|N3]; [discriminate|].
    rewrite findEntry_unfold in H by assumption.
    destruct (findEntry_walk _ _ _ _ _ _ _ _) as [entry|offset|] eqn:W;
      try discriminate.
    + destruct (offset =? fileSize inode); discriminate.
    + destruct (walk_endless REG DIR SYMLINK window (fileSize inode) name
                  (S (Z.to_nat (fileSize inode))) 0 ltac:(lia) ltac:(lia) W)
        as (o & Hin & Hz & Ht).
      pose proof (visits_within window (fileSize inode) name _ 0 o
                    ltac:(lia) Hin).
      exists o. repeat split; (assumption || lia).
  - intros o Hin Hz Ht.
    pose proof (visits_within window (fileSize inode) name _ 0 o
                  ltac:(lia) Hin) as Ho.
    assert (Hs : forall fuel,
              findEntry_walk REG DIR SYMLINK fuel window (fileSize inode)
                name o = Endless)
      by (apply walk_stuck; (lia || assumption)).
    intros fuel. split; [apply Hs|].
    now apply (walk_reaches REG DIR SYMLINK window (fileSize inode) name o Hs
                 (S (Z.to_nat (fileSize inode))) 0).
Qed.

Lemma first_named window name offsets : forall o,
  In o offsets -> named window o name ->
  exists before o' after,
    offsets = before ++ o' :: after /\ named window o' name /\
    forall x, In x before -> ~ named window x name.
Proof.
  assert (Hdec : forall x, {named window x name} + {~ named window x name}).
  { intros x. unfold named.
    destruct (Z.eq_dec (nameLength window x) (Z.of_nat (length name)));
      [|right; tauto].
    destruct (bytes_eq_dec (name_of window x) name); [left|right]; tauto. }
  induction offsets as [|a rest IH]; intros o Hin Hn; [destruct Hin|].
  destruct (Hdec a) as [Ha|Ha].
  - exists [], a, rest. split; [reflexivity|]. split; [assumption|].
    intros x [].
  - destruct Hin as [->|Hin]; [contradiction|].
    destruct (IH o Hin Hn) as (before & o' & after & -> & Hn' & Hno).
    exists (a :: before), o', after. split; [reflexivity|].
    split; [assumption|]. intros x [<-|Hx]; [assumption|now apply Hno].
Qed.

Lemma entries_from_In window fileSize offsets : forall offset o,
  entries_from window fileSize offset offsets -> In o offsets ->
  entry_within window fileSize o.
Proof.
  induction offsets as [|a rest IH]; intros offset o H Hin; [destruct Hin|].
  destruct H as (-> & Hw & Hr). destruct Hin as [<-|Hin]; [assumption|].
  now apply (IH _ o Hr).
Qed.

(** X24. In a well-formed directory, a name that [readEntries] returns
    with the cursor at an entry is found by [findEntry], unless it is a
    name that [findEntry] refuses or it holds a NUL byte; and the entry
    that [findEntry] returns is the first entry of the directory that
    bears the name: no entry before it does. *)
Theorem enumerated_names_are_found :
  forall REG DIR SYMLINK inode window offsets o name after,
    well_formed window (fileSize inode) offsets -> In o offsets ->
    snd (readEntries inode window o) = Done (Some name, after) ->
    name <> [] -> name <> dot -> name <> dotdot -> ~ In x00 name ->
    exists before o' rest,
      offsets = before ++ o' :: rest /\
      (forall x, In x before -> ~ named window x name) /\
      named window o' name /\
      snd (findEntry REG DIR SYMLINK inode window name)
      = Done (Some {| entry_inode := disk_inode window o';
                      entry_fileType :=
                        entry_type REG DIR SYMLINK
                          (diskFileType window o') |}).
Proof.
  intros REG DIR SYMLINK inode window offsets o name after [Hmap Hent] Hin
    HR N1 N2 N3 Hnul.
  pose proof (entries_from_bound _ _ _ _ Hent) as Hsize.
  assert (Hwin : fileSize inode <= Z.of_nat (length window))
    by (rewrite Hmap; now apply cache_size_covers).
  pose proof (entries_from_count _ _ _ 0 ltac:(lia) Hent) as Hcount.
  pose proof (entries_from_In _ _ _ _ o Hent Hin) as [Ho Hw].
  unfold sizeof_DiskDirEntry in Hw.
  pose proof (load8_range window (o + 6)) as Hn.
  fold (nameLength window o) in Hn.
  assert (En : name = name_of window o).
  { unfold readEntries in HR. rewrite snd_bind in HR. cbn [snd emit] in HR.
    destruct (o <=? fileSize inode); cbn [assertion] in HR;
      [|rewrite snd_bind in HR; discriminate].
    rewrite bind_ret_l in HR.
    destruct (o =? fileSize inode); [discriminate|].
    cbv zeta in HR. rewrite !snd_bind in HR. cbn [snd emit] in HR.
    destruct (o + sizeof_DiskDirEntry <=? fileSize inode);
      cbn [assertion ret abort snd] in HR; [|discriminate].
    destruct (o + recordLength window o <=? fileSize inode);
      cbn [assertion ret abort snd] in HR; [|discriminate].
    now injection HR as <- _. }
  assert (Hnamed : named window o name).
  { split; [|now symmetry]. rewrite En. unfold name_of.
    rewrite length_firstn.
    pose proof (disk_name_length window o Ho). lia. }
  destruct (first_named window name offsets o Hin Hnamed)
    as (before & o' & rest & -> & Hn' & Hno).
  exists before, o', rest. split; [reflexivity|].
  split; [assumption|]. split; [assumption|].
  rewrite findEntry_unfold by assumption.
  rewrite (walk_found REG DIR SYMLINK window (fileSize inode) name
             Hwin Hnul before _ 0 o' rest Hent); [reflexivity| | |];
    try assumption.
  rewrite length_app in Hcount. simpl in Hcount. lia.
Qed.

Lemma readEntries_cases inode window offset :
  snd (readEntries inode window offset)
  = if negb (offset <=? fileSize inode) then Aborted CursorPastEnd
    else if offset =? fileSize inode then Done (None, offset)
    else if negb (offset + sizeof_DiskDirEntry <=? fileSize inode)
    then Aborted EntryHeaderPastEnd
    else if negb (offset + recordLength window offset <=? fileSize inode)
    then Aborted RecordPastEnd
    else Done (Some (name_of window offset),
               offset + recordLength window offset).
Proof.
  unfold readEntries. rewrite snd_bind. cbn [snd emit].
  destruct (offset <=? fileSize inode); cbn [assertion negb];
    [|now rewrite snd_bind].
  rewrite bind_ret_l.
  destruct (offset =? fileSize inode); [reflexivity|].
  cbv zeta. rewrite !snd_bind. cbn [snd emit].
  destruct (offset + sizeof_DiskDirEntry <=? fileSize inode);
    cbn [assertion ret abort snd negb]; [|reflexivity].
  destruct (offset + recordLength window offset <=? fileSize inode);
    reflexivity.
Qed.

(** X25. Successive calls of [readEntries] keep the cursor between where
    it was and [fileSize]: the assertion [offset <= fileSize] at the
    entry of a call does not fail after calls that returned, whatever the
    directory holds; and each call returns at most one name. *)
Theorem read_entries_keeps_cursor_within_file :
  forall count inode window offset,
    offset <= fileSize inode ->
    snd (read_names count inode window offset) <> Aborted CursorPastEnd /\
    forall names after,
      snd (read_names count inode window offset) = Done (names, after) ->
      offset <= after <= fileSize inode /\ (length names <= count)%nat.
Proof.
  induction count as [|count IH]; intros inode window offset Ho.
  - simpl. split; [discriminate|]. intros names after [= <- <-].
    simpl. lia.
  - cbn [read_names]. rewrite snd_bind, readEntries_cases.
    pose proof (le16_range window (offset + 4)) as R.
    fold (recordLength window offset) in R.
    destruct (Z.leb_spec offset (fileSize inode)); [|lia]. cbn [negb].
    destruct (Z.eqb_spec offset (fileSize inode)).
    { cbn. split; [discriminate|]. intros names after [= <- <-].
      simpl. lia. }
    destruct (offset + sizeof_DiskDirEntry <=? fileSize inode); cbn [negb];
      [|split; discriminate].
    destruct (Z.leb_spec (offset + recordLength window offset)
                (fileSize inode)); cbn [negb]; [|split; discriminate].
    cbn [fst snd]. rewrite snd_bind.
    destruct (IH inode window (offset + recordLength window offset)
                ltac:(lia)) as [I1 I2].
    destruct (snd (read_names count inode window
                     (offset + recordLength window offset)))
      as [[names' after']|e].
    + cbn. split; [discriminate|]. intros names after [= <- <-].
      destruct (I2 names' after' eq_refl). simpl. lia.
    + split; [assumption|discriminate].
Qed.

(** X26. On a record of length zero whose header lies within the file and
    which, with its name, lies within the mapped window, [readEntries]
    returns its name and leaves the cursor where it is: every further
    call returns the same name again. *)
Theorem read_entries_repeats_an_empty_record :
  forall count inode window offset,
    entry_mapped window offset ->
    offset + sizeof_DiskDirEntry <= fileSize inode ->
    recordLength window offset = 0 ->
    snd (read_names count inode window offset)
    = Done (repeat (name_of window offset) count, offset).
Proof.
  intros count inode window offset _ Hh Hz.
  unfold sizeof_DiskDirEntry in Hh.
  induction count as [|count IH]; [reflexivity|].
  cbn [read_names]. rewrite snd_bind, readEntries_cases.
  unfold sizeof_DiskDirEntry. rewrite Hz, Z.add_0_r.
  destruct (Z.leb_spec offset (fileSize inode)); [|lia].
  destruct (Z.eqb_spec offset (fileSize inode)); [lia|].
  destruct (Z.leb_spec (offset + 8) (fileSize inode)); [|lia].
  cbn [negb fst snd]. rewrite snd_bind, IH. reflexivity.
Qed.

(** ** The inode initializer *)

(** C4, amended. Whenever [initiateInode] runs to its end, it has
    created the page cache of the file, then raised [isReady] and
    triggered [readyJump], and only then created the two indirect caches
    and stored their handles. *)
Theorem initializer_raises_ready_before_indirect_caches :
  forall EXT2_S_IFMT EXT2_S_IFREG EXT2_S_IFLNK EXT2_S_IFDIR g inodeTable
         number disk_inode inode,
    snd (initiateInode EXT2_S_IFMT EXT2_S_IFREG EXT2_S_IFLNK EXT2_S_IFDIR
           g inodeTable number disk_inode) = Done inode ->
    fst (initiateInode EXT2_S_IFMT EXT2_S_IFREG EXT2_S_IFLNK EXT2_S_IFDIR
           g inodeTable number disk_inode)
    = [ReadSectors (inode_sector g inodeTable number) 1;
         CreateManagedMemory (cache_size (fileSize inode))
           BackingMemory FrontalMemory;
         RaiseReady;
         TriggerReady;
         CreateManagedMemory (order1_size g) BackingOrder1 IndirectOrder1;
         CreateManagedMemory (order2_size g) BackingOrder2 IndirectOrder2;
         StoreHandle IndirectOrder1;
         StoreHandle IndirectOrder2;
         Spawn (ManageIndirect 1);
         Spawn (ManageIndirect 2);
         Spawn ManageFileData].
Proof.
  intros IFMT IFREG IFLNK IFDIR g inodeTable number disk_inode inode.
  unfold initiateInode. cbv zeta.
  destruct (Z.land (di_mode disk_inode) IFMT =? IFREG);
    [|destruct (Z.land (di_mode disk_inode) IFMT =? IFLNK);
      [|destruct (Z.land (di_mode disk_inode) IFMT =? IFDIR)]];
    cbn; intros H; try discriminate; injection H as <-; reflexivity.
Qed.

(** *** Further properties of the inode initializer *)

(** X6. The sector that [initiateInode] reads, and the byte of it from
    which it copies the on-disk inode, are those of the record of the
    inode: byte [index * inodeSize] of the inode table of its group,
    where [index = (number - 1) mod inodesPerGroup].  For an inode size
    that is a power of two and not below [sizeof(DiskInode)], the record
    copied lies within the one sector read. *)
Theorem initializer_reads_the_record_of_the_inode :
  forall g inodeTable number sizeof_DiskInode,
    valid_geometry g -> 1 <= number < 2 ^ 32 -> 0 < inodesPerGroup g ->
    let group := (number - 1) / inodesPerGroup g in
    let index := (number - 1) mod inodesPerGroup g in
    (exists k, 0 <= k /\ inodeSize g = 2 ^ k) ->
    0 < sizeof_DiskInode <= inodeSize g -> sizeof_DiskInode <= 512 ->
    index * inodeSize g < 2 ^ 32 ->
    0 <= inodeTable group ->
    inodeTable group * sectorsPerBlock g + index * inodeSize g / 512 < 2 ^ 32 ->
    inode_sector g inodeTable number * 512 + inode_offset g number mod 512
    = inodeTable group * blockSize g + index * inodeSize g /\
    inode_offset g number mod 512 + sizeof_DiskInode <= 512.
Proof.
  intros g inodeTable number S Hg Hn Hipg group index [k [Hk Ek]] HS HS'
    Hidx Htab Hsec.
  pose proof (Z.mod_pos_bound (number - 1) (inodesPerGroup g) Hipg) as Hi.
  fold index in Hi.
  assert (Hq : 0 <= group <= number - 1).
  { unfold group. split; [apply Z.div_pos; lia|].
    apply Z.div_le_upper_bound; nia. }
  assert (E1 : Word.u32 (number - 1) = number - 1)
    by (apply WordFacts.u32_small; lia).
  assert (E2 : Word.u32 index = index)
    by (apply WordFacts.u32_small; lia).
  assert (E3 : Word.u32 group = group)
    by (apply WordFacts.u32_small; lia).
  assert (Hoff : 0 <= index * inodeSize g) by nia.
  assert (E4 : inode_offset g number = index * inodeSize g).
  { unfold inode_offset. rewrite E1. fold index. rewrite E2.
    apply WordFacts.u32_small. lia. }
  assert (E5 : inode_sector g inodeTable number
               = inodeTable group * sectorsPerBlock g
                 + index * inodeSize g / 512).
  { unfold inode_sector. cbv zeta. rewrite E1. fold group. fold index.
    rewrite E2, E3. rewrite (WordFacts.u32_small (index * inodeSize g)) by lia.
    apply WordFacts.u32_small.
    pose proof (sectorsPerBlock_pos g Hg).
    pose proof (Z.div_pos (index * inodeSize g) 512 Hoff ltac:(lia)). nia. }
  rewrite E4, E5. split.
  - pose proof (Z.div_mod (index * inodeSize g) 512 ltac:(lia)).
    rewrite <- (sectorsPerBlock_bytes g Hg). lia.
  - rewrite Ek in *.
    destruct (Z_lt_le_dec k 9) as [Hlt|Hge].
    + change 512 with (2 ^ 9) at 1.
      replace 9 with (k + (9 - k)) by lia.
      rewrite Z.pow_add_r, (Z.mul_comm index) by lia.
      rewrite Z.mul_mod_distr_l
        by (apply Z.pow_nonzero; lia).
      pose proof (Z.mod_pos_bound index (2 ^ (9 - k))
                    ltac:(apply Z.pow_pos_nonneg; lia)) as B.
      assert (P : 2 ^ k * 2 ^ (9 - k) = 512)
        by (rewrite <- Z.pow_add_r by lia;
            replace (k + (9 - k)) with 9 by lia; reflexivity).
      nia.
    + replace k with (9 + (k - 9)) by lia.
      rewrite Z.pow_add_r, Z.mul_assoc, (Z.mul_comm index),
        <- Z.mul_assoc, Z.mul_comm by lia.
      change (2 ^ 9) with 512. rewrite Z.mod_mul by lia. lia.
Qed.

(** X3. The group descriptor that [initiateInode] consults for an inode
    of a counted block group lies within the buffer that [init] has
    filled: the buffer holds whole sectors and the descriptors of all
    [numBlockGroups] groups. *)
Theorem descriptor_of_counted_group_is_loaded :
  forall sizeof_DiskGroupDesc g number,
    0 < sizeof_DiskGroupDesc -> 0 < inodesPerGroup g ->
    0 <= numBlockGroups g ->
    numBlockGroups g * sizeof_DiskGroupDesc < 2 ^ 63 ->
    1 <= number <= numBlockGroups g * inodesPerGroup g -> number < 2 ^ 32 ->
    0 <= inode_group g number < numBlockGroups g /\
    (inode_group g number + 1) * sizeof_DiskGroupDesc
    <= bgdt_size sizeof_DiskGroupDesc g /\
    bgdt_size sizeof_DiskGroupDesc g mod 512 = 0.
Proof.
  intros S g number HS Hipg Hn Hsmall Hnum H32.
  assert (Hgrp : 0 <= (number - 1) / inodesPerGroup g < numBlockGroups g).
  { split; [apply Z.div_pos; lia|]. apply Z.div_lt_upper_bound; lia. }
  assert (Eg : inode_group g number = (number - 1) / inodesPerGroup g).
  { unfold inode_group. rewrite (WordFacts.u32_small (number - 1)) by lia.
    apply WordFacts.u32_small. split; [lia|].
    apply Z.le_lt_trans with (number - 1); [|lia].
    apply Z.div_le_upper_bound; nia. }
  rewrite Eg. split; [assumption|].
  assert (E : bgdt_size S g = 512 * ((numBlockGroups g * S + 511) / 512)).
  { unfold bgdt_size.
    rewrite (WordFacts.u64_small (_ * S))
      by (change (2 ^ 64) with (2 * 2 ^ 63); nia).
    rewrite WordFacts.u64_small
      by (change (2 ^ 64) with (2 * 2 ^ 63);
          change (2 ^ 63) with 9223372036854775808 in *; nia).
    change 511 with (2 ^ 9 - 1) at 2. now rewrite round_down_pow2 by lia. }
  rewrite E. split.
  - pose proof (Z.div_mod (numBlockGroups g * S + 511) 512 ltac:(lia)).
    pose proof (Z.mod_pos_bound (numBlockGroups g * S + 511) 512 ltac:(lia)).
    nia.
  - rewrite Z.mul_comm. apply Z.mod_mul. lia.
Qed.

(** ** The cache of the inodes in use *)

Lemma disown_nth l : forall o o',
  nth_error (disown l o) o'
  = if Nat.eqb o o'
    then option_map (fun x => (fst x, false)) (nth_error l o')
    else nth_error l o'.
Proof.
  induction l as [|[n b] l IH]; intros o o'.
  - simpl. destruct o'; destruct (Nat.eqb o _); reflexivity.
  - destruct o as [|o]; destruct o' as [|o']; simpl; try reflexivity.
    apply IH.
Qed.

Lemma registered_release c o : registered c -> registered (release c o).
Proof.
  intros [R1 R2]. split.
  - intros o' n. unfold in_use, number_of, release. cbn [inodes activeInodes].
    rewrite disown_nth. destruct (Nat.eqb o o') eqn:E.
    + destruct (nth_error (inodes c) o') as [[m b]|]; simpl; discriminate.
    + apply R1.
  - intros o' n H. specialize (R2 o' n H).
    unfold number_of, release in *. cbn [inodes activeInodes] in *.
    rewrite disown_nth. destruct (Nat.eqb o o'); [|assumption].
    destruct (nth_error (inodes c) o') as [[m b]|]; simpl in *; assumption.
Qed.

(** A new inode takes a slot whose inode has expired, or that is empty:
    no object in use loses its slot. *)
Lemma registered_access c number :
  registered c -> registered (snd (accessInode c number)).
Proof.
  intros [R1 R2]. unfold accessInode.
  destruct (0 <? number); [|now split].
  destruct (lock_slot c number) as [a|] eqn:L; [now split|].
  cbn [snd]. split.
  - intros o n. unfold in_use, number_of. cbn [inodes activeInodes].
    destruct (Nat.lt_ge_cases o (length (inodes c))) as [Hlt|Hge].
    + rewrite nth_error_app1 by assumption. intros U N.
      pose proof (R1 o n U N) as S.
      destruct (Z.eqb_spec n number) as [->|]; [|assumption].
      unfold lock_slot, in_use in L. rewrite S, U in L. discriminate.
    + rewrite nth_error_app2 by assumption.
      destruct (o - length (inodes c))%nat as [|d] eqn:D.
      * simpl. intros _ [= <-]. rewrite Z.eqb_refl. f_equal. lia.
      * simpl. destruct d; discriminate.
  - intros o n. unfold number_of. cbn [inodes activeInodes].
    destruct (Z.eqb_spec n number) as [->|].
    + intros [= <-]. now rewrite nth_error_app2, Nat.sub_diag by lia.
    + intros H. specialize (R2 o n H). unfold number_of in R2.
      destruct (nth_error (inodes c) o) as [x|] eqn:E; [|discriminate].
      rewrite nth_error_app1 by (apply nth_error_Some; congruence).
      now rewrite E.
Qed.

Lemma registered_replay events :
  forall c, registered c -> registered (replay events c).
Proof.
  induction events as [|[number|o] rest IH]; intros c R; simpl.
  - assumption.
  - apply IH, registered_access, R.
  - apply IH, registered_release, R.
Qed.

(** X4. Whatever calls of [accessInode] and releases of inodes a
    filesystem has seen, an [Inode] object that is still in use is the one
    that [activeInodes] names for its inode number: no two objects in use
    stand for the same inode. *)
Theorem inode_cache_keeps_one_record_per_number :
  forall events o1 o2 n,
    let cache := replay events no_inodes in
    in_use cache o1 = true -> in_use cache o2 = true ->
    number_of cache o1 = Some n -> number_of cache o2 = Some n ->
    activeInodes cache n = Some o1 /\ o1 = o2.
Proof.
  intros events o1 o2 n cache U1 U2 N1 N2.
  assert (R : registered cache).
  { apply registered_replay. split; intros o m H; [|discriminate].
    unfold in_use in H. simpl in H. destruct o; discriminate. }
  destruct R as [R1 _].
  pose proof (R1 o1 n U1 N1) as S1. pose proof (R1 o2 n U2 N2) as S2.
  split; [assumption|congruence].
Qed.

Lemma accessInode_hit c number o :
  0 < number -> activeInodes c number = Some o -> in_use c o = true ->
  accessInode c number = (Active o, c).
Proof.
  intros Hn S U. unfold accessInode, lock_slot.
  destruct (Z.ltb_spec 0 number); [|lia]. now rewrite S, U.
Qed.

(** An inode that is not released keeps its slot. *)
Lemma held_replay events number o : forall c,
  activeInodes c number = Some o -> in_use c o = true ->
  ~ In (Released o) events ->
  activeInodes (replay events c) number = Some o /\
  in_use (replay events c) o = true.
Proof.
  induction events as [|[m|o'] rest IH]; intros c S U Hno; simpl.
  - now split.
  - apply IH; [| |intros H; apply Hno; now right].
    + unfold accessInode. destruct (0 <? m); [|assumption].
      destruct (lock_slot c m) as [a|] eqn:L; [assumption|].
      cbn [snd activeInodes].
      destruct (Z.eqb_spec number m) as [->|]; [|assumption].
      unfold lock_slot in L. rewrite S, U in L. discriminate.
    + unfold accessInode. destruct (0 <? m); [|assumption].
      destruct (lock_slot c m) as [a|] eqn:L; [assumption|].
      unfold in_use in *. cbn [snd inodes].
      destruct (nth_error (inodes c) o) as [x|] eqn:E; [|discriminate].
      rewrite nth_error_app1 by (apply nth_error_Some; congruence).
      now rewrite E.
  - apply IH; [assumption| |intros H; apply Hno; now right].
    unfold in_use, release in *. cbn [inodes]. rewrite disown_nth.
    destruct (Nat.eqb_spec o' o) as [->|]; [|assumption].
    exfalso. apply Hno. now left.
Qed.

(** X5. An inode that [accessInode] has made is returned again by every
    later call for its number, without a second [initiateInode] and with
    the cache left as it is, as long as the inode has not been released;
    calls for other numbers and releases of other inodes in between do
    not matter. *)
Theorem inode_in_use_is_returned_again :
  forall cache number o cache' events,
    accessInode cache number = (Initiated o, cache') ->
    ~ In (Released o) events ->
    accessInode (replay events cache') number
    = (Active o, replay events cache').
Proof.
  intros cache number o cache' events H Hno.
  unfold accessInode in H.
  destruct (Z.ltb_spec 0 number) as [Hn|]; [|discriminate].
  destruct (lock_slot cache number); [discriminate|].
  injection H as <- <-.
  destruct (held_replay events number (length (inodes cache))
              {| activeInodes := fun n => if n =? number
                                          then Some (length (inodes cache))
                                          else activeInodes cache n;
                 inodes := inodes cache ++ [(number, true)] |})
    as [S U]; try assumption.
  - cbn. now rewrite Z.eqb_refl.
  - unfold in_use. cbn [inodes].
    now rewrite nth_error_app2, Nat.sub_diag by lia.
  - now apply accessInode_hit.
Qed.

(** ** The scenarios of section 8, evaluated *)

Module ScenarioFacts.

Import Scenario.

Lemma geometry_of_superblock : geometry_of superblock = Done geometry.
Proof. reflexivity. Qed.

Lemma geometry_valid : valid_geometry geometry.
Proof. apply (geometry_of_valid superblock); [reflexivity|simpl; lia]. Qed.

(** S2, first manage event: one read of 8 sectors at LBA 200 fills the
    page. *)
Lemma first_page_of_F_read :
  readData geometry fileF medium 0 4 (window 4096)
  = ([AwaitReady; ReadSectors 200 8], Done first_page_of_F).
Proof. vm_compute. reflexivity. Qed.

(** S2, second manage event: the one remaining block is read alone. *)
Lemma last_block_of_F_read :
  fst (readData geometry fileF medium 4 1 (window 4096))
  = [AwaitReady; ReadSectors 208 2].
Proof. vm_compute. reflexivity. Qed.

(** A sixth block of F is a hole: the read of the five mapped blocks is
    issued, then the mapper refuses. *)
Lemma hole_behind_F :
  readData geometry fileF medium 0 6 (window 8192)
  = ([AwaitReady; ReadSectors 200 10], Aborted HoleEncountered).
Proof. vm_compute. reflexivity. Qed.

(** S3 on blocks of 1 KiB: the single-indirect table is fused as a
    whole. *)
Lemma single_indirect_fused :
  issue_at geometry fileH mediumH 12 256
  = ([LockMemory IndirectOrder1 0 4096; MapMemory IndirectOrder1 0 4096],
     Done (200, 256)).
Proof. vm_compute. reflexivity. Qed.

(** The first leaf under the double-indirect block. *)
Lemma double_indirect_fused :
  issue_at geometry fileH mediumH (12 + 256 + 3) 1000
  = ([LockMemory IndirectOrder2 0 4096; MapMemory IndirectOrder2 0 4096],
     Done (1003, 253)).
Proof. vm_compute. reflexivity. Qed.

Ltac compare := vm_compute; (reflexivity || discriminate).

Lemma root_well_formed : well_formed root_window (fileSize root) root_offsets.
Proof.
  unfold well_formed, root_offsets, entries_from, entry_within.
  repeat split; compare.
Qed.

Lemma odd_well_formed :
  well_formed odd_window (fileSize odd_directory) [0].
Proof.
  unfold well_formed, entries_from, entry_within. repeat split; compare.
Qed.

(** S1: "hello" is found in the root directory, as a regular file. *)
Lemma hello_found :
  snd (findEntry 1 2 7 root root_window hello)
  = Done (Some {| entry_inode := 12; entry_fileType := kTypeRegular |}).
Proof. vm_compute. reflexivity. Qed.

(** S6: a directory of size zero has no entries, and none is read. *)
Lemma empty_directory_has_no_entries inode window :
  fileSize inode = 0 ->
  findEntry 1 2 7 inode window hello
  = ([AwaitReady; LockMemory FrontalMemory 0 0; MapMemory FrontalMemory 0 0],
     Done None).
Proof. intros H. unfold findEntry. rewrite H. reflexivity. Qed.

Lemma geometry8k_valid : valid_geometry geometry8k.
Proof. unfold valid_geometry. simpl. repeat split; (lia || reflexivity). Qed.

End ScenarioFacts.

(** ** The properties on the scenarios *)

(** Closed comparisons of integers. *)
Ltac bounds := vm_compute; repeat split; (discriminate || reflexivity).

Lemma mapper_reads_mapped_blocks_witness :
  readData Scenario.geometry Scenario.fileF Scenario.medium 0 4
    (Scenario.window 4096)
  = ([AwaitReady; ReadSectors 200 8], Done Scenario.first_page_of_F) /\
  nth_error (fetched Scenario.geometry [AwaitReady; ReadSectors 200 8]) 2
  = Some (u32_at (direct Scenario.fileF) 2).
Proof.
  split; [exact ScenarioFacts.first_page_of_F_read|].
  apply (mapper_reads_mapped_blocks Scenario.geometry Scenario.fileF
           Scenario.medium 0 4 (Scenario.window 4096) _ _
           ScenarioFacts.geometry_valid ltac:(lia)
           ScenarioFacts.first_page_of_F_read 2 ltac:(lia)).
  simpl. lia.
Defined.

Lemma fuse_is_maximal_within_request_witness :
  issue_at Scenario.geometry Scenario.fileF Scenario.medium 0 4
  = ([], Done (100, 4)) /\
  1 <= 4 <= 4 /\
  fusable Scenario.geometry Scenario.fileF Scenario.medium 0 4 /\
  forall m, 1 <= m <= 4 ->
    fusable Scenario.geometry Scenario.fileF Scenario.medium 0 m -> m <= 4.
Proof.
  assert (E : issue_at Scenario.geometry Scenario.fileF Scenario.medium 0 4
              = ([], Done (100, 4))) by (vm_compute; reflexivity).
  split; [exact E|].
  exact (fuse_is_maximal_within_request Scenario.geometry Scenario.fileF
           Scenario.medium 0 4 [] 100 4 ScenarioFacts.geometry_valid
           ltac:(lia) ltac:(lia) E).
Defined.

(** C2 as it is worded fails on scenario S2: with four blocks left of the
    request the mapper fuses the blocks 100 to 103, while the five blocks
    100 to 104 satisfy the three constraints. *)
Lemma fuse_stops_at_request_end :
  issue_at Scenario.geometry Scenario.fileF Scenario.medium 0 4
  = ([], Done (100, 4)) /\
  ~ largest_fusable Scenario.geometry Scenario.fileF Scenario.medium 0 4.
Proof.
  split; [vm_compute; reflexivity|].
  intros (_ & _ & Hmax).
  assert (H5 : fusable Scenario.geometry Scenario.fileF Scenario.medium 0 5).
  { intros k Hk.
    assert (Hc : k = 0 \/ k = 1 \/ k = 2 \/ k = 3 \/ k = 4) by lia.
    destruct Hc as [->|[->|[->|[->| ->]]]];
      (split; [reflexivity|]; split; [|vm_compute; reflexivity];
       eexists; split; [reflexivity|vm_compute; reflexivity]). }
  specialize (Hmax 5 H5). lia.
Qed.

Lemma fused_reads_deliver_blockwise_bytes_witness :
  snd (readData Scenario.geometry Scenario.fileF Scenario.medium 0 4
         (Scenario.window 4096))
  = snd (readData_blockwise Scenario.geometry Scenario.fileF Scenario.medium
           0 4 (Scenario.window 4096)).
Proof.
  apply (fused_reads_deliver_blockwise_bytes Scenario.geometry Scenario.fileF
           Scenario.medium 0 4 (Scenario.window 4096)
           ScenarioFacts.geometry_valid ltac:(lia)).
Defined.

Lemma mapper_never_reads_block_zero_witness :
  valid_geometry Scenario.geometry /\
  forall sector count,
    In (ReadSectors sector count)
      (fst (readData Scenario.geometry Scenario.fileF Scenario.medium 0 4
              (Scenario.window 4096))) ->
    exists block, block <> 0 /\ sector = block * 2.
Proof.
  split; [exact ScenarioFacts.geometry_valid|].
  apply (mapper_never_reads_block_zero Scenario.geometry Scenario.fileF
           Scenario.medium 0 4 (Scenario.window 4096)
           ScenarioFacts.geometry_valid ltac:(lia)).
Defined.

Lemma initializer_raises_ready_before_indirect_caches_witness :
  fst (initiateInode 0xF000 0x8000 0xA000 0x4000 Scenario.geometry
         Scenario.inode_table 2 Scenario.root_on_disk)
  = [ReadSectors 10 1;
     CreateManagedMemory 4096 BackingMemory FrontalMemory;
     RaiseReady;
     TriggerReady;
     CreateManagedMemory 12288 BackingOrder1 IndirectOrder1;
     CreateManagedMemory 1048576 BackingOrder2 IndirectOrder2;
     StoreHandle IndirectOrder1;
     StoreHandle IndirectOrder2;
     Spawn (ManageIndirect 1);
     Spawn (ManageIndirect 2);
     Spawn ManageFileData].
Proof.
  rewrite (initializer_raises_ready_before_indirect_caches
             0xF000 0x8000 0xA000 0x4000 Scenario.geometry
             Scenario.inode_table 2 Scenario.root_on_disk
             Scenario.root eq_refl).
  vm_compute. reflexivity.
Defined.

Lemma file_handler_serves_event_witness :
  manageFileData Scenario.geometry Scenario.fileF Scenario.medium 0 4096
  = ([MapMemory BackingMemory 0 4096; AwaitReady; ReadSectors 200 8;
      CompleteLoad BackingMemory 0 4096; UnmapMemory BackingMemory 0 4096],
     Done Scenario.first_page_of_F).
Proof.
  pose proof (file_handler_serves_event Scenario.geometry Scenario.fileF
                Scenario.medium 0 4096 ScenarioFacts.geometry_valid
                ltac:(bounds)
                ltac:(bounds) ltac:(lia)
                ltac:(bounds)) as H.
  cbv zeta in H. rewrite H. vm_compute. reflexivity.
Defined.

Lemma order2_handler_serves_one_page_witness :
  fst (manageIndirect Scenario.geometry Scenario.fileH Scenario.mediumH 2
         BackingOrder2 12288 4096)
  = [LockMemory IndirectOrder1 4096 4096; MapMemory IndirectOrder1 4096 4096;
     MapMemory BackingOrder2 12288 4096; ReadSectors 606 2;
     CompleteLoad BackingOrder2 12288 4096].
Proof.
  destruct (order2_handler_serves_one_page Scenario.geometry Scenario.fileH
              Scenario.mediumH 12288 4096 ScenarioFacts.geometry_valid
              ltac:(bounds)) as (table & HT & HE & _).
  vm_compute in HT. injection HT as <-.
  rewrite HE; vm_compute; reflexivity.
Defined.

(** C6 as it is worded fails on an event of two pages: the handler locks
    and maps the double-indirect root and stops at its assertion, without
    a read and without completing the load. *)
Lemma order2_handler_stops_on_two_pages :
  0 <= 0 < order2_size Scenario.geometry /\
  manageIndirect Scenario.geometry Scenario.fileH Scenario.mediumH 2
    BackingOrder2 0 8192
  = ([LockMemory IndirectOrder1 4096 4096; MapMemory IndirectOrder1 4096 4096],
     Aborted MultiPageBlock).
Proof.
  split; [bounds|]. vm_compute. reflexivity.
Qed.

Lemma order2_handler_locks_slot_1_only_witness :
  0 <= 12288 < order2_size Scenario.geometry /\
  In (LockMemory IndirectOrder1 (1 * page Scenario.geometry)
        (page Scenario.geometry))
    (fst (manageIndirect Scenario.geometry Scenario.fileH Scenario.mediumH 2
            BackingOrder2 12288 4096)).
Proof.
  assert (H : 0 <= 12288 < order2_size Scenario.geometry)
    by bounds.
  split; [exact H|].
  apply (order2_handler_locks_slot_1_only Scenario.geometry Scenario.fileH
           Scenario.mediumH 12288 4096 ScenarioFacts.geometry_valid H).
Defined.

Lemma find_entry_returns_first_match_witness :
  well_formed Scenario.root_window (fileSize Scenario.root)
    Scenario.root_offsets /\
  named Scenario.root_window 24 Scenario.hello /\
  exists type,
    snd (findEntry 1 2 7 Scenario.root Scenario.root_window Scenario.hello)
    = Done (Some {| entry_inode := disk_inode Scenario.root_window 24;
                    entry_fileType := type |}) /\
    type = kTypeRegular.
Proof.
  assert (N : named Scenario.root_window 24 Scenario.hello)
    by (split; vm_compute; reflexivity).
  split; [exact ScenarioFacts.root_well_formed|]. split; [exact N|].
  destruct (proj1 (find_entry_returns_first_match 1 2 7 Scenario.root
                     Scenario.root_window Scenario.hello Scenario.root_offsets
                     ltac:(lia) ltac:(lia) ltac:(lia)
                     ScenarioFacts.root_well_formed
                     ltac:(discriminate) ltac:(discriminate)
                     ltac:(discriminate)
                     ltac:(simpl; intuition discriminate))
              [0; 12] 24 [40] eq_refl
              ltac:(intros o [<-|[<-|[]]] [E _]; vm_compute in E;
                    discriminate)
              N) as (type & E & T & _).
  exists type. split; [exact E|]. apply T. vm_compute. reflexivity.
Defined.

(** C7. The code departs from the claim on a name with a NUL byte.  The
    directory is well-formed and holds the one entry "a\0c" (inode 5, a
    regular file); the name asked for, "a\0b", is not empty and is not "."
    or "..", and no entry of the directory has its bytes.  The claim has
    [findEntry] return nothing; the [strncmp] of the code stops at the NUL
    and [findEntry] returns the entry "a\0c". *)
Lemma find_entry_matches_up_to_nul :
  well_formed Scenario.odd_window (fileSize Scenario.odd_directory) [0] /\
  Scenario.asked_name <> [] /\ Scenario.asked_name <> dot /\
  Scenario.asked_name <> dotdot /\
  (forall o, In o [0] -> ~ named Scenario.odd_window o Scenario.asked_name) /\
  snd (findEntry 1 2 7 Scenario.odd_directory Scenario.odd_window
         Scenario.asked_name)
  = Done (Some {| entry_inode := 5; entry_fileType := kTypeRegular |}).
Proof.
  split; [exact ScenarioFacts.odd_well_formed|].
  repeat (split; [discriminate|]). split.
  - intros o [<-|[]] [_ E]. vm_compute in E. discriminate.
  - vm_compute. reflexivity.
Qed.

Lemma read_entries_enumerates_witness :
  well_formed Scenario.root_window (fileSize Scenario.root)
    Scenario.root_offsets /\
  snd (read_names 1 Scenario.root Scenario.root_window 0)
  = Done ([dot], 12) /\
  snd (read_names 2 Scenario.root Scenario.root_window 0)
  = Done ([dot; dotdot], 24) /\
  snd (read_names 3 Scenario.root Scenario.root_window 0)
  = Done ([dot; dotdot; Scenario.hello], 40) /\
  snd (read_names 4 Scenario.root Scenario.root_window 0)
  = Done ([dot; dotdot; Scenario.hello; Scenario.world], 1024) /\
  snd (readEntries Scenario.root Scenario.root_window 1024)
  = Done (None, 1024).
Proof.
  pose proof (read_entries_enumerates Scenario.root Scenario.root_window
                Scenario.root_offsets ScenarioFacts.root_well_formed) as [T _].
  split; [exact ScenarioFacts.root_well_formed|].
  split; [rewrite (T 1%nat) by (simpl; lia); vm_compute; reflexivity|].
  split; [rewrite (T 2%nat) by (simpl; lia); vm_compute; reflexivity|].
  split; [rewrite (T 3%nat) by (simpl; lia); vm_compute; reflexivity|].
  split; [rewrite (T 4%nat) by (simpl; lia); vm_compute; reflexivity|].
  vm_compute. reflexivity.
Defined.

(** C4 as it is worded fails on the root inode: [isReady] is raised third,
    the indirect caches are created fifth and sixth. *)
Lemma indirect_caches_created_after_ready :
  snd (initiateInode 0xF000 0x8000 0xA000 0x4000 Scenario.geometry
         Scenario.inode_table 2 Scenario.root_on_disk)
  = Done Scenario.root /\
  ~ all_caches_before_ready
      (fst (initiateInode 0xF000 0x8000 0xA000 0x4000 Scenario.geometry
              Scenario.inode_table 2 Scenario.root_on_disk)).
Proof.
  split; [reflexivity|].
  intros (_ & H & _). vm_compute in H. lia.
Qed.

(** ** The further properties on the scenarios *)

Lemma loader_derives_geometry_witness :
  snd (init 32 Scenario.superblock) = Done Scenario.geometry /\
  valid_geometry Scenario.geometry /\
  sectorsPerBlock Scenario.geometry * 512 = blockSize Scenario.geometry.
Proof.
  assert (E : snd (init 32 Scenario.superblock) = Done Scenario.geometry)
    by reflexivity.
  split; [exact E|].
  destruct (loader_derives_geometry 32 Scenario.superblock Scenario.geometry
              E ltac:(bounds) ltac:(bounds) ltac:(bounds))
    as (_ & V & _ & B & _).
  split; assumption.
Defined.

Lemma loader_reads_descriptors_behind_superblock_witness :
  init 32 Scenario.superblock
  = ([ReadSectors 2 2; ReadSectors 4 1], Done Scenario.geometry).
Proof.
  exact (loader_reads_descriptors_behind_superblock 32 Scenario.superblock
           ltac:(bounds) ltac:(bounds) ltac:(bounds)).
Defined.

Lemma inode_cache_keeps_one_record_per_number_witness :
  activeInodes (replay [Accessed 2; Accessed 12; Accessed 2] no_inodes) 2
  = Some 0%nat /\ 0%nat = 0%nat.
Proof.
  exact (inode_cache_keeps_one_record_per_number
           [Accessed 2; Accessed 12; Accessed 2] 0%nat 0%nat 2
           eq_refl eq_refl eq_refl eq_refl).
Defined.

Lemma inode_in_use_is_returned_again_witness :
  fst (accessInode
         (replay [Accessed 12; Released 1%nat] (snd (accessInode no_inodes 2))) 2)
  = Active 0%nat.
Proof.
  rewrite (inode_in_use_is_returned_again no_inodes 2 0%nat
             (snd (accessInode no_inodes 2)) [Accessed 12; Released 1%nat]
             eq_refl
             ltac:(simpl; intuition discriminate)).
  reflexivity.
Defined.

Lemma order1_handler_serves_roots_witness :
  fst (manageIndirect Scenario.geometry Scenario.fileH Scenario.mediumH 1
         BackingOrder1 4096 4096)
  = [MapMemory BackingOrder1 4096 4096; ReadSectors 16 2;
     CompleteLoad BackingOrder1 4096 4096].
Proof.
  pose proof (proj2 (proj2
                (order1_handler_serves_roots Scenario.geometry Scenario.fileH
                   Scenario.mediumH 4096 4096 ScenarioFacts.geometry_valid
                   ltac:(bounds)))) as H.
  cbv zeta in H. rewrite H; vm_compute; reflexivity.
Defined.

Lemma mapper_follows_pointers_on_disk_witness :
  exists n,
    snd (issue_at Scenario.geometry Scenario.fileH Scenario.mediumH 271 1000)
    = Done (pointer_at Scenario.geometry Scenario.mediumH
              (pointer_at Scenario.geometry Scenario.mediumH
                 (doubleIndirect Scenario.fileH)
                 ((271 - s_range Scenario.geometry)
                  / per_indirect Scenario.geometry))
              ((271 - s_range Scenario.geometry)
               mod per_indirect Scenario.geometry), n).
Proof.
  exact (proj2 (mapper_follows_pointers_on_disk Scenario.geometry
                  Scenario.fileH Scenario.mediumH 271 1000
                  ScenarioFacts.geometry_valid) ltac:(bounds)
           ltac:(vm_compute; reflexivity) ltac:(vm_compute; reflexivity)).
Defined.

Lemma mapper_locks_within_indirect_caches_witness :
  4096 = page Scenario.geometry /\
  ((IndirectOrder1 = IndirectOrder1 /\ 0 = 0 /\
    0 + 4096 <= order1_size Scenario.geometry) \/
   (IndirectOrder1 = IndirectOrder2 /\ 0 <= 0 /\
    0 mod page Scenario.geometry = 0 /\
    0 + 4096 <= order2_size Scenario.geometry)).
Proof.
  apply (mapper_locks_within_indirect_caches Scenario.geometry Scenario.fileH
           Scenario.mediumH 12 1 (Scenario.window 4096)
           IndirectOrder1 0 4096 ScenarioFacts.geometry_valid ltac:(bounds)).
  vm_compute. right. left. reflexivity.
Defined.

Lemma mapper_ends_within_one_read_per_block_witness :
  snd (readData Scenario.geometry Scenario.fileF Scenario.medium 0 4
         (Scenario.window 4096)) <> Aborted Diverged /\
  Z.of_nat (length (device_reads
                      (fst (readData Scenario.geometry Scenario.fileF
                              Scenario.medium 0 4 (Scenario.window 4096)))))
  <= Z.max 0 4.
Proof.
  exact (mapper_ends_within_one_read_per_block Scenario.geometry
           Scenario.fileF Scenario.medium 0 4 (Scenario.window 4096)
           ScenarioFacts.geometry_valid ltac:(bounds)).
Defined.

Lemma request_past_double_indirect_is_refused_witness :
  exists e,
    snd (readData Scenario.geometry Scenario.fileH Scenario.mediumH 65804 1
           (Scenario.window 4096)) = Aborted e /\
    (e = TripleIndirect \/ e = HoleEncountered \/ e = WindowFault).
Proof.
  exact (request_past_double_indirect_is_refused Scenario.geometry
           Scenario.fileH Scenario.mediumH 65804 1 (Scenario.window 4096)
           ScenarioFacts.geometry_valid ltac:(bounds) ltac:(bounds)
           ltac:(bounds)).
Defined.

Lemma consecutive_blocks_are_read_at_once_witness :
  fst (readData Scenario.geometry Scenario.fileF Scenario.medium 0 5
         (Scenario.window 8192))
  = [AwaitReady; ReadSectors 200 10].
Proof.
  rewrite (consecutive_blocks_are_read_at_once Scenario.geometry
             Scenario.fileF Scenario.medium 0 5 (Scenario.window 8192)
             (direct Scenario.fileF) ScenarioFacts.geometry_valid
             ltac:(bounds) ltac:(bounds) eq_refl ltac:(bounds)
             ltac:(intros k Hk;
                   assert (C : k = 0 \/ k = 1 \/ k = 2 \/ k = 3 \/ k = 4)
                     by lia;
                   destruct C as [->|[->|[->|[->| ->]]]];
                   vm_compute; reflexivity)
             ltac:(vm_compute; discriminate)).
  vm_compute. reflexivity.
Defined.

Lemma mapper_stays_within_its_buffer_witness :
  snd (readData Scenario.geometry Scenario.fileF Scenario.medium 0 4
         (Scenario.window 4096)) <> Aborted WindowFault.
Proof.
  apply (mapper_stays_within_its_buffer Scenario.geometry Scenario.fileF
           Scenario.medium 0 4 (Scenario.window 4096)
           ScenarioFacts.geometry_valid ltac:(bounds) ltac:(bounds)).
Defined.

Lemma page_cache_is_least_cover_of_file_witness :
  cache_size 5000 mod pageSize = 0 /\
  5000 <= cache_size 5000 < 5000 + pageSize.
Proof.
  destruct (page_cache_is_least_cover_of_file 5000 ltac:(lia))
    as (H1 & H2 & _).
  split; assumption.
Defined.

Lemma file_handler_refuses_events_below_one_block_witness :
  manageFileData Scenario.geometry8k Scenario.fileF Scenario.medium 0 4096
  = ([MapMemory BackingMemory 0 4096], Aborted WindowTooSmall).
Proof.
  exact (file_handler_refuses_events_below_one_block Scenario.geometry8k
           Scenario.fileF Scenario.medium 0 4096 ScenarioFacts.geometry8k_valid
           ltac:(bounds) ltac:(bounds) ltac:(bounds) ltac:(bounds)).
Defined.

Lemma file_handler_stays_within_its_window_witness :
  snd (manageFileData Scenario.geometry Scenario.fileF Scenario.medium 0 4096)
  <> Aborted WindowFault.
Proof.
  apply (file_handler_stays_within_its_window Scenario.geometry
           Scenario.fileF Scenario.medium 0 4096 ScenarioFacts.geometry_valid
           ltac:(bounds) ltac:(bounds) ltac:(lia) ltac:(bounds)).
Defined.

Lemma file_handler_pages_in_file_blocks_witness :
  exists trace blocks,
    Forall2 (fun L P => physical_of Scenario.geometry Scenario.fileF
                          Scenario.medium L = Done P)
      [0; 1; 2; 3] blocks /\
    fst (manageFileData Scenario.geometry Scenario.fileF Scenario.medium
           0 4096)
    = MapMemory BackingMemory 0 4096
        :: trace ++ [CompleteLoad BackingMemory 0 4096;
                     UnmapMemory BackingMemory 0 4096].
Proof.
  destruct (file_handler_pages_in_file_blocks Scenario.geometry
              Scenario.fileF Scenario.medium 0 4096
              ScenarioFacts.geometry_valid ltac:(bounds) ltac:(bounds)
              ltac:(lia) ltac:(bounds) eq_refl eq_refl ltac:(bounds)
              ltac:(intros L HL;
                    assert (C : L = 0 \/ L = 1 \/ L = 2 \/ L = 3)
                      by (change (0 <= L < 4) in HL; lia);
                    destruct C as [->|[->|[-> | ->]]];
                    vm_compute; discriminate))
    as (trace & blocks & HF & HE).
  exists trace, blocks. split; [exact HF|]. now rewrite HE.
Defined.

Lemma find_entry_never_finds_long_names_witness :
  snd (findEntry 1 2 7 Scenario.root Scenario.root_window Scenario.long_name)
  <> Done (Some {| entry_inode := 12; entry_fileType := kTypeRegular |}).
Proof.
  apply (find_entry_never_finds_long_names 1 2 7 Scenario.root
           Scenario.root_window Scenario.long_name _ ltac:(bounds)).
Defined.

Lemma find_entry_ends_unless_a_record_is_empty_witness :
  findEntry_walk 1 2 7 1000 Scenario.stuck_window
    (fileSize Scenario.stuck_directory) Scenario.long_name 0 = Endless.
Proof.
  pose proof (find_entry_ends_unless_a_record_is_empty 1 2 7
                Scenario.stuck_directory Scenario.stuck_window
                Scenario.long_name
                ltac:(intros o H; vm_compute in H;
                      repeat (destruct H as [<-|H];
                              [vm_compute; split; intro; discriminate|]);
                      destruct H)) as [_ H].
  apply (H 0 ltac:(vm_compute; now left) ltac:(vm_compute; reflexivity)
           ltac:(vm_compute; reflexivity) 1000%nat).
Defined.

Lemma enumerated_names_are_found_witness :
  exists before o' rest,
    Scenario.root_offsets = before ++ o' :: rest /\
    (forall x, In x before -> ~ named Scenario.root_window x Scenario.hello) /\
    named Scenario.root_window o' Scenario.hello /\
    snd (findEntry 1 2 7 Scenario.root Scenario.root_window Scenario.hello)
    = Done (Some {| entry_inode := disk_inode Scenario.root_window o';
                    entry_fileType :=
                      entry_type 1 2 7
                        (diskFileType Scenario.root_window o') |}).
Proof.
  apply (enumerated_names_are_found 1 2 7 Scenario.root Scenario.root_window
           Scenario.root_offsets 24 Scenario.hello 40
           ScenarioFacts.root_well_formed
           ltac:(simpl; tauto)
           ltac:(vm_compute; reflexivity)
           ltac:(discriminate) ltac:(discriminate) ltac:(discriminate)
           ltac:(simpl; intuition discriminate)).
Defined.

Lemma read_entries_keeps_cursor_within_file_witness :
  snd (read_names 2 Scenario.root Scenario.root_window 0)
  <> Aborted CursorPastEnd.
Proof.
  apply (read_entries_keeps_cursor_within_file 2 Scenario.root
           Scenario.root_window 0 ltac:(bounds)).
Defined.

Lemma read_entries_repeats_an_empty_record_witness :
  snd (read_names 3 Scenario.stuck_directory Scenario.stuck_window 0)
  = Done ([Scenario.hello; Scenario.hello; Scenario.hello], 0).
Proof.
  rewrite (read_entries_repeats_an_empty_record 3 Scenario.stuck_directory
             Scenario.stuck_window 0 ltac:(bounds) ltac:(bounds)
             ltac:(vm_compute; reflexivity)).
  vm_compute. reflexivity.
Defined.

Lemma initializer_reads_the_record_of_the_inode_witness :
  inode_sector Scenario.geometry Scenario.inode_table 12 * 512
  + inode_offset Scenario.geometry 12 mod 512
  = 5 * 1024 + 11 * 128 /\
  inode_offset Scenario.geometry 12 mod 512 + 128 <= 512.
Proof.
  exact (initializer_reads_the_record_of_the_inode Scenario.geometry
           Scenario.inode_table 12 128 ScenarioFacts.geometry_valid
           ltac:(bounds) ltac:(bounds)
           ltac:(exists 7; split; [lia|reflexivity])
           ltac:(bounds) ltac:(bounds) ltac:(bounds) ltac:(bounds)
           ltac:(bounds)).
Defined.

Lemma hole_in_request_is_refused_witness :
  snd (readData Scenario.geometry Scenario.fileF Scenario.medium 0 6
         (Scenario.window 8192)) = Aborted HoleEncountered.
Proof.
  exact (hole_in_request_is_refused Scenario.geometry Scenario.fileF
           Scenario.medium 0 6 (Scenario.window 8192) 5
           ScenarioFacts.geometry_valid ltac:(lia) ltac:(bounds)
           ltac:(bounds) ltac:(lia) ltac:(vm_compute; reflexivity)).
Defined.

Lemma descriptor_of_counted_group_is_loaded_witness :
  0 <= inode_group Scenario.geometry 12 < numBlockGroups Scenario.geometry /\
  (inode_group Scenario.geometry 12 + 1) * 32
  <= bgdt_size 32 Scenario.geometry /\
  bgdt_size 32 Scenario.geometry mod 512 = 0.
Proof.
  exact (descriptor_of_counted_group_is_loaded 32 Scenario.geometry 12
           ltac:(lia) ltac:(bounds) ltac:(bounds) ltac:(bounds)
           ltac:(bounds) ltac:(bounds)).
Defined.
